(** * supersetup: a shallow embedding of [supersetup/repo.py] and
    [supersetup/__main__.py], and the properties of its specification.

    Strings are modelled as ASCII strings ([\w] is therefore the ASCII word
    class).  The version-control engine (gitpython) and the process runner
    ([ub.cmd]) are external collaborators: what gitpython reports is a
    record of observations per working directory, and what a shell command
    does to the world is an arbitrary function, a variable of the section. *)

From Stdlib Require Import Bool Arith ZArith List Ascii String Lia.
Import ListNotations.

Local Open Scope list_scope.
Local Open Scope string_scope.

(* ================================================================== *)
(** * Strings *)

Module Str.

(** [forallb] on the characters of a string. *)
Fixpoint all (p : ascii -> bool) (s : string) : bool :=
  match s with
  | EmptyString => true
  | String c s' => p c && all p s'
  end.

(** Python's [sub in s]. *)
Fixpoint contains (sub s : string) : bool :=
  String.prefix sub s ||
  match s with
  | EmptyString => false
  | String _ s' => contains sub s'
  end.

(** Python's [s.startswith(p)]. *)
Definition startswith (p s : string) : bool := String.prefix p s.

(** The first [n] characters. *)
Fixpoint take (n : nat) (s : string) : string :=
  match n, s with
  | S n', String c s' => String c (take n' s')
  | _, _ => EmptyString
  end.

End Str.

(* ================================================================== *)
(** * Regular expressions: the fragment of Python's [re] used by
      [GitURL.SYNTAX_PATTERNS]

    Greedy repetition of a character class, literals, concatenation, an
    optional group and named groups, matched by backtracking in the
    priority order of [re]: a repetition first tries its longest run, an
    optional group is first tried present. *)

Module Re.

Inductive regex : Type :=
| Lit (l : string)
| Star (cls : ascii -> bool)
| Plus (cls : ascii -> bool)
| Cat (r1 r2 : regex)
| Opt (r : regex)
| Named (name : string) (r : regex).

(** [match.groupdict()]: the named groups that took part in the match, the
    most recent binding first.  A group that did not take part is absent
    (Python's [None]). *)
Definition groupdict := list (string * string).

Fixpoint get (name : string) (g : groupdict) : option string :=
  match g with
  | [] => None
  | (n, v) :: g' => if String.eqb n name then Some v else get name g'
  end.

(** The literal [l] at the head of [s]: the rest of [s]. *)
Fixpoint m_lit (l s : string) : option string :=
  match l with
  | EmptyString => Some s
  | String a l' =>
      match s with
      | String b s' => if Ascii.eqb a b then m_lit l' s' else None
      | EmptyString => None
      end
  end.

Section Matcher.
Context {A : Type}.

(** [cls*]: the longest run first, then one character less, ... *)
Fixpoint m_star (cls : ascii -> bool) (s : string)
         (k : string -> option A) : option A :=
  match s with
  | String c s' =>
      if cls c then
        match m_star cls s' k with
        | Some x => Some x
        | None => k s
        end
      else k s
  | EmptyString => k s
  end.

Definition m_plus (cls : ascii -> bool) (s : string)
           (k : string -> option A) : option A :=
  match s with
  | String c s' => if cls c then m_star cls s' k else None
  | EmptyString => None
  end.

(** The text a group consumed: [s] up to where [s'] begins. *)
Definition consumed (s s' : string) : string :=
  Str.take (String.length s - String.length s') s.

(** [m r s g k]: match [r] at the head of [s], then hand the rest and the
    groups to the continuation [k]; the first success in priority order. *)
Fixpoint m (r : regex) (s : string) (g : groupdict)
         (k : string -> groupdict -> option A) : option A :=
  match r with
  | Lit l =>
      match m_lit l s with
      | Some s' => k s' g
      | None => None
      end
  | Star cls => m_star cls s (fun s' => k s' g)
  | Plus cls => m_plus cls s (fun s' => k s' g)
  | Cat r1 r2 => m r1 s g (fun s' g' => m r2 s' g' k)
  | Opt r1 =>
      match m r1 s g k with
      | Some x => Some x
      | None => k s g
      end
  | Named n r1 => m r1 s g (fun s' g' => k s' ((n, consumed s s') :: g'))
  end.
End Matcher.

(** [regex.match(s)]: a match at the head of [s]. *)
Definition match_here (r : regex) (s : string) : option groupdict :=
  m r s [] (fun _ g => Some g).

(** [regex.search(s)]: the leftmost position at which the pattern matches. *)
Fixpoint search (r : regex) (s : string) : option groupdict :=
  match match_here r s with
  | Some g => Some g
  | None =>
      match s with
      | String _ s' => search r s'
      | EmptyString => None
      end
  end.

(** ** Character classes *)

Definition between (lo hi : nat) (c : ascii) : bool :=
  let n := nat_of_ascii c in Nat.leb lo n && Nat.leb n hi.

Definition is_lower (c : ascii) : bool := between 97 122 c.
Definition is_upper (c : ascii) : bool := between 65 90 c.
Definition is_digit (c : ascii) : bool := between 48 57 c.

(** [\w] *)
Definition word (c : ascii) : bool :=
  is_lower c || is_upper c || is_digit c || Ascii.eqb c "_".
(** [[^@]] *)
Definition not_at (c : ascii) : bool := negb (Ascii.eqb c "@").
(** [[a-z0-9_.-]] *)
Definition hostchar (c : ascii) : bool :=
  is_lower c || is_digit c || Ascii.eqb c "_" || Ascii.eqb c "." || Ascii.eqb c "-".
(** [.] (every character but the newline) *)
Definition dot (c : ascii) : bool := negb (Ascii.eqb c "010").

End Re.

(* ================================================================== *)
(** * GitURL *)

Module GitURL.
Import Re.

Inductive Syntax := SyntaxUrl | SyntaxSsh.

Definition re_transport : regex := Named "transport" (Cat (Plus word) (Lit "://")).
Definition re_user : regex := Named "user" (Cat (Plus word) (Cat (Star not_at) (Lit "@"))).
Definition re_host : regex := Named "host" (Plus hostchar).
Definition re_port : regex := Named "port" (Cat (Lit ":") (Plus is_digit)).
Definition re_path : regex := Named "path" (Cat (Star dot) (Lit ".git")).

(** SYNTAX_PATTERNS, in the order of the dict: 'url' first, then 'ssh'. *)
Definition pattern_url : regex :=
  Cat re_transport
    (Cat (Opt re_user)
       (Cat re_host
          (Cat (Opt re_port)
             (Cat (Lit "/") re_path)))).

Definition pattern_ssh : regex :=
  Cat re_user (Cat re_host (Cat (Lit ":") re_path)).

Definition SYNTAX_PATTERNS : list (Syntax * regex) :=
  [(SyntaxUrl, pattern_url); (SyntaxSsh, pattern_ssh)].

(** The info dict of [parts]. *)
Record Parts := mkParts {
  syntax : Syntax;
  host : string;
  user : string;
  port : string;
  path : string;
  transport : string
}.

(** A group that is [None] (or not a group of the pattern) is the empty
    string in the info dict. *)
Definition field (name : string) (g : groupdict) : string :=
  match get name g with
  | Some v => v
  | None => ""
  end.

Definition info_of (syn : Syntax) (g : groupdict) : Parts :=
  {| syntax := syn;
     host := field "host" g;
     user := field "user" g;
     port := field "port" g;
     path := field "path" g;
     transport := field "transport" g |}.

(** The [for ... else] loop of [parts]: the first pattern that is found. *)
Fixpoint first_match (pats : list (Syntax * regex)) (url : string) : option Parts :=
  match pats with
  | [] => None
  | (syn, re) :: rest =>
      match search re url with
      | Some g => Some (info_of syn g)
      | None => first_match rest url
      end
  end.

(** [GitURL(url).parts()]; [None] is [Exception('Invalid URL ...')]. *)
Definition parts (url : string) : option Parts :=
  first_match SYNTAX_PATTERNS url.

(** [GitURL(url).format(protocol)]; [None] when [parts] raises. *)
Definition format (url protocol : string) : option string :=
  match parts url with
  | None => None
  | Some p =>
      if String.eqb protocol "ssh" then
        let user' := "git@" in
        Some (user' ++ host p ++ ":" ++ path p)
      else
        let transport' := protocol ++ "://" in
        let port' := "" in
        let user' := "" in
        Some (transport' ++ user' ++ host p ++ port' ++ "/" ++ path p)
  end.

End GitURL.

(* ================================================================== *)
(** * Python values used by [repo.py] *)

Module Py.

(** A keyword argument that may be left out ([ub.NoParam], or a key absent
    from [**kwargs]). *)
Inductive Param (A : Type) : Type :=
| NoParam
| Given (a : A).
Arguments NoParam {A}.
Arguments Given {A} a.

(** The dict returned by [ub.cmd]. *)
Record CmdInfo := mkCmdInfo {
  out : string;
  err : string;
  ret : Z
}.

(** The exceptions [repo.py] and [__main__.py] raise or meet. *)
Inductive Exc : Type :=
| DirtyRepoError (msg : string)
| ShellException (command : string) (info : CmdInfo)
| IndexError
| KeyError (key : string)
| TypeError
| ValueError (msg : string)
| AssertionError (msg : string)
| AttributeError (msg : string)
| NoSuchPathError
| InvalidGitRepositoryError
| Exception (msg : string).

Inductive Result (A : Type) : Type :=
| Ok (a : A)
| Raise (e : Exc).
Arguments Ok {A} a.
Arguments Raise {A} e.

(** ** dict with string keys, in insertion order *)

Definition dict (V : Type) := list (string * V).

Fixpoint dict_get {V} (k : string) (d : dict V) : option V :=
  match d with
  | [] => None
  | (k', v) :: d' => if String.eqb k' k then Some v else dict_get k d'
  end.

(** [d[k] = v]: an existing key keeps its place, a new key goes last. *)
Fixpoint dict_set {V} (k : string) (v : V) (d : dict V) : dict V :=
  match d with
  | [] => [(k, v)]
  | (k', v') :: d' =>
      if String.eqb k' k then (k', v) :: d' else (k', v') :: dict_set k v d'
  end.

Definition keys {V} (d : dict V) : list string := map fst d.

(** ** str methods *)

Definition is_space (c : ascii) : bool :=
  let n := nat_of_ascii c in (Nat.leb 9 n && Nat.leb n 13) || Nat.eqb n 32.

Fixpoint lstrip (s : string) : string :=
  match s with
  | String c s' => if is_space c then lstrip s' else s
  | EmptyString => s
  end.

(** The characters [str.strip] removes: the tab to the carriage return, the
    four separators 0x1c to 0x1f and the space ([int] takes the separators
    for no space, so it has [is_space]). *)
Definition str_isspace (c : ascii) : bool :=
  let n := nat_of_ascii c in
  (Nat.leb 9 n && Nat.leb n 13) || (Nat.leb 28 n && Nat.leb n 32).

Fixpoint str_lstrip (s : string) : string :=
  match s with
  | String c s' => if str_isspace c then str_lstrip s' else s
  | EmptyString => s
  end.

(** [s.strip()] is the empty string (falsy). *)
Definition strip_is_empty (s : string) : bool :=
  match str_lstrip s with
  | EmptyString => true
  | _ => false
  end.

(** [s.split(sep)] for a non-empty [sep]: [skip] counts the characters of
    the separator still to be passed over, [cur] is the piece being read. *)
Fixpoint split_aux (sep : string) (skip : nat) (cur : string) (s : string) : list string :=
  match s with
  | EmptyString => [cur]
  | String c s' =>
      match skip with
      | S n => split_aux sep n cur s'
      | O =>
          if String.prefix sep s
          then cur :: split_aux sep (String.length sep - 1) "" s'
          else split_aux sep 0 (cur ++ String c "") s'
      end
  end.

Definition split (sep s : string) : list string := split_aux sep 0 "" s.

(** ** int(str) on ASCII text: surrounding whitespace, a sign, decimal
       digits with single underscores between digits. *)

Definition digit_val (c : ascii) : Z := Z.of_nat (nat_of_ascii c - 48).

Fixpoint digits (acc : Z) (after_digit : bool) (s : string) : option Z :=
  match s with
  | EmptyString => if after_digit then Some acc else None
  | String c s' =>
      if Re.is_digit c then digits (10 * acc + digit_val c) true s'
      else if Ascii.eqb c "_" && after_digit then digits acc false s'
      else None
  end.

Fixpoint rstrip_rev (s : list ascii) : list ascii :=
  match s with
  | c :: s' => if is_space c then rstrip_rev s' else s
  | [] => []
  end.

Definition strip (s : string) : string :=
  string_of_list_ascii
    (rev (rstrip_rev (rev (list_ascii_of_string (lstrip s))))).

Definition int (s : string) : option Z :=
  match strip s with
  | String "+" r => digits 0 false r
  | String "-" r => option_map Z.opp (digits 0 false r)
  | r => digits 0 false r
  end.

(** [tuple(map(int, xs))]: fails as soon as one [int] fails. *)
Fixpoint map_int (xs : list string) : option (list Z) :=
  match xs with
  | [] => Some []
  | x :: xs' =>
      match int x with
      | None => None
      | Some n =>
          match map_int xs' with
          | None => None
          | Some ns => Some (n :: ns)
          end
      end
  end.

(** ** Order of tuples of ints: lexicographic, a proper prefix is smaller. *)

Fixpoint tuple_lt (a b : list Z) : bool :=
  match a, b with
  | [], [] => false
  | [], _ :: _ => true
  | _ :: _, [] => false
  | x :: a', y :: b' => (x <? y)%Z || ((x =? y)%Z && tuple_lt a' b')
  end.

Fixpoint tuple_eqb (a b : list Z) : bool :=
  match a, b with
  | [], [] => true
  | x :: a', y :: b' => (x =? y)%Z && tuple_eqb a' b'
  | _, _ => false
  end.

(** [max(xs)] keeps the first of equal maxima. *)
Fixpoint max_from (best : list Z) (xs : list (list Z)) : list Z :=
  match xs with
  | [] => best
  | x :: xs' => max_from (if tuple_lt best x then x else best) xs'
  end.

Definition max (xs : list (list Z)) : option (list Z) :=
  match xs with
  | [] => None
  | x :: xs' => Some (max_from x xs')
  end.

(** [xs.index(v)] *)
Fixpoint index (v : list Z) (xs : list (list Z)) : option nat :=
  match xs with
  | [] => None
  | x :: xs' => if tuple_eqb x v then Some 0 else option_map S (index v xs')
  end.

(** [ub.argmax(xs)] on a list: [xs.index(max(xs))]; [None] is the
    ValueError of [max] on an empty list. *)
Definition argmax (xs : list (list Z)) : option nat :=
  match max xs with
  | None => None
  | Some v => index v xs
  end.

(** [os.path.join(a, b)] *)
Definition endswith_slash (a : string) : bool :=
  match rev (list_ascii_of_string a) with
  | c :: _ => Ascii.eqb c "/"
  | [] => false
  end.

Definition path_join (a b : string) : string :=
  if String.prefix "/" b then b
  else if String.eqb a "" || endswith_slash a then a ++ b
  else a ++ "/" ++ b.

(** [xs[-1]] of a non-empty list. *)
Definition last_of (xs : list string) : string := List.last xs "".

(** [str(x)] of an optional string ([None] prints as "None"). *)
Definition str_opt (x : option string) : string :=
  match x with
  | Some s => s
  | None => "None"
  end.

End Py.

(* ================================================================== *)
(** * The external world: what gitpython and the file system report *)

Module Git.

(** A [git.Remote] as [repo.py] reads it: [remote.name], [remote.exists()],
    [list(remote.urls)], [[ref.remote_head for ref in remote.refs]]. *)
Record Remote := mkRemote {
  name : string;
  exists_ : bool;
  urls : list string;
  refs : list string
}.

(** [active_branch.tracking_branch()]: a remote reference. *)
Record Tracking := mkTracking {
  remote_name : string;
  remote_head : string
}.

(** [pygit.active_branch]: its name and tracking branch. *)
Record Head := mkHead {
  branch_name : string;
  tracking_branch : option Tracking
}.

Record Tag := mkTag {
  tag_name : string;
  tag_hexsha : string
}.

(** One working directory.  [active_branch = None] is a detached HEAD,
    where gitpython raises TypeError. *)
Record WorkTree := mkWorkTree {
  path_exists : bool;
  is_git_repo : bool;
  is_dirty : bool;
  remotes : list Remote;
  active_branch : option Head;
  tags : list Tag;
  head_hexsha : string
}.

(** The world: the working tree found at each path. *)
Definition World := string -> WorkTree.

(** [pygit.remotes[name]] finds the first remote of that name. *)
Fixpoint find_remote (n : string) (rs : list Remote) : option Remote :=
  match rs with
  | [] => None
  | r :: rs' => if String.eqb (name r) n then Some r else find_remote n rs'
  end.

End Git.

(* ================================================================== *)
(** * Repo *)

Module Repo.
Import Py.

(** The descriptor: the attributes [__init__] resolves. *)
Record Repo := mkRepo {
  name : string;
  dpath : string;
  code_dpath : option string;
  remotes : dict string;
  remote : string;
  branch : option string;
  url : string;
  pkg_dpath : string
}.

(** The attributes that operations change: the audit record, the cached
    gitpython handle and the verbosity. *)
Record Mem := mkMem {
  logged_lines : list (string * string);
  logged_cmds : list (string * option string);
  pygit_cached : bool;
  verbose : Z
}.

Record State := mkState {
  mem : Mem;
  world : Git.World
}.

(** Operations: a state and error monad.  The state survives an exception,
    as the attributes of a Python object do. *)
Definition M (A : Type) : Type := State -> Result A * State.

Definition pure {A} (a : A) : M A := fun s => (Ok a, s).

Definition bind {A B} (m : M A) (f : A -> M B) : M B :=
  fun s =>
    match m s with
    | (Ok a, s') => f a s'
    | (Raise e, s') => (Raise e, s')
    end.

Definition raise {A} (e : Exc) : M A := fun s => (Raise e, s).

(** [try: body except <handler>: ... else: orelse]. The handler says which
    exceptions it takes. *)
Definition try_else {A B} (body : M A) (handler : Exc -> option (M B))
           (orelse : A -> M B) : M B :=
  fun s =>
    match body s with
    | (Ok a, s') => orelse a s'
    | (Raise e, s') =>
        match handler e with
        | Some h => h s'
        | None => (Raise e, s')
        end
    end.

Definition try_ {A} (body : M A) (handler : Exc -> option (M A)) : M A :=
  try_else body handler pure.

Definition get_mem : M Mem := fun s => (Ok (mem s), s).
Definition get_world : M Git.World := fun s => (Ok (world s), s).
Definition modify_mem (f : Mem -> Mem) : M unit :=
  fun s => (Ok tt, {| mem := f (mem s); world := world s |}).

Definition when (b : bool) (m : M unit) : M unit := if b then m else pure tt.

(** [for x in xs: body x] *)
Fixpoint for_each {X} (xs : list X) (body : X -> M unit) : M unit :=
  match xs with
  | [] => pure tt
  | x :: xs' => bind (body x) (fun _ => for_each xs' body)
  end.

Declare Scope py_scope.
Delimit Scope py_scope with py.
Notation "x <- m ;; k" := (bind m (fun x => k))
  (at level 61, m at next level, right associativity) : py_scope.
Notation "' pat <- m ;; k" := (bind m (fun x => match x with pat => k end))
  (at level 61, pat pattern, m at next level, right associativity) : py_scope.
Notation "m ;; k" := (bind m (fun _ => k))
  (at level 61, right associativity) : py_scope.
Local Open Scope py_scope.

(** The handlers of the [except] clauses of the source. *)
Definition on_IndexError {A} (h : M A) (e : Exc) : option (M A) :=
  match e with IndexError => Some h | _ => None end.
Definition on_ShellException {A} (h : M A) (e : Exc) : option (M A) :=
  match e with ShellException _ _ => Some h | _ => None end.
Definition on_TypeError {A} (h : M A) (e : Exc) : option (M A) :=
  match e with TypeError => Some h | _ => None end.
Definition on_Exception {A} (h : Exc -> M A) (e : Exc) : option (M A) :=
  Some (h e).

Section Operations.

(** [ub.cmd(command, cwd=cwd)]: any effect on the world, any result. *)
Variable ub_cmd : string -> option string -> Git.World -> CmdInfo * Git.World.

Variable repo : Repo.

(** ['{}'.format(repo)]: NiceRepr. *)
Definition nice : string :=
  "<Repo(" ++ name repo ++ ", branch=" ++ str_opt (branch repo) ++ ")>".

(** ['{!r}'.format(s)] of a string, without the escapes. *)
Definition repr (s : string) : string := "'" ++ s ++ "'".
Definition repr_opt (s : option string) : string :=
  match s with Some x => repr x | None => "None" end.

Definition info (msg : string) : M unit :=
  modify_mem (fun m =>
    {| logged_lines := logged_lines m ++ [("INFO", "INFO: " ++ msg)];
       logged_cmds := logged_cmds m;
       pygit_cached := pygit_cached m;
       verbose := verbose m |}).

Definition debug (msg : string) : M unit :=
  modify_mem (fun m =>
    {| logged_lines := logged_lines m ++ [("DEBUG", "DEBUG: " ++ msg)];
       logged_cmds := logged_cmds m;
       pygit_cached := pygit_cached m;
       verbose := verbose m |}).

Definition log_cmd (command : string) (cwd : option string) : M unit :=
  modify_mem (fun m =>
    {| logged_lines := logged_lines m;
       logged_cmds := logged_cmds m ++ [(command, cwd)];
       pygit_cached := pygit_cached m;
       verbose := verbose m |}).

(** The one place where the world changes. *)
Definition run_ub_cmd (command : string) (cwd : option string) : M CmdInfo :=
  fun s =>
    let (i, w') := ub_cmd command cwd (world s) in
    (Ok i, {| mem := mem s; world := w' |}).

Definition _cmd (command : string) (cwd : Param (option string))
           (verbose_ : Param Z) : M CmdInfo :=
  m <- get_mem ;;
  let verbose_ := match verbose_ with NoParam => verbose m | Given v => v end in
  let cwd := match cwd with NoParam => Some (dpath repo) | Given c => c end in
  log_cmd command cwd ;;
  debug ("Run " ++ repr command ++ " in " ++ repr_opt cwd) ;;
  i <- run_ub_cmd command cwd ;;
  when (negb (verbose_ =? 0)%Z)
    (when (negb (strip_is_empty (out i))) (info (out i)) ;;
     when (negb (strip_is_empty (err i))) (debug (err i))) ;;
  if negb (ret i =? 0)%Z then raise (ShellException command i)
  else pure i.

(** [os.path.exists(repo.dpath)] *)
Definition exists_dpath : M bool :=
  w <- get_world ;; pure (Git.path_exists (w (dpath repo))).

(** The [pygit] property: [gitpython.Repo(repo.dpath)], cached. *)
Definition pygit : M Git.WorkTree :=
  m <- get_mem ;;
  w <- get_world ;;
  if pygit_cached m then pure (w (dpath repo))
  else if negb (Git.path_exists (w (dpath repo))) then raise NoSuchPathError
  else if negb (Git.is_git_repo (w (dpath repo))) then raise InvalidGitRepositoryError
  else
    modify_mem (fun m =>
      {| logged_lines := logged_lines m;
         logged_cmds := logged_cmds m;
         pygit_cached := true;
         verbose := verbose m |}) ;;
    pure (w (dpath repo)).

(** [repo.pygit.remotes[n]]: the handle is the remote's name; what it
    reports is read from the world when asked. *)
Definition pygit_remote (n : string) : M string :=
  g <- pygit ;;
  match Git.find_remote n (Git.remotes g) with
  | Some r => pure (Git.name r)
  | None => raise IndexError
  end.

Definition remote_read {A} (h : string) (f : Git.Remote -> A) (dflt : A) : M A :=
  g <- pygit ;;
  match Git.find_remote h (Git.remotes g) with
  | Some r => pure (f r)
  | None => pure dflt
  end.

Definition remote_exists (h : string) : M bool := remote_read h Git.exists_ false.
Definition remote_urls (h : string) : M (list string) := remote_read h Git.urls [].
Definition remote_refs (h : string) : M (list string) := remote_read h Git.refs [].

Definition mem_str (x : string) (xs : list string) : bool :=
  existsb (String.eqb x) xs.

(** [repo.branch not in remote_branchnames] *)
Definition branch_not_in (names : list string) : bool :=
  match branch repo with
  | Some b => negb (mem_str b names)
  | None => true
  end.

(** [text] is [repr(ex)], which holds the [ub.repr2] of what the runner
    returned; it is written here as the command, the output and the errors
    in a row, without the keys and the quoting of the printed dict. *)
Definition clone : M unit :=
  ex <- exists_dpath ;;
  if ex then raise (ValueError "cannot clone into non-empty directory")
  else
    let args := "--recursive" in
    let args := match branch repo with
                | Some b => args ++ " -b " ++ b
                | None => args
                end in
    try_
      (let command := "git clone " ++ args ++ " " ++ url repo ++ " " ++ dpath repo in
       _cmd command (Given (code_dpath repo)) NoParam ;; pure tt)
      (on_Exception (fun ex =>
         let text := match ex with
                     | ShellException c i => c ++ out i ++ err i
                     | _ => ""
                     end in
         if Str.contains "Remote branch" text && Str.contains "not found" text
         then raise (Exception ("Cannot find branch " ++ str_opt (branch repo)
                                ++ " for repo " ++ nice))
         else raise ex)).

Definition _assert_clean : M unit :=
  g <- pygit ;;
  if Git.is_dirty g
  then raise (DirtyRepoError ("The repo=" ++ nice ++ " is dirty"))
  else pure tt.

Definition ensure_clone : M unit :=
  ex <- exists_dpath ;;
  if ex then debug ("No need to clone existing repo=" ++ nice)
  else debug ("Clone non-existing repo=" ++ nice) ;; clone.

(** The body of the loop of [_ensure_remotes], for one declared remote. *)
Definition ensure_remotes_item (dry : bool) (item : string * string) : M unit :=
  let (remote_name, remote_url) := item in
  try_
    (_ <- pygit_remote remote_name ;;
     _ <- remote_urls remote_name ;;
     pure tt)
    (on_IndexError
       (try_
          (if negb dry
           then _cmd ("git remote add " ++ remote_name ++ " " ++ remote_url)
                  NoParam NoParam ;; pure tt
           else raise (AssertionError "In dry mode, cannot ensure remotes"))
          (fun e =>
             match e with
             | ShellException _ _ =>
                 Some (if String.eqb remote_name (remote repo)
                       then raise e else pure tt)
             | _ => None
             end))).

Definition _ensure_remotes (dry : bool) : M unit :=
  for_each (remotes repo) (ensure_remotes_item dry).

(** The second look of [_registered_remote], once the remotes have been
    gone through. *)
Definition lookup_again : M (option string) :=
  try_ (r <- pygit_remote (remote repo) ;; pure (Some r))
    (on_IndexError
       (debug "Something went wrong, cannot find remote in git" ;;
        pure None)).

(** The end of [_registered_remote]: what is logged on the remote found. *)
Definition report_remote (remote_ : option string) : M unit :=
  match remote_ with
  | Some r =>
      try_else
        (ex <- remote_exists r ;;
         if negb ex then raise IndexError
         else debug ("The requested remote=" ++ r ++ " name exists"))
        (on_IndexError (debug ("WARNING: remote=" ++ r ++ " does not exist")))
        (fun _ =>
           ex <- remote_exists r ;;
           when (negb ex) (debug "Requested remote does NOT exist"))
  | None => pure tt
  end.

Definition _registered_remote (dry : bool) : M (option string) :=
  remote_ <-
    try_ (r <- pygit_remote (remote repo) ;; pure (Some r))
      (on_IndexError (_ensure_remotes dry ;; lookup_again)) ;;
  report_remote remote_ ;;
  pure remote_.

(** The part of [ensure] under [if remote is not None]: fetch the branch,
    correct the url, check out the branch, set the upstream. *)
Definition ensure_fetch (dry : bool) (r : string) : M unit :=
  try_else
    (ex <- remote_exists r ;;
     if negb ex then raise IndexError
     else debug ("The requested remote=" ++ r ++ " name exists"))
    (on_IndexError (debug ("WARNING: remote=" ++ r ++ " does not exist")))
    (fun _ =>
       ex <- remote_exists r ;;
       if ex then
         debug "Requested remote does exists" ;;
         remote_branchnames <- remote_refs r ;;
         when (branch_not_in remote_branchnames)
           (info "Branch name not found in local remote. Attempting to fetch" ;;
            if dry then info "dry run, not fetching"
            else
              _cmd ("git fetch " ++ r) NoParam NoParam ;;
              info "Fetch was successful")
       else debug "Requested remote does NOT exist").

Definition ensure_url (dry : bool) (r : string) : M unit :=
  have <- remote_urls r ;;
  when (negb (mem_str (url repo) have))
    (debug ("'WARNING: The requested url=" ++ url repo
            ++ " disagrees with remote urls=[" ++ String.concat ", " have ++ "]") ;;
     if dry then info "Dry run, not updating remote url"
     else
       info "Updating remote url" ;;
       _cmd ("git remote set-url " ++ remote repo ++ " " ++ url repo)
         NoParam NoParam ;;
       pure tt).

(** [(is_on_correct_commit, ref_is_tag, tracking_branch)] *)
Definition current_ref : M (bool * bool * option Git.Tracking) :=
  try_else
    (g <- pygit ;;
     match Git.active_branch g with
     | Some h => pure h
     | None => raise TypeError
     end)
    (fun e =>
       match e with
       | TypeError =>
           Some (g <- pygit ;;
                 let candidates :=
                   filter (fun tag =>
                             match branch repo with
                             | Some b => String.eqb (Git.tag_name tag) b
                             | None => false
                             end) (Git.tags g) in
                 match candidates with
                 | [want_tag] =>
                     let is_on_correct_commit :=
                       String.eqb (Git.head_hexsha g) (Git.tag_hexsha want_tag) in
                     pure (is_on_correct_commit, true, None)
                 | _ => raise e
                 end)
       | _ => None
       end)
    (fun h =>
       let is_on_correct_commit :=
         match branch repo with
         | Some b => String.eqb b (Git.branch_name h)
         | None => false
         end in
       pure (is_on_correct_commit, false, Git.tracking_branch h)).

Definition ensure_checkout (dry : bool) (r : string) : M unit :=
  debug ("NEED TO SET BRANCH TO " ++ str_opt (branch repo) ++ " for " ++ nice) ;;
  if dry then info "Dry run, not setting branch"
  else
    try_
      (_cmd ("git checkout " ++ str_opt (branch repo)) NoParam NoParam ;; pure tt)
      (on_ShellException
         (debug "Checkout failed. Branch name might be ambiguous. Trying again" ;;
          try_
            (_cmd ("git fetch " ++ r) NoParam NoParam ;;
             _cmd ("git checkout -b " ++ str_opt (branch repo) ++ " "
                   ++ remote repo ++ "/" ++ str_opt (branch repo))
               NoParam NoParam ;;
             pure tt)
            (on_ShellException
               (raise (Exception "does the branch exist on the remote?"))))).

Definition needs_upstream (tracking : option Git.Tracking) : bool :=
  match tracking with
  | None => true
  | Some t => negb (String.eqb (Git.remote_name t) (remote repo))
  end.

Definition ensure_upstream (dry : bool) (r : string) : M unit :=
  debug ("NEED TO SET UPSTREAM FOR FOR " ++ nice) ;;
  try_else
    (r' <- pygit_remote (remote repo) ;;
     ex <- remote_exists r' ;;
     if negb ex then raise IndexError else pure r')
    (on_IndexError (debug ("WARNING: remote=" ++ r ++ " does not exist")))
    (fun r' =>
       ex <- remote_exists r' ;;
       when ex
         (remote_branchnames <- remote_refs r' ;;
          when (branch_not_in remote_branchnames)
            (if dry then
               info "Branch name not found in local remote. Dry run, use ensure to attempt to fetch"
             else
               info "Branch name not found in local remote. Attempting to fetch" ;;
               _cmd ("git fetch " ++ remote repo) NoParam NoParam ;;
               remote_branchnames <- remote_refs r' ;;
               when (branch_not_in remote_branchnames)
                 (raise (Exception "Branch name still does not exist"))) ;;
          if negb dry then
            _cmd ("git branch --set-upstream-to=" ++ remote repo ++ "/"
                  ++ str_opt (branch repo) ++ " " ++ str_opt (branch repo))
              NoParam NoParam ;;
            pure tt
          else info "Would attempt to set upstream")).

Definition ensure_remote (dry : bool) (r : string) : M unit :=
  ensure_fetch dry r ;;
  ensure_url dry r ;;
  '(is_on_correct_commit, ref_is_tag, tracking) <- current_ref ;;
  when (negb is_on_correct_commit) (ensure_checkout dry r) ;;
  when (negb ref_is_tag)
    (when (needs_upstream tracking) (ensure_upstream dry r)).

(** The end of [ensure]: the tags of the head commit and the status. *)
Definition ensure_report : M unit :=
  g <- pygit ;;
  let head_tags :=
    filter (fun tag => String.eqb (Git.tag_hexsha tag) (Git.head_hexsha g))
      (Git.tags g) in
  try_
    (g <- pygit ;;
     match Git.active_branch g with
     | Some h =>
         debug (" * branch = " ++ Git.branch_name h ++ " -> "
                ++ match Git.tracking_branch h with
                   | Some t => Git.remote_name t ++ "/" ++ Git.remote_head t
                   | None => "None"
                   end)
     | None => raise TypeError
     end)
    (on_Exception (fun _ => pure tt)) ;;
  when (negb (Nat.eqb (List.length head_tags) 0))
    (debug (" * head_tags = [" ++ String.concat ", " (map Git.tag_name head_tags) ++ "]")).

(** What [ensure] does once the working copy is there: the guard, then
    the reconciliation. *)
Definition ensure_body (dry : bool) : M unit :=
  _assert_clean ;;
  remote_ <- _registered_remote dry ;;
  match remote_ with
  | Some r => ensure_remote dry r
  | None => pure tt
  end ;;
  ensure_report.

(** What [ensure] does before the guard; [true] is the early [return] of
    the dry run on an absent working copy. *)
Definition ensure_head (dry : bool) : M bool :=
  m <- get_mem ;;
  when (verbose m >? 0)%Z
    (if dry then debug ("Checking " ++ nice) else debug ("Ensuring " ++ nice)) ;;
  ex <- exists_dpath ;;
  when (negb ex) (debug ("NEED TO CLONE " ++ nice ++ ": " ++ url repo)) ;;
  if negb ex && dry then pure true
  else ensure_clone ;; pure false.

Definition ensure (dry : bool) : M unit :=
  returned <- ensure_head dry ;;
  if returned then pure tt else ensure_body dry.

Definition check : M unit := ensure true.

Definition pull : M unit :=
  _assert_clean ;;
  _cmd "git pull" NoParam NoParam ;;
  pure tt.

Definition status : M unit :=
  _cmd "git status" NoParam NoParam ;; pure tt.

(** [tuple(map(int, remote_head.split('dev/')[1].split('.')))]; [None]
    when it raises. *)
Definition version_tuple (remote_head : string) : option (list Z) :=
  match split "dev/" remote_head with
  | _ :: suffix :: _ => map_int (split "." suffix)
  | _ => None
  end.

(** The loop of [upgrade] that fills [dev_branches] and [version_tuples]. *)
Fixpoint dev_versions (dev_branches_ : list string) : list string * list (list Z) :=
  match dev_branches_ with
  | [] => ([], [])
  | ref :: rest =>
      let (dev_branches, version_tuples) := dev_versions rest in
      match version_tuple ref with
      | Some tup => (ref :: dev_branches, tup :: version_tuples)
      | None => (dev_branches, version_tuples)
      end
  end.

(** [latest_branch], or [None] where [ub.argmax] raises. *)
Definition latest_dev_branch (refs : list string) : option string :=
  let dev_branches_ := filter (Str.startswith "dev/") refs in
  let (dev_branches, version_tuples) := dev_versions dev_branches_ in
  match argmax version_tuples with
  | Some i => nth_error dev_branches i
  | None => None
  end.

Definition upgrade : M unit :=
  remote_ <- _registered_remote false ;;
  match remote_ with
  | None => raise (AttributeError "'NoneType' object has no attribute 'name'")
  | Some r =>
      _cmd ("git fetch " ++ r) NoParam NoParam ;;
      info "Fetch was successful" ;;
      refs <- remote_refs r ;;
      match latest_dev_branch refs with
      | None => raise (ValueError "max() arg is an empty sequence")
      | Some latest_branch =>
          g <- pygit ;;
          match Git.active_branch g with
          | None => raise TypeError
          | Some h =>
              if String.eqb (Git.branch_name h) latest_branch
              then info "Already on the latest dev branch"
              else
                try_
                  (_cmd ("git checkout " ++ latest_branch) NoParam NoParam ;;
                   pure tt)
                  (on_ShellException
                     (debug "Checkout failed. Branch name might be ambiguous. Trying again" ;;
                      try_
                        (_cmd ("git checkout -b " ++ latest_branch ++ " "
                               ++ r ++ "/" ++ latest_branch) NoParam NoParam ;;
                         pure tt)
                        (on_ShellException
                           (raise (Exception "does the branch exist on the remote?")))))
          end
      end
  end.

End Operations.

(** ** Construction *)

(** The keyword arguments of [Repo(...)]. *)
Record Kwargs := mkKwargs {
  kw_name : option string;
  kw_dpath : option string;
  kw_code_dpath : option string;
  kw_remotes : option (dict string);
  kw_remote : option string;
  kw_branch : Param (option string);
  kw_verbose : Param Z;
  kw_unknown : list string
}.

(** [repo.remotes] and [repo.remote] once resolved: a dict and one of its
    keys, or gitpython's list of remotes and its first element. *)
Inductive Resolved : Type :=
| FromDict (d : dict string) (k : string)
| FromGit (l : list Git.Remote) (r : Git.Remote).

Definition resolve_remote (w : Git.World) (kw : Kwargs) : Result Resolved :=
  match kw_remote kw with
  | None =>
      match kw_remotes kw with
      | Some d =>
          match d with
          | [] => Raise (ValueError "must specify some remote")
          | [(k, _)] => Ok (FromDict d k)
          | _ => Raise (ValueError "remotes are ambiguous, specify one")
          end
      | None =>
          match kw_dpath kw with
          | None => Raise (ValueError "must specify some remote")
          | Some p =>
              if negb (Git.path_exists (w p)) then Raise NoSuchPathError
              else if negb (Git.is_git_repo (w p)) then Raise InvalidGitRepositoryError
              else
                match Git.remotes (w p) with
                | [] => Raise (ValueError "must specify some remote")
                | [r] => Ok (FromGit [r] r)
                | _ => Raise (ValueError "remotes are ambiguous, specify one")
                end
          end
      end
  | Some u =>
      match kw_remotes kw with
      | None => Ok (FromDict [("origin", u)] "origin")
      | Some d => Ok (FromDict d u)
      end
  end.

Section Init.
(** [ub.expandpath]: the home directory and the environment. *)
Variable expandpath : string -> string.

(** The constructor [Repo].  Indexing gitpython's list of remotes by a Remote
    object, as [repo.remotes[repo.remote]] does on that path, raises. *)
Definition init (w : Git.World) (kw : Kwargs) : Result (Repo * Mem) :=
  match resolve_remote w kw with
  | Raise e => Raise e
  | Ok (FromGit _ _) => Raise TypeError
  | Ok (FromDict remotes_ remote_) =>
      match dict_get remote_ remotes_ with
      | None => Raise (KeyError remote_)
      | Some url_ =>
          let name_ :=
            match kw_name kw with
            | Some n => n
            | None =>
                let suffix := last_of (split "/" url_) in
                hd "" (split ".git" suffix)
            end in
          match
            match kw_dpath kw with
            | Some p => Ok p
            | None =>
                match kw_code_dpath kw with
                | Some c => Ok (path_join c name_)
                | None => Raise TypeError
                end
            end
          with
          | Raise e => Raise e
          | Ok dpath_ =>
              let pkg_dpath_ := path_join dpath_ name_ in
              match kw_unknown kw with
              | _ :: _ => Raise (ValueError "unknown kwargs")
              | [] =>
                  Ok ({| name := name_;
                         dpath := expandpath dpath_;
                         code_dpath := option_map expandpath (kw_code_dpath kw);
                         remotes := remotes_;
                         remote := remote_;
                         branch := match kw_branch kw with
                                   | NoParam => Some "master"
                                   | Given b => b
                                   end;
                         url := url_;
                         pkg_dpath := pkg_dpath_ |},
                      {| logged_lines := [];
                         logged_cmds := [];
                         pygit_cached := false;
                         verbose := match kw_verbose kw with
                                    | NoParam => 3%Z
                                    | Given v => v
                                    end |})
              end
          end
      end
  end.
End Init.

(** ** set_protocol *)

Definition with_url (r : Repo) (u : string) : Repo :=
  {| name := name r; dpath := dpath r; code_dpath := code_dpath r;
     remotes := remotes r; remote := remote r; branch := branch r;
     url := u; pkg_dpath := pkg_dpath r |}.

Definition with_remotes (r : Repo) (d : dict string) : Repo :=
  {| name := name r; dpath := dpath r; code_dpath := code_dpath r;
     remotes := d; remote := remote r; branch := branch r;
     url := url r; pkg_dpath := pkg_dpath r |}.

(** [for key in list(self.remotes.keys()): self.remotes[key] = ...]; the
    object keeps what was written before an exception. *)
Fixpoint set_protocol_loop (protocol : string) (ks : list string) (r : Repo)
  : Result unit * Repo :=
  match ks with
  | [] => (Ok tt, r)
  | key :: ks' =>
      match dict_get key (remotes r) with
      | None => (Raise (KeyError key), r)
      | Some v =>
          match GitURL.format v protocol with
          | None => (Raise (Exception ("Invalid URL " ++ v)), r)
          | Some v' =>
              set_protocol_loop protocol ks' (with_remotes r (dict_set key v' (remotes r)))
          end
      end
  end.

Definition set_protocol (protocol : string) (r : Repo) : Result unit * Repo :=
  match GitURL.format (url r) protocol with
  | None => (Raise (Exception ("Invalid URL " ++ url r)), r)
  | Some u =>
      let r := with_url r u in
      set_protocol_loop protocol (keys (remotes r)) r
  end.

End Repo.

(* ================================================================== *)
(** * RepoRegistry *)

Module RepoRegistry.
Import Py Repo.

(** A repo object: the descriptor and its mutable attributes. *)
Definition RepoObj : Type := Repo * Mem.

Section Apply.
Variable ub_cmd : string -> option string -> Git.World -> CmdInfo * Git.World.

(** The method [getattr(repo, funcname)] called on one object. *)
Definition call (func : Repo -> M unit) (o : RepoObj) (w : Git.World)
  : Result unit * RepoObj * Git.World :=
  let '(r, s) := func (fst o) {| mem := snd o; world := w |} in
  (r, (fst o, mem s), world s).

(** The loop of [apply] for [num_workers == 0]: the repos of the registry
    as the loop leaves them and [processed_repos]. *)
Fixpoint apply_loop (func : Repo -> M unit) (repos : list RepoObj)
         (w : Git.World) (processed_repos : list RepoObj)
  : Result (list RepoObj) * list RepoObj * Git.World :=
  match repos with
  | [] => (Ok processed_repos, [], w)
  | repo :: rest =>
      let '(r, repo', w') := call func repo w in
      let continue :=
        let '(res, rest', w'') :=
          apply_loop func rest w' (processed_repos ++ [repo']) in
        (res, repo' :: rest', w'') in
      match r with
      | Ok _ => continue
      | Raise (DirtyRepoError _) => continue
      | Raise e => (Raise e, repo' :: rest, w')
      end
  end.

(** What the loop prints itself: a line for each repo it comes to and a
    line for each DirtyRepoError it catches, up to the exception that
    leaves the loop (the colours of [ub.color_text] are left out).  What the
    methods print is what [info] and [debug] log in each repo. *)
Fixpoint apply_loop_prints (func : Repo -> M unit) (repos : list RepoObj)
         (w : Git.World) : list string :=
  match repos with
  | [] => []
  | repo :: rest =>
      let '(r, _, w') := call func repo w in
      ("--- REPO = " ++ nice (fst repo) ++ " ---")
      :: match r with
         | Ok _ => apply_loop_prints func rest w'
         | Raise (DirtyRepoError _) =>
             ("Ignoring dirty repo=" ++ nice (fst repo))
             :: apply_loop_prints func rest w'
         | Raise _ => []
         end
  end.

(** The listing of the logged commands: [os.get_cwd] does not exist, so a
    command logged with [cwd = None] raises AttributeError. *)
Definition show_cmdlog (processed_repos : list RepoObj) : Result unit :=
  if existsb (fun o : RepoObj =>
                existsb (fun t : string * option string =>
                           match snd t with None => true | Some _ => false end)
                  (logged_cmds (snd o)))
       processed_repos
  then Raise (AttributeError "module 'os' has no attribute 'get_cwd'")
  else Ok tt.

(** [registery.apply(funcname, num_workers=0, **kwargs)] *)
Definition apply (func : Repo -> M unit) (repos : list RepoObj) (w : Git.World)
  : Result (list RepoObj) * list RepoObj * Git.World :=
  let '(res, repos', w') := apply_loop func repos w [] in
  match res with
  | Raise e => (Raise e, repos', w')
  | Ok processed_repos =>
      match show_cmdlog processed_repos with
      | Raise e => (Raise e, repos', w')
      | Ok _ => (Ok processed_repos, repos', w')
      end
  end.
End Apply.

End RepoRegistry.

(* ================================================================== *)
(** * Text: the [str] methods of [versions] and [_getlogs] *)

Module Text.

(** The characters [str.strip] removes: the ASCII characters for which
    [str.isspace] holds, the tab to the carriage return, the four
    separators and the space. *)
Definition isspace (c : ascii) : bool :=
  let n := nat_of_ascii c in
  (Nat.leb 9 n && Nat.leb n 13) || (Nat.leb 28 n && Nat.leb n 32).

Fixpoint lstrip (s : string) : string :=
  match s with
  | String c s' => if isspace c then lstrip s' else s
  | EmptyString => s
  end.

Fixpoint rstrip_rev (s : list ascii) : list ascii :=
  match s with
  | c :: s' => if isspace c then rstrip_rev s' else s
  | [] => []
  end.

(** [s.strip()] *)
Definition strip (s : string) : string :=
  string_of_list_ascii
    (rev (rstrip_rev (rev (list_ascii_of_string (lstrip s))))).

Fixpoint spaces (n : nat) : string :=
  match n with
  | O => ""
  | S n' => String " " (spaces n')
  end.

(** ['{:<n}'.format(s)]: [s], then spaces up to the width [n]. *)
Definition ljust (n : nat) (s : string) : string :=
  s ++ spaces (n - String.length s).

(** ['\n'.join(lines)] *)
Definition join_lines (lines : list string) : string :=
  String.concat (String "010" "") lines.

End Text.

(* ================================================================== *)
(** * Repo: the methods that install, test and report *)

Module Methods.
Import Py Repo.
Local Open Scope py_scope.

(** [repo._getlogs()] *)
Definition _getlogs (m : Mem) : string :=
  Text.join_lines (map snd (logged_lines m)).

(** [os.path.exists(path)] *)
Definition exists_path (path : string) : M bool :=
  w <- get_world ;; pure (Git.path_exists (w path)).

(** NotImplementedError is met in [doctest] only, and no handler of the
    program tells it from [Exception], its base class: it is written as
    an [Exception] whose message begins with the name of the class. *)
Definition NotImplementedError (msg : string) : Exc :=
  Exception ("NotImplementedError: " ++ msg).

Section Tools.

Variable ub_cmd : string -> option string -> Git.World -> CmdInfo * Git.World.

(** [ub.WIN32] *)
Variable WIN32 : bool.

(** [parse_version(package)], which reads and parses the [__init__.py] of
    the package: the version it finds, or what it raises. *)
Variable parse_version : string -> Git.World -> Result string.

Variable repo : Repo.

(** Both platforms run the same command; on win32 a warning is printed
    first. *)
Definition develop : M unit :=
  let build_req_fpath := path_join (dpath repo) "requirements/build.txt" in
  ex <- exists_path build_req_fpath ;;
  when ex
    (_cmd ub_cmd repo ("pip install -r " ++ build_req_fpath)
       (Given (Some (dpath repo))) NoParam ;;
     pure tt) ;;
  if WIN32 then
    _cmd ub_cmd repo "pip install -e ." (Given (Some (dpath repo))) NoParam ;;
    pure tt
  else
    _cmd ub_cmd repo "pip install -e ." (Given (Some (dpath repo))) NoParam ;;
    pure tt.

(** The message of the AssertionError ends with the [repr] of the object,
    written here without its address. *)
Definition doctest : M unit :=
  if WIN32
  then raise (NotImplementedError "doctest does not yet work on windows")
  else
    let devsetup_script_fpath := path_join (dpath repo) "run_doctests.sh" in
    ex <- exists_path devsetup_script_fpath ;;
    if negb ex
    then raise (AssertionError
                  ("Assume we always have run_doctests.sh: repo=" ++ nice repo))
    else
      _cmd ub_cmd repo devsetup_script_fpath (Given (Some (dpath repo))) NoParam ;;
      pure tt.

Definition versions : M unit :=
  w <- get_world ;;
  match parse_version (pkg_dpath repo) w with
  | Raise e => raise e
  | Ok version =>
      let pkg := version ++ "," in
      i <- _cmd ub_cmd repo "git rev-parse HEAD" NoParam (Given 0%Z) ;;
      let sha1 := Text.strip (out i) in
      tag <-
        try_
          (i <- _cmd ub_cmd repo "git describe --tags" NoParam (Given 0%Z) ;;
           pure (Text.strip (out i) ++ ","))
          (on_ShellException (pure "<None>,")) ;;
      g <- pygit repo ;;
      match Git.active_branch g with
      | None => raise TypeError
      | Some h =>
          let branch_ := Git.branch_name h ++ "," in
          let repo_ := name repo ++ "," in
          info ("repo=" ++ Text.ljust 14 repo_
                ++ " pkg=" ++ Text.ljust 12 pkg
                ++ " tag=" ++ Text.ljust 18 tag
                ++ " branch=" ++ Text.ljust 10 branch_
                ++ " sha1=" ++ sha1)
      end
  end.

End Tools.

End Methods.

(* ================================================================== *)
(** * __main__: the worker, the code directory and the registry *)

Module Main.
Import Py Repo RepoRegistry.

(** [repo.verbose = 0] *)
Definition silenced (m : Mem) : Mem :=
  {| logged_lines := logged_lines m;
     logged_cmds := logged_cmds m;
     pygit_cached := pygit_cached m;
     verbose := 0 |}.

(** [worker(repo, funcname, kwargs)]: the repo it returns, the object as it
    is left, and the world. *)
Definition worker (func : Repo -> M unit) (o : RepoObj) (w : Git.World)
  : Result RepoObj * RepoObj * Git.World :=
  let o := (fst o, silenced (snd o)) in
  let '(r, o', w') := call func o w in
  match r with
  | Ok _ => (Ok o', o', w')
  | Raise e => (Raise e, o', w')
  end.

(** What [determine_code_dpath] reads of the command line and of the
    environment; a flag or a variable that is not given reads as the empty
    string. *)
Record Settings := mkSettings {
  argv_codedir : string;
  argv_codedpath : string;
  env_CODE_DPATH : string;
  env_CODE_DIR : string
}.

(** A descriptor of [devel_repos]: its keyword arguments, and whether
    [code_dpath] is one of them. *)
Record Descr := mkDescr {
  has_code_dpath : bool;
  kwargs : Kwargs
}.

Definition with_code_dpath (kw : Kwargs) (c : option string) : Kwargs :=
  {| kw_name := kw_name kw;
     kw_dpath := kw_dpath kw;
     kw_code_dpath := c;
     kw_remotes := kw_remotes kw;
     kw_remote := kw_remote kw;
     kw_branch := kw_branch kw;
     kw_verbose := kw_verbose kw;
     kw_unknown := kw_unknown kw |}.

Section Registry.

(** [ub.expandpath] *)
Variable expandpath : string -> string.

(** The module imports neither [abspath] nor [dirname]: with no candidate
    the [try] raises NameError, and the directory is [~/code]. *)
Definition determine_code_dpath (st : Settings) (w : Git.World) : Result string :=
  let candidates :=
    [argv_codedir st; argv_codedpath st; env_CODE_DPATH st; env_CODE_DIR st] in
  let valid := filter (fun c => negb (String.eqb c "")) candidates in
  let code_dpath :=
    match valid with
    | c :: _ => c
    | [] => expandpath "~/code"
    end in
  let code_dpath :=
    if negb (Git.path_exists (w code_dpath)) then expandpath code_dpath
    else code_dpath in
  if negb (Git.path_exists (w code_dpath))
  then Raise (Exception ("Please specify a correct code_dir using the CLI or ENV. code_dpath="
                         ++ repr code_dpath ++ " does not exist."))
  else Ok code_dpath.

(** [CommonRepo], the partial application of [Repo] to
    [code_dpath=code_dpath], called with the keywords of a descriptor: a
    keyword of the call wins over that of the partial. *)
Definition CommonRepo (code_dpath : string) (w : Git.World) (d : Descr)
  : Result RepoObj :=
  init expandpath w
    (if has_code_dpath d then kwargs d
     else with_code_dpath (kwargs d) (Some code_dpath)).

(** The list of [make_registry]: [CommonRepo] on each descriptor, in
    order. *)
Fixpoint make_repos (code_dpath : string) (w : Git.World) (devel_repos : list Descr)
  : Result (list RepoObj) :=
  match devel_repos with
  | [] => Ok []
  | kw :: rest =>
      match CommonRepo code_dpath w kw with
      | Raise e => Raise e
      | Ok o =>
          match make_repos code_dpath w rest with
          | Raise e => Raise e
          | Ok os => Ok (o :: os)
          end
      end
  end.

Definition make_registry (st : Settings) (w : Git.World) (devel_repos : list Descr)
  : Result (list RepoObj) :=
  match determine_code_dpath st w with
  | Raise e => Raise e
  | Ok code_dpath => make_repos code_dpath w devel_repos
  end.

End Registry.

End Main.

(* ================================================================== *)
(** * Facts on strings *)

Module StrFacts.
Import Str.

Lemma append_assoc (a b c : string) : (a ++ b) ++ c = a ++ (b ++ c).
Proof. induction a as [|x a IH]; simpl; [reflexivity | now rewrite IH]. Qed.

Lemma append_nil_r (a : string) : a ++ "" = a.
Proof. induction a as [|x a IH]; simpl; [reflexivity | now rewrite IH]. Qed.

Lemma length_append (a b : string) :
  String.length (a ++ b) = String.length a + String.length b.
Proof. induction a as [|x a IH]; simpl; [reflexivity | now rewrite IH]. Qed.

Lemma all_append p a b : all p (a ++ b) = all p a && all p b.
Proof.
  induction a as [|x a IH]; simpl; [reflexivity|].
  now rewrite IH, andb_assoc.
Qed.

Lemma take_append (a b : string) : take (String.length a) (a ++ b) = a.
Proof. induction a as [|x a IH]; simpl; [now destruct b | now rewrite IH]. Qed.

Lemma prefix_append (p s : string) : String.prefix p (p ++ s) = true.
Proof.
  induction p as [|x p IH]; simpl; [now destruct s|].
  destruct (ascii_dec x x) as [_|n]; [exact IH | now elim n].
Qed.

Lemma prefix_inv (p s : string) :
  String.prefix p s = true -> exists t, s = p ++ t.
Proof.
  revert s; induction p as [|x p IH]; intros s H.
  - now exists s.
  - destruct s as [|y s]; [discriminate|]. simpl in H.
    destruct (ascii_dec x y) as [e|]; [subst y|discriminate].
    destruct (IH _ H) as [t ->]. now exists t.
Qed.

(** [contains sub s] says that [sub] occurs in [s]. *)
Lemma contains_prefix (sub s : string) :
  String.prefix sub s = true -> contains sub s = true.
Proof. intros H. destruct s; cbn [contains]; rewrite H; reflexivity. Qed.

Lemma contains_intro (sub a b : string) : contains sub (a ++ sub ++ b) = true.
Proof.
  induction a as [|x a IH]; simpl.
  - apply contains_prefix, prefix_append.
  - rewrite IH. apply orb_true_r.
Qed.

Lemma contains_elim (sub s : string) :
  contains sub s = true -> exists a b, s = a ++ sub ++ b.
Proof.
  induction s as [|x s IH]; cbn [contains]; intros H.
  - rewrite orb_false_r in H. destruct sub; [|discriminate].
    now exists "", "".
  - apply orb_true_iff in H. destruct H as [H|H].
    + destruct (prefix_inv _ _ H) as [t E]. exists "", t. exact E.
    + destruct (IH H) as (a & b & ->). now exists (String x a), b.
Qed.

End StrFacts.

(* ================================================================== *)
(** * Facts on the matcher *)

Module ReFacts.
Import Str StrFacts Re.

(** What a pattern matches, and the groups it binds: the meaning of the
    patterns, independent of the order in which the matcher tries them. *)
Inductive matches : regex -> string -> groupdict -> groupdict -> Prop :=
| MLit l g : matches (Lit l) l g g
| MStar cls a g : all cls a = true -> matches (Star cls) a g g
| MPlus cls c a g :
    cls c = true -> all cls a = true -> matches (Plus cls) (String c a) g g
| MCat r1 r2 a b g g1 g2 :
    matches r1 a g g1 -> matches r2 b g1 g2 -> matches (Cat r1 r2) (a ++ b) g g2
| MOptSome r a g g' : matches r a g g' -> matches (Opt r) a g g'
| MOptNone r g : matches (Opt r) "" g g
| MNamed n r a g g' : matches r a g g' -> matches (Named n r) a g ((n, a) :: g').

Lemma m_lit_sound l : forall s s', m_lit l s = Some s' -> s = l ++ s'.
Proof.
  induction l as [|a l IH]; intros s s' H; simpl in H.
  - now inversion H.
  - destruct s as [|b s]; [discriminate|].
    destruct (Ascii.eqb a b) eqn:E; [|discriminate].
    apply Ascii.eqb_eq in E. subst b. simpl. now rewrite <- (IH _ _ H).
Qed.

Lemma m_lit_append l s : m_lit l (l ++ s) = Some s.
Proof.
  induction l as [|a l IH]; simpl; [reflexivity|].
  now rewrite Ascii.eqb_refl.
Qed.

Lemma consumed_append (a b : string) : consumed (a ++ b) b = a.
Proof.
  unfold consumed. rewrite length_append.
  replace (String.length a + String.length b - String.length b)
    with (String.length a) by lia.
  apply take_append.
Qed.

Section Continuations.
Context {A : Type}.
Implicit Types (k : string -> option A) (K : string -> groupdict -> option A).

Lemma m_star_sound cls : forall s k x,
  m_star cls s k = Some x ->
  exists a b, s = a ++ b /\ all cls a = true /\ k b = Some x.
Proof.
  induction s as [|c s IH]; intros k x H; simpl in H.
  - exists "", "". auto.
  - destruct (cls c) eqn:Ec.
    + destruct (m_star cls s k) eqn:E.
      * inversion H; subst. destruct (IH _ _ E) as (a & b & -> & Ha & Hk).
        exists (String c a), b. simpl. rewrite Ec, Ha. auto.
      * exists "", (String c s). auto.
    + exists "", (String c s). auto.
Qed.

Lemma m_star_none cls : forall s k,
  m_star cls s k = None ->
  forall a b, s = a ++ b -> all cls a = true -> k b = None.
Proof.
  induction s as [|c s IH]; intros k H a b E Ha; simpl in H.
  - destruct a; [|discriminate]. simpl in E. now subst b.
  - destruct a as [|y a].
    + simpl in E. subst b.
      destruct (cls c); [destruct (m_star cls s k); [discriminate|]|]; exact H.
    + simpl in E. inversion E; subst. simpl in Ha.
      apply andb_true_iff in Ha. destruct Ha as [Hy Ha]. rewrite Hy in H.
      destruct (m_star cls (a ++ b) k) eqn:E'; [discriminate|].
      eapply IH; eauto.
Qed.

(** The first success of a greedy repetition: the split after [a] is
    taken when the continuation accepts it and refuses every longer run. *)
Lemma m_star_first cls a : forall b k x,
  all cls a = true ->
  k b = Some x ->
  (forall c b', c <> "" -> b = c ++ b' -> all cls c = true -> k b' = None) ->
  m_star cls (a ++ b) k = Some x.
Proof.
  induction a as [|y a IH]; intros b k x Ha Hk Hlong.
  - simpl. destruct b as [|c b]; [exact Hk|]. simpl.
    destruct (cls c) eqn:Ec; [|exact Hk].
    destruct (m_star cls b k) eqn:E; [|exact Hk].
    destruct (m_star_sound _ _ _ _ E) as (a' & b' & -> & Ha' & Hk').
    rewrite (Hlong (String c a') b') in Hk'; [discriminate|discriminate|reflexivity|].
    simpl. now rewrite Ec.
  - simpl in Ha. apply andb_true_iff in Ha. destruct Ha as [Hy Ha].
    simpl. rewrite Hy. now rewrite (IH b k x Ha Hk Hlong).
Qed.

Lemma m_sound r : forall s g K x,
  m r s g K = Some x ->
  exists a b g', s = a ++ b /\ matches r a g g' /\ K b g' = Some x.
Proof.
  induction r as [l|cls|cls|r1 IH1 r2 IH2|r IH|n r IH]; intros s g K x H; simpl in H.
  - destruct (m_lit l s) as [s'|] eqn:E; [|discriminate].
    apply m_lit_sound in E. subst s.
    exists l, s', g. repeat split; auto. constructor.
  - destruct (m_star_sound _ _ _ _ H) as (a & b & -> & Ha & Hk).
    exists a, b, g. repeat split; auto. now constructor.
  - unfold m_plus in H. destruct s as [|c s]; [discriminate|].
    destruct (cls c) eqn:Ec; [|discriminate].
    destruct (m_star_sound _ _ _ _ H) as (a & b & -> & Ha & Hk).
    exists (String c a), b, g. repeat split; auto. now constructor.
  - destruct (IH1 _ _ _ _ H) as (a1 & b1 & g1 & -> & M1 & H1).
    destruct (IH2 _ _ _ _ H1) as (a2 & b2 & g2 & -> & M2 & H2).
    exists (a1 ++ a2), b2, g2. rewrite append_assoc. repeat split; auto.
    econstructor; eauto.
  - destruct (m r s g K) eqn:E.
    + inversion H; subst. destruct (IH _ _ _ _ E) as (a & b & g' & -> & M & Hk).
      exists a, b, g'. repeat split; auto. now constructor.
    + exists "", s, g. repeat split; auto. apply MOptNone.
  - destruct (IH _ _ _ _ H) as (a & b & g' & -> & M & Hk).
    rewrite consumed_append in Hk.
    exists a, b, ((n, a) :: g'). repeat split; auto. now constructor.
Qed.

Lemma m_none r : forall s g K,
  m r s g K = None ->
  forall a b g', s = a ++ b -> matches r a g g' -> K b g' = None.
Proof.
  induction r as [l|cls|cls|r1 IH1 r2 IH2|r IH|n r IH];
    intros s g K H a b g' E M; simpl in H; inversion M; subst; clear M.
  - now rewrite m_lit_append in H.
  - eapply (m_star_none _ _ _ H); eauto.
  - unfold m_plus in H. simpl in H. rewrite H1 in H.
    eapply (m_star_none _ _ _ H); eauto.
  - rewrite append_assoc in H.
    eapply IH2; [|reflexivity|eassumption].
    eapply (IH1 _ _ _ H); [reflexivity|eassumption].
  - destruct (m r (a ++ b) g K) eqn:E; [discriminate|].
    eapply IH; eauto.
  - simpl in H. destruct (m r b g' K); [discriminate|exact H].
  - pose proof (IH _ _ _ H _ _ _ eq_refl H5) as Hk. simpl in Hk.
    now rewrite consumed_append in Hk.
Qed.
End Continuations.

Lemma match_here_sound r s g :
  match_here r s = Some g -> exists a b, s = a ++ b /\ matches r a [] g.
Proof.
  intros H. destruct (m_sound _ _ _ _ _ H) as (a & b & g' & -> & M & E).
  inversion E; subst. eauto.
Qed.

Lemma match_here_none r a b g :
  match_here r (a ++ b) = None -> ~ matches r a [] g.
Proof.
  intros H M. pose proof (m_none _ _ _ _ H _ _ _ eq_refl M). discriminate.
Qed.

Lemma search_sound r : forall s g,
  search r s = Some g ->
  exists pre a b, s = pre ++ a ++ b /\ matches r a [] g.
Proof.
  induction s as [|c s IH]; intros g H; simpl in H.
  - destruct (match_here r "") eqn:E; [|discriminate]. inversion H; subst.
    destruct (match_here_sound _ _ _ E) as (a & b & E' & M).
    exists "", a, b. auto.
  - destruct (match_here r (String c s)) eqn:E.
    + inversion H; subst.
      destruct (match_here_sound _ _ _ E) as (a & b & E' & M).
      exists "", a, b. auto.
    + destruct (IH _ H) as (pre & a & b & -> & M).
      exists (String c pre), a, b. auto.
Qed.

Lemma search_none r : forall s,
  search r s = None ->
  forall pre a b g, s = pre ++ a ++ b -> ~ matches r a [] g.
Proof.
  induction s as [|c s IH]; intros H pre a b g E; simpl in H.
  - destruct (match_here r "") eqn:E0; [discriminate|].
    destruct pre; [|discriminate]. simpl in E. rewrite E in E0.
    eapply match_here_none; eauto.
  - destruct (match_here r (String c s)) eqn:E0; [discriminate|].
    destruct pre as [|y pre].
    + simpl in E. rewrite E in E0. eapply match_here_none; eauto.
    + simpl in E. inversion E; subst. eapply IH; eauto.
Qed.

Lemma search_none_intro r : forall s,
  (forall pre a b g, s = pre ++ a ++ b -> ~ matches r a [] g) ->
  search r s = None.
Proof.
  intros s H. destruct (search r s) eqn:E; [|reflexivity].
  destruct (search_sound _ _ _ E) as (pre & a & b & E' & M).
  elim (H _ _ _ _ E' M).
Qed.

(** A pattern that is found nowhere in a string is found nowhere in a
    part of it. *)
Lemma search_none_sub r pre s post :
  search r (pre ++ s ++ post) = None -> search r s = None.
Proof.
  intros H. apply search_none_intro. intros p a b g -> M.
  eapply (search_none _ _ H (pre ++ p) a (b ++ post)); [|exact M].
  now rewrite !append_assoc.
Qed.

End ReFacts.

(* ================================================================== *)
(** * Facts on GitURL *)

Module GitURLFacts.
Import Str StrFacts Re ReFacts GitURL.

Ltac inv_matches :=
  repeat match goal with
         | H : matches (Cat _ _) _ _ _ |- _ => inversion H; clear H; subst
         | H : matches (Named _ _) _ _ _ |- _ => inversion H; clear H; subst
         | H : matches (Lit _) _ _ _ |- _ => inversion H; clear H; subst
         | H : matches (Star _) _ _ _ |- _ => inversion H; clear H; subst
         | H : matches (Plus _) _ _ _ |- _ => inversion H; clear H; subst
         | H : matches (Opt _) _ _ _ |- _ => inversion H; clear H; subst
         end.

(** A valid host: a non-empty run of [[a-z0-9_.-]]. *)
Definition is_host (h : string) : Prop := all hostchar h = true /\ h <> "".

(** A valid path: anything without a newline, then [.git]. *)
Definition is_path (p : string) : Prop :=
  exists d, p = d ++ ".git" /\ all dot d = true.

Ltac solve_host_path :=
  repeat split;
  try match goal with
      | |- all _ (String _ _) = true =>
          simpl; apply andb_true_iff; split; assumption
      | |- String _ _ <> "" => discriminate
      | |- is_path _ => eexists; split; [reflexivity | assumption]
      end.

Lemma ssh_match_inv a g :
  matches pattern_ssh a [] g ->
  exists u h p,
    a = u ++ h ++ ":" ++ p /\
    g = [("path", p); ("host", h); ("user", u)] /\
    is_host h /\ is_path p.
Proof.
  unfold pattern_ssh, re_user, re_host, re_path. intros M. inv_matches.
  do 3 eexists. split; [reflexivity|]. split; [reflexivity|].
  solve_host_path.
Qed.

Lemma url_match_inv a g :
  matches pattern_url a [] g ->
  exists w t h q p,
    a = w ++ "://" ++ t ++ h ++ q ++ "/" ++ p /\
    field "host" g = h /\ field "path" g = p /\
    is_host h /\ is_path p.
Proof.
  unfold pattern_url, re_transport, re_user, re_host, re_port, re_path.
  intros M. inv_matches; do 5 eexists;
    (split;
     [|split; [unfold field; simpl; reflexivity
              |split; [unfold field; simpl; reflexivity|solve_host_path]]];
     [etransitivity; [apply append_assoc|reflexivity]]).
Qed.

(** What [parts] returns: a host and a path that are valid, and where the
    url has them. *)
Lemma parts_ssh_inv url p :
  parts url = Some p -> syntax p = SyntaxSsh ->
  search pattern_url url = None /\
  is_host (host p) /\ is_path (path p) /\
  exists pre post, url = pre ++ (host p ++ ":" ++ path p) ++ post.
Proof.
  unfold parts. simpl. intros H S.
  destruct (search pattern_url url) eqn:E1.
  - inversion H; subst. discriminate.
  - destruct (search pattern_ssh url) eqn:E2; [|discriminate].
    inversion H; subst. clear H S.
    destruct (search_sound _ _ _ E2) as (pre & a & b & -> & M).
    destruct (ssh_match_inv _ _ M) as (u & h & q & -> & -> & Hh & Hq).
    split; [reflexivity|]. split; [exact Hh|]. split; [exact Hq|].
    exists (pre ++ u), b. simpl. now rewrite !append_assoc.
Qed.

Lemma parts_valid url p :
  parts url = Some p -> is_host (host p) /\ is_path (path p).
Proof.
  unfold parts. simpl. intros H.
  destruct (search pattern_url url) eqn:E1.
  - inversion H; subst. clear H.
    destruct (search_sound _ _ _ E1) as (pre & a & b & -> & M).
    destruct (url_match_inv _ _ M) as (w & t & h & q & x & _ & Eh & Ex & Hh & Hx).
    simpl. rewrite Eh, Ex. auto.
  - destruct (search pattern_ssh url) eqn:E2; [|discriminate].
    inversion H; subst. clear H.
    destruct (search_sound _ _ _ E2) as (pre & a & b & -> & M).
    destruct (ssh_match_inv _ _ M) as (u & h & q & -> & -> & Hh & Hq).
    auto.
Qed.

(** The string does not go on with a character of the class. *)
Definition stops (cls : ascii -> bool) (s : string) : Prop :=
  match s with
  | EmptyString => True
  | String c _ => cls c = false
  end.

Lemma stops_longer {A} cls (b : string) (k : string -> option A) :
  stops cls b ->
  forall c b', c <> "" -> b = c ++ b' -> all cls c = true -> k b' = None.
Proof.
  intros Hs c b' Hc -> Hall. destruct c as [|y c]; [now elim Hc|].
  simpl in Hs, Hall. now rewrite Hs in Hall.
Qed.

Section FirstSuccess.
Context {A : Type}.
Implicit Types (K : string -> groupdict -> option A).

(** A greedy class followed by a character outside it takes the whole
    run first. *)
Lemma m_plus_first cls h X (k : string -> option A) x :
  all cls h = true -> h <> "" -> stops cls X ->
  k X = Some x -> m_plus cls (h ++ X) k = Some x.
Proof.
  intros Hall Hne Hs Hk. destruct h as [|c h]; [now elim Hne|].
  simpl in Hall. apply andb_true_iff in Hall. destruct Hall as [Hc Hall].
  simpl. rewrite Hc.
  apply m_star_first; auto. now apply stops_longer.
Qed.

Lemma m_host_first h X g K x :
  is_host h -> stops hostchar X ->
  K X (("host", h) :: g) = Some x ->
  m re_host (h ++ X) g K = Some x.
Proof.
  intros [Hall Hne] Hs Hk. unfold re_host. cbn [m].
  apply m_plus_first; auto. now rewrite consumed_append.
Qed.

Lemma m_transport_first p Y g K x :
  all word p = true -> p <> "" ->
  K Y (("transport", p ++ "://") :: g) = Some x ->
  m re_transport (p ++ "://" ++ Y) g K = Some x.
Proof.
  intros Hall Hne Hk. unfold re_transport. cbn [m].
  apply m_plus_first; auto; [reflexivity|].
  rewrite m_lit_append.
  replace (p ++ "://" ++ Y) with ((p ++ "://") ++ Y)
    by now rewrite append_assoc.
  now rewrite consumed_append.
Qed.

Lemma m_lit_short l s : String.length s < String.length l -> m_lit l s = None.
Proof.
  intros Hlen. destruct (m_lit l s) eqn:E; [|reflexivity].
  apply m_lit_sound in E. subst s. rewrite length_append in Hlen. lia.
Qed.

(** The path at the end of the string: [.*] runs to the end and comes
    back to the last [.git]. *)
Lemma m_path_end p g K x :
  is_path p ->
  K "" (("path", p) :: g) = Some x ->
  m re_path p g K = Some x.
Proof.
  intros (d & -> & Hd) Hk. unfold re_path. cbn [m].
  apply m_star_first; auto.
  - change (m_lit ".git" ".git") with (Some ""). cbv beta iota.
    replace (consumed (d ++ ".git") "") with (d ++ ".git"); [exact Hk|].
    rewrite <- (append_nil_r (d ++ ".git")) at 2.
    now rewrite consumed_append.
  - intros c b' Hc E _. rewrite m_lit_short; [reflexivity|].
    apply (f_equal String.length) in E. rewrite length_append in E.
    destruct c; [now elim Hc|]. simpl in *. lia.
Qed.

(** No user where there is no [@]. *)
Lemma m_user_none Y g K :
  all not_at Y = true -> m re_user Y g K = None.
Proof.
  intros Hall. destruct (m re_user Y g K) eqn:E; [|reflexivity].
  destruct (m_sound _ _ _ _ _ E) as (u & v & g' & -> & M & _).
  unfold re_user in M. inv_matches.
  rewrite !all_append in Hall. simpl in Hall.
  rewrite !andb_false_r in Hall. simpl in Hall.
  rewrite ?andb_false_r in Hall. discriminate.
Qed.
End FirstSuccess.

Lemma hostchar_not_at c : hostchar c = true -> not_at c = true.
Proof.
  unfold not_at. destruct (Ascii.eqb c "@") eqn:E; [|reflexivity].
  apply Ascii.eqb_eq in E. subst c. discriminate.
Qed.

Lemma all_impl (p q : ascii -> bool) s :
  (forall c, p c = true -> q c = true) -> all p s = true -> all q s = true.
Proof.
  intros Hpq. induction s as [|c s IH]; simpl; [reflexivity|].
  intros H. apply andb_true_iff in H. destruct H as [Hc Hs].
  now rewrite (Hpq _ Hc), IH.
Qed.

Lemma search_found r s g : match_here r s = Some g -> search r s = Some g.
Proof. intros H. destruct s; simpl; now rewrite H. Qed.

Lemma search_skip r c s :
  match_here r (String c s) = None -> search r (String c s) = search r s.
Proof. intros H. simpl. now rewrite H. Qed.

(** The user of a url that begins with [git@]. *)
Lemma m_user_git {A} X g (K : string -> groupdict -> option A) :
  m re_user ("git@" ++ X) g K = K X (("user", "git@") :: g).
Proof.
  unfold re_user. cbn [m].
  assert (E : consumed ("git@" ++ X) X = "git@") by apply consumed_append.
  simpl in *. rewrite E.
  destruct (K X (("user", "git@") :: g)); reflexivity.
Qed.

(** The ssh rendering parses back to the host and path it was made of. *)
Lemma parts_ssh_form h p :
  is_host h -> is_path p ->
  search pattern_url (h ++ ":" ++ p) = None ->
  parts ("git@" ++ h ++ ":" ++ p)
  = Some {| syntax := SyntaxSsh; host := h; user := "git@"; port := "";
            path := p; transport := "" |}.
Proof.
  intros Hh Hp Hurl. unfold parts. cbn [SYNTAX_PATTERNS first_match].
  replace (search pattern_url ("git@" ++ h ++ ":" ++ p)) with (@None groupdict)
    by (symmetry; exact Hurl).
  rewrite (search_found _ _ [("path", p); ("host", h); ("user", "git@")]);
    [reflexivity|].
  unfold match_here, pattern_ssh. cbn [m].
  rewrite m_user_git.
  erewrite m_host_first; [reflexivity|exact Hh|reflexivity|].
  cbn [m]. change (m_lit ":" (":" ++ p)) with (Some p). cbv beta iota.
  erewrite m_path_end; [reflexivity|exact Hp|reflexivity].
Qed.

(** The transport rendering parses back to the host and path it was made
    of, when the path has no [@] that could close a user. *)
Lemma parts_url_form proto h p :
  all word proto = true -> proto <> "" ->
  is_host h -> is_path p -> all not_at p = true ->
  parts (proto ++ "://" ++ h ++ "/" ++ p)
  = Some {| syntax := SyntaxUrl; host := h; user := ""; port := "";
            path := p; transport := proto ++ "://" |}.
Proof.
  intros Hw Hne Hh Hp Hat. unfold parts. cbn [SYNTAX_PATTERNS first_match].
  rewrite (search_found _ _
             [("path", p); ("host", h); ("transport", proto ++ "://")]);
    [reflexivity|].
  unfold match_here, pattern_url. cbn [m].
  erewrite m_transport_first; [reflexivity|exact Hw|exact Hne|].
  cbn [m]. rewrite m_user_none.
  2:{ rewrite all_append. destruct Hh as [Hh _].
      rewrite (all_impl _ _ _ hostchar_not_at Hh). simpl. exact Hat. }
  erewrite m_host_first; [reflexivity|exact Hh|reflexivity|].
  cbn [m]. unfold re_port at 1. cbn [m].
  change (m_lit ":" ("/" ++ p)) with (@None string). cbv beta iota.
  change (m_lit "/" ("/" ++ p)) with (Some p). cbv beta iota.
  erewrite m_path_end; [reflexivity|exact Hp|reflexivity].
Qed.

(** Where the url pattern is found, [://] occurs. *)
Lemma search_url_none s :
  contains "://" s = false -> search pattern_url s = None.
Proof.
  intros H. apply search_none_intro. intros pre a b g -> M.
  destruct (url_match_inv _ _ M) as (w & t & h & q & x & -> & _).
  replace (pre ++ (w ++ "://" ++ t ++ h ++ q ++ "/" ++ x) ++ b)
    with ((pre ++ w) ++ "://" ++ ((t ++ h ++ q ++ "/" ++ x) ++ b)) in H
    by now rewrite !append_assoc.
  rewrite contains_intro in H. discriminate.
Qed.

Lemma format_ssh url p :
  parts url = Some p ->
  format url "ssh" = Some ("git@" ++ host p ++ ":" ++ path p).
Proof. intros H. unfold format. now rewrite H. Qed.

Lemma format_transport url p proto :
  parts url = Some p -> proto <> "ssh" ->
  format url proto = Some (proto ++ "://" ++ host p ++ "/" ++ path p).
Proof.
  intros H Hp. unfold format. rewrite H.
  apply String.eqb_neq in Hp. rewrite Hp. cbv zeta.
  now rewrite append_assoc.
Qed.

End GitURLFacts.

(* ================================================================== *)
(** * The URL transform *)

Module URLTransform.
Import Str StrFacts Re ReFacts GitURL GitURLFacts.

(** Formatting twice with the same protocol gives what formatting once
    gives. *)
Definition idempotent_at (url protocol : string) : Prop :=
  forall u1, format url protocol = Some u1 -> format u1 protocol = Some u1.

(** C7. [format("https")] of the ssh-syntax url [git@host:group/name.git] is
    [https://host/group/name.git] and [format("ssh")] of the url-syntax
    [https://host/group/name.git] is [git@host:group/name.git]; a user and a
    port in the source url are dropped by both forms; in general the ssh
    form is [git@] + host + [:] + path and the transport form is protocol +
    [://] + host + [/] + path. *)
Theorem format_rerenders :
  format "git@host:group/name.git" "https" = Some "https://host/group/name.git"
  /\ format "https://host/group/name.git" "ssh" = Some "git@host:group/name.git"
  /\ format "https://user@host:8080/group/name.git" "ssh"
     = Some "git@host:group/name.git"
  /\ format "ssh://user@host:8080/group/name.git" "https"
     = Some "https://host/group/name.git"
  /\ (forall url p, parts url = Some p ->
        format url "ssh" = Some ("git@" ++ host p ++ ":" ++ path p))
  /\ (forall url p protocol, parts url = Some p -> protocol <> "ssh" ->
        format url protocol
        = Some (protocol ++ "://" ++ host p ++ "/" ++ path p)).
Proof.
  repeat split; try reflexivity.
  - apply format_ssh.
  - apply format_transport.
Qed.

Lemma format_rerenders_witness :
  format "https://user@gitlab.kitware.com:22/computer-vision/netharn.git" "ssh"
  = Some "git@gitlab.kitware.com:computer-vision/netharn.git"
  /\ format "git@gitlab.kitware.com:computer-vision/netharn.git" "http"
     = Some "http://gitlab.kitware.com/computer-vision/netharn.git".
Proof.
  split.
  - exact (proj1 (proj2 (proj2 (proj2 (proj2 format_rerenders))))
             "https://user@gitlab.kitware.com:22/computer-vision/netharn.git"
             _ eq_refl).
  - refine (proj2 (proj2 (proj2 (proj2 (proj2 format_rerenders))))
              "git@gitlab.kitware.com:computer-vision/netharn.git"
              _ "http" eq_refl _).
    discriminate.
Defined.

(** C10. A url whose host has an uppercase letter matches neither pattern:
    [parts] raises on [git@Host.com:path.git] and on
    [https://Host.com/path.git]; and whenever [parts] succeeds the host is a
    non-empty string of lowercase letters, digits, dots, underscores and
    hyphens. *)
Theorem parts_rejects_uppercase_host :
  parts "git@Host.com:path.git" = None
  /\ parts "https://Host.com/path.git" = None
  /\ (forall url p, parts url = Some p ->
        all hostchar (host p) = true /\ host p <> "").
Proof.
  repeat split; try reflexivity; destruct (parts_valid _ _ H) as [[? ?] _]; auto.
Qed.

Lemma parts_rejects_uppercase_host_witness :
  all hostchar "github.com" = true /\ "github.com" <> "".
Proof.
  exact (proj2 (proj2 parts_rejects_uppercase_host)
           "https://github.com/Erotemic/ubelt.git" _ eq_refl).
Defined.

(** C8, as stated, fails: formatting [git@a.com:x@b.com/y.git] as https
    gives [https://a.com/x@b.com/y.git], whose [a.com/x@] then parses as a
    user, so that formatting again gives [https://b.com/y.git]. *)
Lemma format_not_idempotent :
  ~ idempotent_at "git@a.com:x@b.com/y.git" "https".
Proof.
  intros H. specialize (H "https://a.com/x@b.com/y.git" eq_refl).
  vm_compute in H. discriminate.
Qed.

(** C8, amended. A url of ssh syntax rendered with [format("ssh")] parses
    again, to the same host and path.  Formatting as ssh is idempotent on
    urls of ssh syntax and on urls whose host, colon and path hold no
    [://]; formatting with a transport protocol (a non-empty word other than
    ssh) is idempotent on urls whose path holds no [@]. *)
Theorem format_roundtrip_idempotent :
  (forall url p,
      parts url = Some p -> syntax p = SyntaxSsh ->
      exists u' p',
        format url "ssh" = Some u' /\ parts u' = Some p' /\
        syntax p' = SyntaxSsh /\ host p' = host p /\ path p' = path p)
  /\ (forall url p,
        parts url = Some p ->
        syntax p = SyntaxSsh \/ contains "://" (host p ++ ":" ++ path p) = false ->
        idempotent_at url "ssh")
  /\ (forall url p protocol,
        parts url = Some p ->
        protocol <> "ssh" -> protocol <> "" -> all word protocol = true ->
        all not_at (path p) = true ->
        idempotent_at url protocol).
Proof.
  assert (Hssh : forall url p,
             parts url = Some p ->
             syntax p = SyntaxSsh \/ contains "://" (host p ++ ":" ++ path p) = false ->
             parts ("git@" ++ host p ++ ":" ++ path p)
             = Some {| syntax := SyntaxSsh; host := host p; user := "git@";
                       port := ""; path := path p; transport := "" |}).
  { intros url p Hp Hs. destruct (parts_valid _ _ Hp) as [Hh Hq].
    apply parts_ssh_form; auto. destruct Hs as [Hs|Hs].
    - destruct (parts_ssh_inv _ _ Hp Hs) as (Hn & _ & _ & pre & post & E).
      rewrite E in Hn. now apply search_none_sub in Hn.
    - now apply search_url_none. }
  split; [|split].
  - intros url p Hp Hs. do 2 eexists.
    split; [apply (format_ssh _ _ Hp)|].
    split; [apply (Hssh _ _ Hp); now left|]. auto.
  - intros url p Hp Hs u1 H1.
    rewrite (format_ssh _ _ Hp) in H1. inversion H1; subst u1.
    exact (format_ssh _ _ (Hssh _ _ Hp Hs)).
  - intros url p protocol Hp Hne1 Hne2 Hw Hat u1 H1.
    rewrite (format_transport _ _ _ Hp Hne1) in H1. inversion H1; subst u1.
    destruct (parts_valid _ _ Hp) as [Hh Hq].
    exact (format_transport _ _ _
             (parts_url_form _ _ _ Hw Hne2 Hh Hq Hat) Hne1).
Qed.

Lemma format_roundtrip_idempotent_witness :
  (exists u' p',
      format "git@gitlab.kitware.com:computer-vision/netharn.git" "ssh" = Some u'
      /\ parts u' = Some p' /\ syntax p' = SyntaxSsh
      /\ host p' = "gitlab.kitware.com"
      /\ path p' = "computer-vision/netharn.git")
  /\ idempotent_at "https://gitlab.kitware.com/computer-vision/netharn.git" "ssh"
  /\ idempotent_at "git@gitlab.kitware.com:computer-vision/netharn.git" "https".
Proof.
  split; [|split].
  - exact (proj1 format_roundtrip_idempotent
             "git@gitlab.kitware.com:computer-vision/netharn.git" _
             eq_refl eq_refl).
  - exact (proj1 (proj2 format_roundtrip_idempotent)
             "https://gitlab.kitware.com/computer-vision/netharn.git" _
             eq_refl (or_intror eq_refl)).
  - refine (proj2 (proj2 format_roundtrip_idempotent)
              "git@gitlab.kitware.com:computer-vision/netharn.git" _ "https"
              eq_refl _ _ eq_refl eq_refl); discriminate.
Defined.

End URLTransform.

(* ================================================================== *)
(** * The repository descriptor *)

Module Descriptor.
Import Py Repo.

(** The invariant of the data model: [remotes] is not empty, [remote] is one
    of its keys, and [url] is [remotes[remote]]. *)
Definition resolves (r : Repo) : Prop :=
  remotes r <> [] /\ In (remote r) (keys (remotes r)).

Definition invariant (r : Repo) : Prop :=
  resolves r /\ dict_get (remote r) (remotes r) = Some (url r).

Lemma dict_get_In {V} k (d : dict V) v :
  dict_get k d = Some v -> d <> [] /\ In k (keys d).
Proof.
  induction d as [|[k' v'] d IH]; simpl; [discriminate|].
  intros H. split; [discriminate|].
  destruct (String.eqb k' k) eqn:E.
  - apply String.eqb_eq in E. now left.
  - right. now apply IH.
Qed.

Lemma dict_get_set_same {V} k (v : V) d : dict_get k (dict_set k v d) = Some v.
Proof.
  induction d as [|[k' v'] d IH]; simpl.
  - now rewrite String.eqb_refl.
  - destruct (String.eqb k' k) eqn:E; simpl; rewrite E; auto.
Qed.

Lemma dict_get_set_other {V} k k' (v : V) d :
  k <> k' -> dict_get k' (dict_set k v d) = dict_get k' d.
Proof.
  intros Hne. induction d as [|[k0 v0] d IH]; simpl.
  - apply String.eqb_neq in Hne. now rewrite Hne.
  - destruct (String.eqb k0 k) eqn:E; simpl.
    + apply String.eqb_eq in E. subst k0.
      apply String.eqb_neq in Hne. now rewrite Hne.
    + now rewrite IH.
Qed.

Lemma keys_dict_set {V} k (v v' : V) d :
  dict_get k d = Some v -> keys (dict_set k v' d) = keys d.
Proof.
  induction d as [|[k0 v0] d IH]; simpl; [discriminate|].
  destruct (String.eqb k0 k) eqn:E; simpl; [reflexivity|].
  intros H. now rewrite (IH H).
Qed.

(** The loop of [set_protocol] never changes the keys, the active remote or
    the url, whether it ends or raises. *)
Lemma set_protocol_loop_frame protocol ks : forall r res r',
  set_protocol_loop protocol ks r = (res, r') ->
  keys (remotes r') = keys (remotes r) /\ remote r' = remote r /\ url r' = url r.
Proof.
  induction ks as [|key ks IH]; intros r res r' H; simpl in H.
  - inversion H; subst. auto.
  - destruct (dict_get key (remotes r)) as [v|] eqn:Eg;
      [|inversion H; subst; auto].
    destruct (GitURL.format v protocol) as [v'|];
      [|inversion H; subst; auto].
    destruct (IH _ _ _ H) as (Hk & Hr & Hu). simpl in *.
    rewrite Hk, Hr, Hu. rewrite (keys_dict_set _ _ _ _ Eg). auto.
Qed.

(** When the loop ends, each key it went through holds its url
    re-rendered, and the others are as before. *)
Lemma set_protocol_loop_get protocol ks : forall r r' k,
  NoDup ks ->
  set_protocol_loop protocol ks r = (Ok tt, r') ->
  (In k ks ->
   exists v v', dict_get k (remotes r) = Some v /\
                GitURL.format v protocol = Some v' /\
                dict_get k (remotes r') = Some v')
  /\ (~ In k ks -> dict_get k (remotes r') = dict_get k (remotes r)).
Proof.
  induction ks as [|key ks IH]; intros r r' k Hnd H; simpl in H.
  - inversion H; subst. split; [intros []|auto].
  - inversion Hnd as [|? ? Hnotin Hnd']; subst.
    destruct (dict_get key (remotes r)) as [v|] eqn:Eg; [|discriminate].
    destruct (GitURL.format v protocol) as [v'|] eqn:Ef; [|discriminate].
    destruct (IH _ _ k Hnd' H) as [Hin Hout]. simpl in Hin, Hout.
    destruct (string_dec key k) as [->|Hneq].
    + split; [intros _|intros Hn; elim Hn; now left].
      exists v, v'. repeat split; auto.
      rewrite (Hout Hnotin). apply dict_get_set_same.
    + split.
      * intros [->|Hk]; [now elim Hneq|].
        destruct (Hin Hk) as (w & w' & Hw & Hf & Hg).
        rewrite (dict_get_set_other _ _ _ _ Hneq) in Hw. eauto.
      * intros Hn. rewrite Hout by (intros Hk; apply Hn; now right).
        now apply dict_get_set_other.
Qed.

Lemma init_invariant expandpath w kw r m :
  init expandpath w kw = Ok (r, m) -> invariant r.
Proof.
  unfold init. intros H.
  destruct (resolve_remote w kw) as [[d k|l g]|e]; try discriminate.
  destruct (dict_get k d) as [u|] eqn:Eg; [|discriminate].
  destruct (match kw_dpath kw with
            | Some p => Ok p
            | None => match kw_code_dpath kw with
                      | Some c => Ok (path_join c _)
                      | None => Raise TypeError
                      end
            end) as [p|e]; [|discriminate].
  destruct (kw_unknown kw); [|discriminate].
  inversion H; subst; clear H. unfold invariant, resolves. simpl.
  split; [exact (dict_get_In _ _ _ Eg)|exact Eg].
Qed.

Lemma set_protocol_resolves protocol r res r' :
  resolves r -> set_protocol protocol r = (res, r') ->
  resolves r' /\ keys (remotes r') = keys (remotes r) /\ remote r' = remote r.
Proof.
  unfold set_protocol, resolves. intros [Hne Hin] H.
  assert (E : keys (remotes r') = keys (remotes r) /\ remote r' = remote r).
  { destruct (GitURL.format (url r) protocol); [|inversion H; subst; auto].
    destruct (set_protocol_loop_frame _ _ _ _ _ H) as (Hk & Hr & _). auto. }
  destruct E as [Hk Hr]. rewrite Hk, Hr. repeat split; auto.
  intros E. rewrite E in Hk. destruct (remotes r); [now elim Hne|discriminate].
Qed.

Lemma set_protocol_invariant protocol r r' :
  NoDup (keys (remotes r)) -> invariant r ->
  set_protocol protocol r = (Ok tt, r') -> invariant r'.
Proof.
  intros Hnd [Hres Hurl] H.
  destruct (set_protocol_resolves _ _ _ _ Hres H) as (Hres' & Hk & Hr).
  split; [exact Hres'|].
  unfold set_protocol in H.
  destruct (GitURL.format (url r) protocol) as [u|] eqn:Ef; [|discriminate].
  destruct (set_protocol_loop_frame _ _ _ _ _ H) as (_ & _ & Hu).
  destruct (set_protocol_loop_get _ _ _ _ (remote r) Hnd H) as [Hin _].
  destruct Hin as (v & v' & Hv & Hf & Hg); [apply Hres|].
  simpl in Hv, Hu. rewrite Hurl in Hv. inversion Hv; subst v.
  rewrite Hr, Hg, Hu. congruence.
Qed.

(** A world with no working copy anywhere. *)
Definition nowhere : Git.World :=
  fun _ =>
    {| Git.path_exists := false; Git.is_git_repo := false;
       Git.is_dirty := false; Git.remotes := []; Git.active_branch := None;
       Git.tags := []; Git.head_hexsha := "" |}.

(** A descriptor with two remotes of different syntax. *)
Definition two_remotes_kwargs : Kwargs :=
  {| kw_name := None;
     kw_dpath := None;
     kw_code_dpath := Some "/code";
     kw_remotes := Some [("github", "https://github.com/Erotemic/ubelt.git");
                         ("fakemirror", "git@gitlab.com:Erotemic/ubelt.git")];
     kw_remote := Some "github";
     kw_branch := Given (Some "master");
     kw_verbose := NoParam;
     kw_unknown := [] |}.

Definition two_remotes_repo : Repo :=
  {| name := "ubelt";
     dpath := "/code/ubelt";
     code_dpath := Some "/code";
     remotes := [("github", "https://github.com/Erotemic/ubelt.git");
                 ("fakemirror", "git@gitlab.com:Erotemic/ubelt.git")];
     remote := "github";
     branch := Some "master";
     url := "https://github.com/Erotemic/ubelt.git";
     pkg_dpath := "/code/ubelt/ubelt" |}.

(** A descriptor with a mirror given by a local path, which is no url of
    either syntax, declared before the active remote. *)
Definition mirrored_kwargs : Kwargs :=
  {| kw_name := None;
     kw_dpath := None;
     kw_code_dpath := Some "/code";
     kw_remotes := Some [("mirror", "/srv/git/proj.git");
                         ("origin", "git@host:group/proj.git")];
     kw_remote := Some "origin";
     kw_branch := NoParam;
     kw_verbose := NoParam;
     kw_unknown := [] |}.

Definition mirrored_repo : Repo :=
  {| name := "proj";
     dpath := "/code/proj";
     code_dpath := Some "/code";
     remotes := [("mirror", "/srv/git/proj.git");
                 ("origin", "git@host:group/proj.git")];
     remote := "origin";
     branch := Some "master";
     url := "git@host:group/proj.git";
     pkg_dpath := "/code/proj/proj" |}.

(** C9, as stated, fails: [set_protocol("https")] on a successfully
    constructed descriptor rewrites [url], then raises on the mirror, whose
    url does not parse, before it reaches [remotes["origin"]]: the object is
    left with [url = https://host/group/proj.git] and
    [remotes["origin"] = git@host:group/proj.git]. *)
Lemma set_protocol_raise_breaks_url :
  init (fun p => p) nowhere mirrored_kwargs
  = Ok (mirrored_repo,
        {| logged_lines := []; logged_cmds := [];
           pygit_cached := false; verbose := 3 |})
  /\ invariant mirrored_repo
  /\ exists e r',
      set_protocol "https" mirrored_repo = (Raise e, r')
      /\ url r' = "https://host/group/proj.git"
      /\ dict_get (remote r') (remotes r') = Some "git@host:group/proj.git"
      /\ ~ invariant r'.
Proof.
  split; [reflexivity|]. split.
  - repeat split; [discriminate|simpl; auto].
  - do 2 eexists. split; [vm_compute; reflexivity|].
    split; [reflexivity|]. split; [reflexivity|].
    intros [_ H]. vm_compute in H. discriminate.
Qed.

(** C9, amended. Successful construction establishes the invariant;
    [set_protocol] that returns normally preserves it; and however
    [set_protocol] ends, [remotes] keeps its keys, so it stays non-empty and
    the active remote stays one of its keys. *)
Theorem descriptor_invariant :
  (forall expandpath w kw r m,
      init expandpath w kw = Ok (r, m) -> invariant r)
  /\ (forall protocol r r',
        NoDup (keys (remotes r)) -> invariant r ->
        set_protocol protocol r = (Ok tt, r') -> invariant r')
  /\ (forall protocol r res r',
        resolves r -> set_protocol protocol r = (res, r') ->
        resolves r' /\ keys (remotes r') = keys (remotes r)
        /\ remote r' = remote r).
Proof.
  split; [|split].
  - exact init_invariant.
  - exact set_protocol_invariant.
  - exact set_protocol_resolves.
Qed.

Lemma descriptor_invariant_witness :
  invariant two_remotes_repo
  /\ invariant
       {| name := "ubelt";
          dpath := "/code/ubelt";
          code_dpath := Some "/code";
          remotes := [("github", "git@github.com:Erotemic/ubelt.git");
                      ("fakemirror", "git@gitlab.com:Erotemic/ubelt.git")];
          remote := "github";
          branch := Some "master";
          url := "git@github.com:Erotemic/ubelt.git";
          pkg_dpath := "/code/ubelt/ubelt" |}
  /\ resolves (snd (set_protocol "https" mirrored_repo)).
Proof.
  assert (Hinv : invariant two_remotes_repo).
  { exact (proj1 descriptor_invariant (fun p => p) nowhere
             two_remotes_kwargs _ _ eq_refl). }
  split; [exact Hinv|]. split.
  - refine (proj1 (proj2 descriptor_invariant) "ssh" two_remotes_repo _
              _ Hinv eq_refl).
    simpl. repeat constructor; simpl; intuition discriminate.
  - refine (proj1 (proj2 (proj2 descriptor_invariant) "https" mirrored_repo
                     _ _ _ (surjective_pairing _))).
    split; [discriminate|simpl; auto].
Defined.

End Descriptor.

(* ================================================================== *)
(** * Reasoning on operations *)

Module RepoFacts.
Import Py Repo.
Local Open Scope py_scope.

(** [spec I m Q E]: from a state where [I] holds, [m] ends in a state where
    [I] holds, with a value in [Q] or an exception in [E]. *)
Definition spec {A} (I : State -> Prop) (m : M A)
           (Q : A -> Prop) (E : Exc -> Prop) : Prop :=
  forall s, I s ->
    match m s with
    | (Ok a, s') => I s' /\ Q a
    | (Raise e, s') => I s' /\ E e
    end.

Definition any {A} : A -> Prop := fun _ => True.
Definition none {A} : A -> Prop := fun _ => False.

(** What an operation leaves alone when it runs no command: the world and
    the logged commands; and, when [opened], that gitpython has the
    repository or can open it. *)
Definition frame (dpath : string) (w0 : Git.World)
           (c0 : list (string * option string)) (opened : bool)
           (s : State) : Prop :=
  world s = w0 /\ logged_cmds (mem s) = c0 /\
  (opened = true ->
   pygit_cached (mem s) = true \/
   (Git.path_exists (w0 dpath) = true /\ Git.is_git_repo (w0 dpath) = true)).

Section Rules.
Context {A B : Type}.
Variable I : State -> Prop.

Lemma spec_pure (a : A) (Q : A -> Prop) E : Q a -> spec I (pure a) Q E.
Proof. intros H s Hs. simpl. auto. Qed.

Lemma spec_raise e (Q : A -> Prop) (E : Exc -> Prop) :
  E e -> spec I (raise e) Q E.
Proof. intros H s Hs. simpl. auto. Qed.

Lemma spec_bind (m : M A) (f : A -> M B) Q1 Q E :
  spec I m Q1 E -> (forall a, Q1 a -> spec I (f a) Q E) ->
  spec I (bind m f) Q E.
Proof.
  intros Hm Hf s Hs. unfold bind. specialize (Hm s Hs).
  destruct (m s) as [[a|e] s']; [|exact Hm].
  destruct Hm as [Hs' Ha]. exact (Hf a Ha s' Hs').
Qed.

Lemma spec_try_else (body : M A) handler (orelse : A -> M B) Q1 E1 Q E :
  spec I body Q1 E1 ->
  (forall e, E1 e ->
     match handler e with
     | Some h => spec I h Q E
     | None => E e
     end) ->
  (forall a, Q1 a -> spec I (orelse a) Q E) ->
  spec I (try_else body handler orelse) Q E.
Proof.
  intros Hb Hh Ho s Hs. unfold try_else. specialize (Hb s Hs).
  destruct (body s) as [[a|e] s']; destruct Hb as [Hs' Hr].
  - exact (Ho a Hr s' Hs').
  - specialize (Hh e Hr). destruct (handler e) as [h|].
    + exact (Hh s' Hs').
    + auto.
Qed.

Lemma spec_conseq (m : M A) (Q Q' : A -> Prop) (E E' : Exc -> Prop) :
  spec I m Q E -> (forall a, Q a -> Q' a) -> (forall e, E e -> E' e) ->
  spec I m Q' E'.
Proof.
  intros H HQ HE s Hs. specialize (H s Hs).
  destruct (m s) as [[a|e] s']; destruct H; auto.
Qed.
End Rules.

Lemma spec_try {A} I (body : M A) handler Q E1 E :
  spec I body Q E1 ->
  (forall e, E1 e ->
     match handler e with
     | Some h => spec I h Q E
     | None => E e
     end) ->
  spec I (try_ body handler) Q E.
Proof.
  intros Hb Hh. unfold try_. eapply spec_try_else; eauto.
  intros a Ha. now apply spec_pure.
Qed.

Lemma spec_seq {A} I (m : M unit) (k : M A) Q E :
  spec I m any E -> spec I k Q E -> spec I (bind m (fun _ => k)) Q E.
Proof. intros Hm Hk. eapply spec_bind; eauto. Qed.

Lemma spec_when I b (m : M unit) Q E :
  Q tt -> (b = true -> spec I m Q E) -> spec I (when b m) Q E.
Proof.
  intros HQ Hm. destruct b; simpl; [now apply Hm|now apply spec_pure].
Qed.

Lemma spec_for_each {X} I (xs : list X) (body : X -> M unit) E :
  (forall x, In x xs -> spec I (body x) any E) ->
  spec I (for_each xs body) any E.
Proof.
  induction xs as [|x xs IH]; intros H; simpl.
  - now apply spec_pure.
  - apply spec_seq; [apply H; now left|]. apply IH. intros y Hy. apply H. now right.
Qed.

(** ** The primitives, under an invariant that fixes the world *)

(** The states a message or the cached handle lead to. *)
Definition with_lines (l : list (string * string)) (s : State) : State :=
  {| mem := {| logged_lines := l;
               logged_cmds := logged_cmds (mem s);
               pygit_cached := pygit_cached (mem s);
               verbose := verbose (mem s) |};
     world := world s |}.

Definition with_cache (s : State) : State :=
  {| mem := {| logged_lines := logged_lines (mem s);
               logged_cmds := logged_cmds (mem s);
               pygit_cached := true;
               verbose := verbose (mem s) |};
     world := world s |}.

(** After gitpython has opened the repository: the world, the logged
    commands, and the cached handle. *)
Definition settled (w0 : Git.World) (c0 : list (string * option string))
           (s : State) : Prop :=
  world s = w0 /\ logged_cmds (mem s) = c0 /\ pygit_cached (mem s) = true.

Section Primitives.
Variable repo : Repo.
Variable w0 : Git.World.
Variable I : State -> Prop.
Hypothesis I_world : forall s, I s -> world s = w0.
Hypothesis I_lines : forall l s, I s -> I (with_lines l s).
Hypothesis I_cache : forall s, I s -> I (with_cache s).
Hypothesis I_opens : forall s, I s ->
  pygit_cached (mem s) = true \/
  (Git.path_exists (w0 (dpath repo)) = true /\
   Git.is_git_repo (w0 (dpath repo)) = true).

Lemma spec_get_mem (Q : Mem -> Prop) E :
  (forall m, Q m) -> spec I get_mem Q E.
Proof. intros H s Hs. simpl. auto. Qed.

Lemma spec_get_world (Q : Git.World -> Prop) E :
  Q w0 -> spec I get_world Q E.
Proof.
  intros H s Hs. simpl. split; [exact Hs|]. now rewrite (I_world _ Hs).
Qed.

Lemma spec_debug msg (Q : unit -> Prop) E : Q tt -> spec I (debug msg) Q E.
Proof. intros H s Hs. simpl. split; [|exact H]. now apply I_lines. Qed.

Lemma spec_info msg (Q : unit -> Prop) E : Q tt -> spec I (info msg) Q E.
Proof. intros H s Hs. simpl. split; [|exact H]. now apply I_lines. Qed.

Lemma spec_exists_dpath (Q : bool -> Prop) E :
  Q (Git.path_exists (w0 (dpath repo))) -> spec I (exists_dpath repo) Q E.
Proof.
  intros H. unfold exists_dpath.
  eapply spec_bind; [apply (spec_get_world (fun w => w = w0)); reflexivity|].
  intros w ->. now apply spec_pure.
Qed.

(** gitpython reads the working tree of the world. *)
Lemma spec_pygit (Q : Git.WorkTree -> Prop) (E : Exc -> Prop) :
  Q (w0 (dpath repo)) -> spec I (pygit repo) Q E.
Proof.
  intros HQ s Hs. unfold pygit, bind, get_mem, get_world.
  simpl. rewrite (I_world _ Hs).
  destruct (pygit_cached (mem s)) eqn:Ec; simpl.
  - split; auto.
  - destruct (I_opens _ Hs) as [Hcached|[He Hg]]; [congruence|].
    rewrite He, Hg. simpl. split; [now apply I_cache|exact HQ].
Qed.

Lemma spec_pygit_remote n (Q : string -> Prop) (E : Exc -> Prop) :
  (forall r, Git.find_remote n (Git.remotes (w0 (dpath repo))) = Some r ->
             Q (Git.name r)) ->
  (Git.find_remote n (Git.remotes (w0 (dpath repo))) = None -> E IndexError) ->
  spec I (pygit_remote repo n) Q E.
Proof.
  intros HQ HN. unfold pygit_remote.
  eapply spec_bind; [apply (spec_pygit (fun g => g = w0 (dpath repo))); auto|].
  intros g ->.
  destruct (Git.find_remote n (Git.remotes (w0 (dpath repo)))) as [r|];
    [apply spec_pure|apply spec_raise]; auto.
Qed.

Lemma spec_remote_read {X} h (f : Git.Remote -> X) dflt (Q : X -> Prop) E :
  Q (match Git.find_remote h (Git.remotes (w0 (dpath repo))) with
     | Some r => f r
     | None => dflt
     end) ->
  spec I (remote_read repo h f dflt) Q E.
Proof.
  intros HQ. unfold remote_read.
  eapply spec_bind; [apply (spec_pygit (fun g => g = w0 (dpath repo))); auto|].
  intros g ->.
  destruct (Git.find_remote h (Git.remotes (w0 (dpath repo))));
    now apply spec_pure.
Qed.

End Primitives.

(** ** Operations under an invariant that logging and caching keep *)

(** The states a command leads to: one more logged command, then any
    world. *)
Definition with_cmd (c : string * option string) (s : State) : State :=
  {| mem := {| logged_lines := logged_lines (mem s);
               logged_cmds := logged_cmds (mem s) ++ [c];
               pygit_cached := pygit_cached (mem s);
               verbose := verbose (mem s) |};
     world := world s |}.

Definition with_world (w : Git.World) (s : State) : State :=
  {| mem := mem s; world := w |}.

(** The logged commands go on from [c0]. *)
Definition extends (c0 : list (string * option string)) (s : State) : Prop :=
  exists rest, logged_cmds (mem s) = (c0 ++ rest)%list.

Section Quiet.
Variable ub_cmd : string -> option string -> Git.World -> CmdInfo * Git.World.
Variable repo : Repo.
Variable I : State -> Prop.
Hypothesis I_lines : forall l s, I s -> I (with_lines l s).
Hypothesis I_cache : forall s, I s -> I (with_cache s).
Variable allowed : string * option string -> Prop.
Hypothesis I_cmd : forall c s, allowed c -> I s -> I (with_cmd c s).
Hypothesis allowed_dpath : forall command, allowed (command, Some (dpath repo)).
Hypothesis allowed_code_dpath : forall command, allowed (command, code_dpath repo).
Hypothesis I_world : forall w s, I s -> I (with_world w s).

(** [quiet m]: [m] keeps the invariant, whether it returns or raises. *)
Definition quiet {A} (m : M A) : Prop := spec I m any any.

Lemma q_pure {A} (a : A) : quiet (pure a).
Proof. now apply spec_pure. Qed.

Lemma q_raise {A} e : quiet (@raise A e).
Proof. now apply spec_raise. Qed.

Lemma q_bind {A B} (m : M A) (f : A -> M B) :
  quiet m -> (forall a, quiet (f a)) -> quiet (bind m f).
Proof.
  intros Hm Hf. apply (spec_bind _ _ _ any); [exact Hm|intros a _; apply Hf].
Qed.

Lemma q_try_else {A B} (body : M A) handler (orelse : A -> M B) :
  quiet body -> (forall e h, handler e = Some h -> quiet h) ->
  (forall a, quiet (orelse a)) ->
  quiet (try_else body handler orelse).
Proof.
  intros Hb Hh Ho. apply (spec_try_else _ _ _ _ any any); [exact Hb| |].
  - intros e _. destruct (handler e) eqn:E; [exact (Hh _ _ E)|exact Logic.I].
  - intros a _. apply Ho.
Qed.

Lemma q_when b (m : M unit) : quiet m -> quiet (when b m).
Proof. intros H. destruct b; [exact H|apply q_pure]. Qed.

Lemma q_for_each {X} (xs : list X) (body : X -> M unit) :
  (forall x, quiet (body x)) -> quiet (for_each xs body).
Proof. intros H. apply spec_for_each. intros x _. apply H. Qed.

Lemma q_get_mem : quiet get_mem.
Proof. intros s Hs. simpl. split; [exact Hs|exact Logic.I]. Qed.

Lemma q_get_world : quiet get_world.
Proof. intros s Hs. simpl. split; [exact Hs|exact Logic.I]. Qed.

Lemma q_debug msg : quiet (debug msg).
Proof. intros s Hs. simpl. split; [|exact Logic.I]. now apply I_lines. Qed.

Lemma q_info msg : quiet (info msg).
Proof. intros s Hs. simpl. split; [|exact Logic.I]. now apply I_lines. Qed.

Lemma q_exists_dpath : quiet (exists_dpath repo).
Proof. intros s Hs. simpl. split; [exact Hs|exact Logic.I]. Qed.

Lemma q_pygit : quiet (pygit repo).
Proof.
  intros s Hs. unfold pygit, bind, get_mem, get_world. simpl.
  destruct (pygit_cached (mem s)); simpl; [split; [exact Hs|exact Logic.I]|].
  destruct (Git.path_exists (world s (dpath repo))); simpl;
    [|split; [exact Hs|exact Logic.I]].
  destruct (Git.is_git_repo (world s (dpath repo))); simpl;
    [|split; [exact Hs|exact Logic.I]].
  split; [|exact Logic.I]. now apply I_cache.
Qed.

Lemma q_pygit_remote n : quiet (pygit_remote repo n).
Proof.
  unfold pygit_remote. apply q_bind; [apply q_pygit|intros g].
  destruct (Git.find_remote n (Git.remotes g)); [apply q_pure|apply q_raise].
Qed.

Lemma q_remote_read {X} h (f : Git.Remote -> X) dflt :
  quiet (remote_read repo h f dflt).
Proof.
  unfold remote_read. apply q_bind; [apply q_pygit|intros g].
  destruct (Git.find_remote h (Git.remotes g)); apply q_pure.
Qed.

(** A command keeps an invariant that commands keep. *)
Lemma q_log_cmd command cwd :
  allowed (command, cwd) -> quiet (log_cmd command cwd).
Proof. intros Ha s Hs. simpl. split; [|exact Logic.I]. now apply I_cmd. Qed.

Lemma q_run_ub_cmd command cwd : quiet (run_ub_cmd ub_cmd command cwd).
Proof.
  intros s Hs. unfold run_ub_cmd.
  destruct (ub_cmd command cwd (world s)) as [i w']. simpl.
  split; [|exact Logic.I]. now apply (I_world w').
Qed.

Lemma q_cmd_in command cwd verbose_ :
  allowed (command, match cwd with
                    | NoParam => Some (dpath repo)
                    | Given c => c
                    end) ->
  quiet (_cmd ub_cmd repo command cwd verbose_).
Proof.
  intros Ha. unfold _cmd.
  apply q_bind; [apply q_get_mem|intros m].
  apply q_bind; [now apply q_log_cmd|intros _].
  apply q_bind; [apply q_debug|intros _].
  apply q_bind; [apply q_run_ub_cmd|intros i].
  apply q_bind.
  - apply q_when. apply q_bind; [|intros _]; apply q_when;
      [apply q_info|apply q_debug].
  - intros _. destruct (negb (ret i =? 0)%Z); [apply q_raise|apply q_pure].
Qed.

Lemma q_cmd command verbose_ :
  quiet (_cmd ub_cmd repo command NoParam verbose_).
Proof. apply q_cmd_in. apply allowed_dpath. Qed.

Lemma q_cmd_code command verbose_ :
  quiet (_cmd ub_cmd repo command (Given (code_dpath repo)) verbose_).
Proof. apply q_cmd_in. apply allowed_code_dpath. Qed.

Ltac handler_cases :=
  match goal with
  | H : _ = Some _ |- _ =>
      cbv beta delta [on_IndexError on_ShellException on_TypeError on_Exception] in H;
      lazymatch type of H with
      | match ?e with _ => _ end = _ =>
          destruct e; try discriminate H; inversion H; subst; clear H
      | Some _ = Some _ => inversion H; subst; clear H
      end
  end.

Ltac quiet_step :=
  lazymatch goal with
  | |- quiet (bind _ _) => apply q_bind; [|intros ?]
  | |- quiet (pure _) => apply q_pure
  | |- quiet (raise _) => apply q_raise
  | |- quiet (try_else _ _ _) =>
      apply q_try_else; [|intros ? ? ?; handler_cases|intros ?]
  | |- quiet (try_ _ _) => unfold try_
  | |- quiet (when _ _) => apply q_when
  | |- quiet (for_each _ _) => apply q_for_each; intros ?
  | |- quiet get_mem => apply q_get_mem
  | |- quiet (debug _) => apply q_debug
  | |- quiet (info _) => apply q_info
  | |- quiet (exists_dpath _) => apply q_exists_dpath
  | |- quiet (pygit _) => apply q_pygit
  | |- quiet (pygit_remote _ _) => apply q_pygit_remote
  | |- quiet (remote_exists _ _) => apply q_remote_read
  | |- quiet (remote_urls _ _) => apply q_remote_read
  | |- quiet (remote_refs _ _) => apply q_remote_read
  | |- quiet (if ?b then _ else _) => destruct b
  | |- quiet (match ?x with _ => _ end) => destruct x
  end.

Ltac quiet_auto := cbn [negb]; repeat (quiet_step; cbn [negb]).

Lemma q_assert_clean : quiet (_assert_clean repo).
Proof. unfold _assert_clean. quiet_auto. Qed.

Lemma q_ensure_remotes_dry : quiet (_ensure_remotes ub_cmd repo true).
Proof. unfold _ensure_remotes, ensure_remotes_item. quiet_auto. Qed.

Lemma q_lookup_again : quiet (lookup_again repo).
Proof. unfold lookup_again. quiet_auto. Qed.

Lemma q_report_remote remote_ : quiet (report_remote repo remote_).
Proof. unfold report_remote. quiet_auto. Qed.

Lemma q_registered_remote_dry : quiet (_registered_remote ub_cmd repo true).
Proof.
  unfold _registered_remote. quiet_auto;
    first [apply q_ensure_remotes_dry | apply q_lookup_again
          | apply q_report_remote].
Qed.

Lemma q_ensure_fetch_dry r : quiet (ensure_fetch ub_cmd repo true r).
Proof. unfold ensure_fetch. quiet_auto. Qed.

Lemma q_ensure_url_dry r : quiet (ensure_url ub_cmd repo true r).
Proof. unfold ensure_url. quiet_auto. Qed.

Lemma q_current_ref : quiet (current_ref repo).
Proof. unfold current_ref. quiet_auto. Qed.

Lemma q_ensure_checkout_dry r : quiet (ensure_checkout ub_cmd repo true r).
Proof. unfold ensure_checkout. quiet_auto. Qed.

Lemma q_ensure_upstream_dry r : quiet (ensure_upstream ub_cmd repo true r).
Proof. unfold ensure_upstream. quiet_auto. Qed.

Lemma q_ensure_remote_dry r : quiet (ensure_remote ub_cmd repo true r).
Proof.
  unfold ensure_remote. quiet_auto;
    first [apply q_ensure_fetch_dry | apply q_ensure_url_dry
          | apply q_current_ref | apply q_ensure_checkout_dry
          | apply q_ensure_upstream_dry].
Qed.

Lemma q_ensure_report : quiet (ensure_report repo).
Proof. unfold ensure_report. quiet_auto. Qed.

Lemma q_ensure_body_dry : quiet (ensure_body ub_cmd repo true).
Proof.
  unfold ensure_body. quiet_auto;
    first [apply q_assert_clean | apply q_registered_remote_dry
          | apply q_ensure_remote_dry | apply q_ensure_report].
Qed.

(** Commands included: the registration of the remotes, dry or not. *)
Lemma q_ensure_remotes_item dry item :
  quiet (ensure_remotes_item ub_cmd repo dry item).
Proof.
  unfold ensure_remotes_item. quiet_auto; try apply q_cmd.
Qed.

Lemma q_ensure_remotes dry : quiet (_ensure_remotes ub_cmd repo dry).
Proof.
  unfold _ensure_remotes. apply q_for_each. apply q_ensure_remotes_item.
Qed.

Lemma q_registered_remote dry : quiet (_registered_remote ub_cmd repo dry).
Proof.
  unfold _registered_remote. quiet_auto;
    first [apply q_ensure_remotes | apply q_lookup_again
          | apply q_report_remote].
Qed.

Lemma q_clone : quiet (clone ub_cmd repo).
Proof. unfold clone. quiet_auto; try apply q_cmd_code. Qed.

Lemma q_ensure_clone : quiet (ensure_clone ub_cmd repo).
Proof. unfold ensure_clone. quiet_auto. apply q_clone. Qed.

Lemma q_ensure_fetch dry r : quiet (ensure_fetch ub_cmd repo dry r).
Proof. unfold ensure_fetch. quiet_auto; try apply q_cmd. Qed.

Lemma q_ensure_url dry r : quiet (ensure_url ub_cmd repo dry r).
Proof. unfold ensure_url. quiet_auto; try apply q_cmd. Qed.

Lemma q_ensure_checkout dry r : quiet (ensure_checkout ub_cmd repo dry r).
Proof. unfold ensure_checkout. quiet_auto; try apply q_cmd. Qed.

Lemma q_ensure_upstream dry r : quiet (ensure_upstream ub_cmd repo dry r).
Proof. unfold ensure_upstream. quiet_auto; try apply q_cmd. Qed.

Lemma q_ensure_remote dry r : quiet (ensure_remote ub_cmd repo dry r).
Proof.
  unfold ensure_remote. quiet_auto;
    first [apply q_ensure_fetch | apply q_ensure_url
          | apply q_current_ref | apply q_ensure_checkout
          | apply q_ensure_upstream].
Qed.

Lemma q_ensure dry : quiet (ensure ub_cmd repo dry).
Proof.
  unfold ensure, ensure_head, ensure_body. quiet_auto;
    first [apply q_ensure_clone | apply q_assert_clean
          | apply q_registered_remote | apply q_ensure_remote
          | apply q_ensure_report].
Qed.

Lemma q_pull : quiet (pull ub_cmd repo).
Proof. unfold pull. quiet_auto; first [apply q_assert_clean | apply q_cmd]. Qed.

End Quiet.

(** A frame is kept by logging and caching; a prefix of the logged commands
    is kept by commands too. *)
Lemma frame_lines d w0 c0 o l s : frame d w0 c0 o s -> frame d w0 c0 o (with_lines l s).
Proof. intros (Hw & Hc & Ho). repeat split; auto. Qed.

Lemma frame_cache d w0 c0 o s : frame d w0 c0 o s -> frame d w0 c0 o (with_cache s).
Proof. intros (Hw & Hc & Ho). repeat split; simpl; auto. Qed.

Lemma frame_world d w0 c0 o s : frame d w0 c0 o s -> world s = w0.
Proof. now intros (Hw & _). Qed.

Lemma frame_opens d w0 c0 s :
  frame d w0 c0 true s ->
  pygit_cached (mem s) = true \/
  (Git.path_exists (w0 d) = true /\ Git.is_git_repo (w0 d) = true).
Proof. intros (_ & _ & Ho). now apply Ho. Qed.

Lemma settled_world w0 c0 s : settled w0 c0 s -> world s = w0.
Proof. now intros (Hw & _). Qed.

Lemma settled_lines w0 c0 l s : settled w0 c0 s -> settled w0 c0 (with_lines l s).
Proof. intros (Hw & Hc & Hp). repeat split; auto. Qed.

Lemma settled_cache w0 c0 s : settled w0 c0 s -> settled w0 c0 (with_cache s).
Proof. intros (Hw & Hc & Hp). repeat split; auto. Qed.

Lemma settled_opens d w0 c0 s :
  settled w0 c0 s ->
  pygit_cached (mem s) = true \/
  (Git.path_exists (w0 d) = true /\ Git.is_git_repo (w0 d) = true).
Proof. intros (_ & _ & Hp). now left. Qed.

Lemma extends_lines c0 l s : extends c0 s -> extends c0 (with_lines l s).
Proof. intros [rest H]. exists rest. exact H. Qed.

Lemma extends_cache c0 s : extends c0 s -> extends c0 (with_cache s).
Proof. intros [rest H]. exists rest. exact H. Qed.

Lemma extends_cmd c0 c s : extends c0 s -> extends c0 (with_cmd c s).
Proof.
  intros [rest H]. exists (rest ++ [c])%list. simpl. rewrite H.
  now rewrite app_assoc.
Qed.

Lemma extends_world c0 w s : extends c0 s -> extends c0 (with_world w s).
Proof. intros [rest H]. exists rest. exact H. Qed.

Section QuietFrame.
Variable ub_cmd : string -> option string -> Git.World -> CmdInfo * Git.World.
Variable repo : Repo.
Variables (w0 : Git.World) (c0 : list (string * option string)).

Local Abbreviation F := (frame (dpath repo) w0 c0 false).

(** In a dry run the clone is not reached: the working copy that
    [ensure_clone] looks for is the one [ensure] has just found. *)
Lemma q_ensure_head_dry : quiet F (ensure_head ub_cmd repo true).
Proof.
  pose proof (frame_lines (dpath repo) w0 c0 false) as HL.
  unfold ensure_head.
  apply q_bind; [apply q_get_mem|intros m].
  apply q_bind; [apply q_when; destruct (verbose m >? 0)%Z; now apply q_debug|intros _].
  eapply spec_bind;
    [apply (spec_exists_dpath repo w0 F (frame_world _ _ _ _)
              (fun b => b = Git.path_exists (w0 (dpath repo)))); reflexivity|].
  intros ex ->.
  apply q_bind; [apply q_when; now apply q_debug|intros _].
  destruct (Git.path_exists (w0 (dpath repo))) eqn:Eex; simpl.
  - apply q_bind; [|intros _; apply q_pure].
    unfold ensure_clone.
    eapply spec_bind;
      [apply (spec_exists_dpath repo w0 F (frame_world _ _ _ _)
                (fun b => b = Git.path_exists (w0 (dpath repo)))); reflexivity|].
    intros ex ->. rewrite Eex. now apply q_debug.
  - apply q_pure.
Qed.

Lemma q_ensure_dry : quiet F (ensure ub_cmd repo true).
Proof.
  unfold ensure. apply q_bind; [apply q_ensure_head_dry|].
  intros [|]; [apply q_pure|].
  apply q_ensure_body_dry; [apply frame_lines|apply frame_cache].
Qed.

End QuietFrame.

End RepoFacts.

(* ================================================================== *)
(** * The reconciliation engine *)

Module Engine.
Import Py Repo RepoFacts.
Local Open Scope py_scope.

(** gitpython has the repository of [repo], or can open it. *)
Definition opens (repo : Repo) (s : State) : Prop :=
  pygit_cached (mem s) = true \/
  (Git.path_exists (world s (dpath repo)) = true /\
   Git.is_git_repo (world s (dpath repo)) = true).

(** The working copy reports dirty. *)
Definition reports_dirty (repo : Repo) (s : State) : Prop :=
  opens repo s /\ Git.is_dirty (world s (dpath repo)) = true.

(** No command was run between [s] and [s']. *)
Definition no_command (s s' : State) : Prop :=
  logged_cmds (mem s') = logged_cmds (mem s) /\ world s' = world s.

(** A runner where every command succeeds and changes nothing. *)
Definition inert_cmd : string -> option string -> Git.World -> CmdInfo * Git.World :=
  fun _ _ w => ({| out := ""; err := ""; ret := 0 |}, w).

(** A runner where every command fails and changes nothing. *)
Definition failing_cmd : string -> option string -> Git.World -> CmdInfo * Git.World :=
  fun _ _ w => ({| out := ""; err := "fatal"; ret := 128 |}, w).

(** The descriptor of the first example of the class docstring, and a
    fresh object for it. *)
Definition ubelt : Repo :=
  {| name := "ubelt";
     dpath := "/code/ubelt";
     code_dpath := Some "/code";
     remotes := [("origin", "https://github.com/Erotemic/ubelt.git")];
     remote := "origin";
     branch := Some "master";
     url := "https://github.com/Erotemic/ubelt.git";
     pkg_dpath := "/code/ubelt/ubelt" |}.

Definition fresh : Mem :=
  {| logged_lines := []; logged_cmds := []; pygit_cached := false; verbose := 3 |}.

(** A clone of it in the desired state, and the same with local changes. *)
Definition ubelt_tree (dirty : bool) : Git.WorkTree :=
  {| Git.path_exists := true;
     Git.is_git_repo := true;
     Git.is_dirty := dirty;
     Git.remotes := [{| Git.name := "origin"; Git.exists_ := true;
                        Git.urls := ["https://github.com/Erotemic/ubelt.git"];
                        Git.refs := ["master"; "dev/1.2"; "dev/1.10"; "dev/2.0"; "main"] |}];
     Git.active_branch :=
       Some {| Git.branch_name := "master";
               Git.tracking_branch :=
                 Some {| Git.remote_name := "origin"; Git.remote_head := "master" |} |};
     Git.tags := [];
     Git.head_hexsha := "0a1b2c" |}.

Definition clean_world : Git.World := fun _ => ubelt_tree false.
Definition dirty_world : Git.World := fun _ => ubelt_tree true.

Lemma cmd_is_logged ub_cmd repo command cwd verbose_ s :
  exists c,
    logged_cmds (mem (snd (_cmd ub_cmd repo command cwd verbose_ s)))
    = (logged_cmds (mem s) ++ [(command, c)])%list.
Proof.
  unfold _cmd, bind, get_mem, log_cmd, debug, run_ub_cmd, modify_mem. simpl.
  destruct (ub_cmd command _ (world s)) as [i w'] eqn:E. simpl.
  eexists.
  destruct (match verbose_ with NoParam => verbose (mem s) | Given v => v end =? 0)%Z;
    simpl.
  - destruct (ret i =? 0)%Z; simpl; reflexivity.
  - unfold when, info, debug, modify_mem, bind.
    destruct (strip_is_empty (out i)); destruct (strip_is_empty (err i));
      simpl; destruct (ret i =? 0)%Z; simpl; reflexivity.
Qed.

(** C1. A dry run, and so [check], runs no command: for every repository,
    every state of its working copy and every behaviour of the command
    runner, the logged commands and the world are at the end what they were
    at the start (every call of the runner is logged before it is made). *)
Theorem check_runs_no_command :
  forall ub_cmd repo s,
    no_command s (snd (ensure ub_cmd repo true s))
    /\ no_command s (snd (check ub_cmd repo s)).
Proof.
  intros ub_cmd repo s.
  assert (H : no_command s (snd (ensure ub_cmd repo true s))).
  { pose proof (q_ensure_dry ub_cmd repo (world s) (logged_cmds (mem s)) s) as H.
    unfold frame in H.
    destruct (ensure ub_cmd repo true s) as [[a|e] s'];
      (destruct H as [(Hw & Hc & _) _];
       [repeat split; auto; discriminate|split; assumption]). }
  split; exact H.
Qed.

(** ** The guard *)

Lemma assert_clean_dirty repo s :
  reports_dirty repo s ->
  exists s',
    _assert_clean repo s
    = (Raise (DirtyRepoError ("The repo=" ++ nice repo ++ " is dirty")), s')
    /\ no_command s s' /\ opens repo s'.
Proof.
  intros [Ho Hd]. unfold _assert_clean, pygit, bind, get_mem, get_world. simpl.
  destruct (pygit_cached (mem s)) eqn:Ec; simpl.
  - rewrite Hd. eexists. split; [reflexivity|].
    split; [split; reflexivity|]. now left.
  - destruct Ho as [Ho|[He Hg]]; [congruence|]. rewrite He, Hg. simpl.
    rewrite Hd. eexists. split; [reflexivity|].
    split; [split; reflexivity|]. now left.
Qed.

Lemma assert_clean_raises repo s msg s' :
  _assert_clean repo s = (Raise (DirtyRepoError msg), s') ->
  reports_dirty repo s.
Proof.
  unfold _assert_clean, pygit, bind, get_mem, get_world, reports_dirty, opens.
  simpl. destruct (pygit_cached (mem s)) eqn:Ec; simpl.
  - destruct (Git.is_dirty (world s (dpath repo))) eqn:Ed; [|discriminate]. auto.
  - destruct (Git.path_exists (world s (dpath repo))); simpl; [|discriminate].
    destruct (Git.is_git_repo (world s (dpath repo))); simpl; [|discriminate].
    destruct (Git.is_dirty (world s (dpath repo))) eqn:Ed; [|discriminate]. auto.
Qed.

(** [ensure] on a working copy that is there: up to the guard it only logs. *)
Lemma ensure_head_exists ub_cmd repo dry s :
  Git.path_exists (world s (dpath repo)) = true ->
  exists s1,
    ensure_head ub_cmd repo dry s = (Ok false, s1)
    /\ no_command s s1
    /\ pygit_cached (mem s1) = pygit_cached (mem s).
Proof.
  intros He. unfold ensure_head, ensure_clone, exists_dpath, bind, get_mem,
    get_world, when. simpl.
  destruct (verbose (mem s) >? 0)%Z; destruct dry; simpl; rewrite He; simpl;
    rewrite ?He; simpl; eexists; (split; [reflexivity|]);
    split; try reflexivity; split; reflexivity.
Qed.

Lemma ensure_body_dirty ub_cmd repo dry s1 :
  reports_dirty repo s1 ->
  exists msg s',
    ensure_body ub_cmd repo dry s1 = (Raise (DirtyRepoError msg), s')
    /\ no_command s1 s'.
Proof.
  intros Hd. destruct (assert_clean_dirty _ _ Hd) as (s' & E & Hn & _).
  exists ("The repo=" ++ nice repo ++ " is dirty"), s'.
  split; [|exact Hn]. unfold ensure_body, bind. now rewrite E.
Qed.

Lemma pull_dirty ub_cmd repo s :
  reports_dirty repo s ->
  exists msg s',
    pull ub_cmd repo s = (Raise (DirtyRepoError msg), s') /\ no_command s s'.
Proof.
  intros Hd. destruct (assert_clean_dirty _ _ Hd) as (s' & E & Hn & _).
  do 2 eexists. split; [|exact Hn]. unfold pull, bind. now rewrite E.
Qed.

Lemma ensure_dirty ub_cmd repo dry s :
  Git.path_exists (world s (dpath repo)) = true ->
  reports_dirty repo s ->
  exists msg s',
    ensure ub_cmd repo dry s = (Raise (DirtyRepoError msg), s')
    /\ no_command s s'.
Proof.
  intros He [Ho Hd].
  destruct (ensure_head_exists ub_cmd repo dry s He) as (s1 & Hh & [Hc Hw] & Hp).
  assert (Hd1 : reports_dirty repo s1).
  { split; [|now rewrite Hw]. unfold opens in *. now rewrite Hw, Hp. }
  destruct (ensure_body_dirty ub_cmd repo dry s1 Hd1) as (msg & s' & E & [Hc' Hw']).
  exists msg, s'. split.
  - unfold ensure, bind. now rewrite Hh.
  - split; congruence.
Qed.

(** C2. [_assert_clean] raises DirtyRepoError exactly when the working copy
    reports dirty; [pull] on a dirty working copy raises it and runs no
    command; [ensure], dry or not, that reaches the guard on a dirty working
    copy raises it and runs no command after what was logged before the
    guard, which for a working copy that was there at the start is
    nothing. *)
Theorem dirty_guard :
  (forall repo s,
      (exists msg s', _assert_clean repo s = (Raise (DirtyRepoError msg), s'))
      <-> reports_dirty repo s)
  /\ (forall ub_cmd repo s,
        reports_dirty repo s ->
        exists msg s',
          pull ub_cmd repo s = (Raise (DirtyRepoError msg), s')
          /\ no_command s s')
  /\ (forall ub_cmd repo dry s s1,
        ensure_head ub_cmd repo dry s = (Ok false, s1) ->
        reports_dirty repo s1 ->
        exists msg s',
          ensure ub_cmd repo dry s = (Raise (DirtyRepoError msg), s')
          /\ no_command s1 s')
  /\ (forall ub_cmd repo dry s,
        Git.path_exists (world s (dpath repo)) = true ->
        reports_dirty repo s ->
        exists msg s',
          ensure ub_cmd repo dry s = (Raise (DirtyRepoError msg), s')
          /\ no_command s s').
Proof.
  split; [|split; [|split]].
  - intros repo s. split.
    + intros (msg & s' & E). eapply assert_clean_raises; eauto.
    + intros Hd. destruct (assert_clean_dirty _ _ Hd) as (s' & E & _). eauto.
  - intros ub_cmd repo s Hd. now apply pull_dirty.
  - intros ub_cmd repo dry s s1 Hh Hd.
    destruct (ensure_body_dirty ub_cmd repo dry s1 Hd) as (msg & s' & E & Hn).
    exists msg, s'. split; [|exact Hn]. unfold ensure, bind. now rewrite Hh.
  - intros ub_cmd repo dry s He Hd. now apply ensure_dirty.
Qed.

Lemma dirty_guard_witness :
  let s := {| mem := fresh; world := dirty_world |} in
  reports_dirty ubelt s
  /\ (exists msg s', pull inert_cmd ubelt s = (Raise (DirtyRepoError msg), s')
                     /\ no_command s s')
  /\ (exists msg s', ensure inert_cmd ubelt false s = (Raise (DirtyRepoError msg), s')
                     /\ no_command s s')
  /\ (exists msg s', ensure inert_cmd ubelt true s = (Raise (DirtyRepoError msg), s')
                     /\ no_command (snd (ensure_head inert_cmd ubelt true s)) s').
Proof.
  intros s.
  assert (Hd : reports_dirty ubelt s).
  { apply (proj1 (proj1 dirty_guard ubelt s)). do 2 eexists. reflexivity. }
  split; [exact Hd|]. split; [|split].
  - exact (proj1 (proj2 dirty_guard) inert_cmd ubelt s Hd).
  - exact (proj2 (proj2 (proj2 dirty_guard)) inert_cmd ubelt false s eq_refl Hd).
  - refine (proj1 (proj2 (proj2 dirty_guard)) inert_cmd ubelt true s _ eq_refl _).
    split; [right; split; reflexivity|reflexivity].
Defined.

(** ** The registration of the remotes *)

(** The remote [n] is registered in the working copy. *)
Definition registered (repo : Repo) (w : Git.World) (n : string) : bool :=
  match Git.find_remote n (Git.remotes (w (dpath repo))) with
  | Some _ => true
  | None => false
  end.

Definition all_registered (repo : Repo) (w : Git.World) (l : dict string) : bool :=
  forallb (fun item => registered repo w (fst item)) l.

(** The command that registers a remote. *)
Definition remote_add (n u : string) : string :=
  "git remote add " ++ n ++ " " ++ u.

Definition dry_mode_error : Exc :=
  AssertionError "In dry mode, cannot ensure remotes".

Lemma pygit_opens repo s :
  opens repo s ->
  exists s1,
    pygit repo s = (Ok (world s (dpath repo)), s1)
    /\ no_command s s1 /\ pygit_cached (mem s1) = true.
Proof.
  intros Ho. unfold pygit, bind, get_mem, get_world. simpl.
  destruct (pygit_cached (mem s)) eqn:Ec; simpl.
  - exists s. repeat split; auto.
  - destruct Ho as [Ho|[He Hg]]; [congruence|]. rewrite He, Hg. simpl.
    eexists. repeat split; reflexivity.
Qed.

Lemma pygit_cached_eq repo s :
  pygit_cached (mem s) = true -> pygit repo s = (Ok (world s (dpath repo)), s).
Proof.
  intros Hc. unfold pygit, bind, get_mem, get_world. simpl. now rewrite Hc.
Qed.

Lemma pygit_ok_inv repo s g s1 :
  pygit repo s = (Ok g, s1) ->
  g = world s (dpath repo) /\ no_command s s1 /\ pygit_cached (mem s1) = true.
Proof.
  unfold pygit, bind, get_mem, get_world. simpl.
  destruct (pygit_cached (mem s)) eqn:Ec; simpl.
  - intros H. inversion H; subst. repeat split; auto.
  - destruct (Git.path_exists (world s (dpath repo))); simpl; [|discriminate].
    destruct (Git.is_git_repo (world s (dpath repo))); simpl; [|discriminate].
    intros H. inversion H; subst. repeat split; auto.
Qed.

Lemma pygit_raise_inv repo s e s1 :
  pygit repo s = (Raise e, s1) ->
  e = NoSuchPathError \/ e = InvalidGitRepositoryError.
Proof.
  unfold pygit, bind, get_mem, get_world. simpl.
  destruct (pygit_cached (mem s)); simpl; [discriminate|].
  destruct (Git.path_exists (world s (dpath repo))); simpl;
    [|intros H; inversion H; auto].
  destruct (Git.is_git_repo (world s (dpath repo))); simpl;
    [discriminate|intros H; inversion H; auto].
Qed.

Lemma registered_false repo w l :
  In (remote repo) (keys l) -> registered repo w (remote repo) = false ->
  all_registered repo w l = false.
Proof.
  intros Hin Hr. unfold all_registered. induction l as [|[n u] l IH]; simpl in *.
  - contradiction.
  - destruct Hin as [->|Hin]; [now rewrite Hr|].
    rewrite (IH Hin). apply andb_false_r.
Qed.

Section Registration.
Variable ub_cmd : string -> option string -> Git.World -> CmdInfo * Git.World.
Variable repo : Repo.

(** A registered remote is left alone, dry or not. *)
Lemma item_registered dry n u s :
  pygit_cached (mem s) = true -> registered repo (world s) n = true ->
  ensure_remotes_item ub_cmd repo dry (n, u) s = (Ok tt, s).
Proof.
  intros Hc Hr. unfold registered in Hr.
  unfold ensure_remotes_item, try_, try_else, bind, pygit_remote, remote_urls,
    remote_read, bind.
  rewrite (pygit_cached_eq _ _ Hc).
  destruct (Git.find_remote n (Git.remotes (world s (dpath repo)))) eqn:Ef;
    [|discriminate].
  simpl. rewrite (pygit_cached_eq _ _ Hc). rewrite Ef. reflexivity.
Qed.

(** A dry run stops at the first remote that is not registered. *)
Lemma item_dry_unregistered n u s :
  pygit_cached (mem s) = true -> registered repo (world s) n = false ->
  ensure_remotes_item ub_cmd repo true (n, u) s = (Raise dry_mode_error, s).
Proof.
  intros Hc Hr. unfold registered in Hr.
  unfold ensure_remotes_item, try_, try_else, pygit_remote, bind.
  rewrite (pygit_cached_eq _ _ Hc).
  destruct (Git.find_remote n (Git.remotes (world s (dpath repo))));
    [discriminate|reflexivity].
Qed.

Lemma ensure_remotes_dry_cached l : forall s,
  pygit_cached (mem s) = true ->
  for_each l (ensure_remotes_item ub_cmd repo true) s
  = (if all_registered repo (world s) l then Ok tt else Raise dry_mode_error, s).
Proof.
  induction l as [|[n u] l IH]; intros s Hc;
    cbn [for_each all_registered forallb fst]; [reflexivity|].
  unfold bind. destruct (registered repo (world s) n) eqn:Hr; cbn [andb].
  - rewrite (item_registered _ _ _ _ Hc Hr). now apply IH.
  - now rewrite (item_dry_unregistered _ _ _ Hc Hr).
Qed.

(** Remotes that are registered are passed over. *)
Lemma ensure_remotes_skip dry pre l : forall s,
  pygit_cached (mem s) = true -> all_registered repo (world s) pre = true ->
  for_each (pre ++ l) (ensure_remotes_item ub_cmd repo dry) s
  = for_each l (ensure_remotes_item ub_cmd repo dry) s.
Proof.
  induction pre as [|[n u] pre IH]; intros s Hc Hr;
    cbn [for_each app]; [reflexivity|].
  simpl in Hr. apply andb_true_iff in Hr. destruct Hr as [Hn Hr].
  unfold bind at 1. rewrite (item_registered _ _ _ _ Hc Hn). now apply IH.
Qed.

(** What a command with the default arguments does: it is logged, run in
    [dpath], and raises when the runner reports a failure. *)
Lemma cmd_default command s :
  let (i, w') := ub_cmd command (Some (dpath repo)) (world s) in
  exists s',
    _cmd ub_cmd repo command NoParam NoParam s
    = (if (ret i =? 0)%Z then Ok i else Raise (ShellException command i), s')
    /\ logged_cmds (mem s')
       = (logged_cmds (mem s) ++ [(command, Some (dpath repo))])%list
    /\ world s' = w'
    /\ pygit_cached (mem s') = pygit_cached (mem s).
Proof.
  destruct (ub_cmd command (Some (dpath repo)) (world s)) as [i w'] eqn:E.
  unfold _cmd, bind, get_mem, log_cmd, debug, run_ub_cmd, modify_mem. simpl.
  rewrite E. simpl.
  unfold when, info, debug, modify_mem, bind.
  destruct (verbose (mem s) =? 0)%Z; simpl.
  - destruct (ret i =? 0)%Z; simpl; eexists; repeat split; reflexivity.
  - destruct (strip_is_empty (out i)); destruct (strip_is_empty (err i));
      simpl; destruct (ret i =? 0)%Z; simpl; eexists; repeat split; reflexivity.
Qed.

(** A run that is not dry registers the first remote that is missing. *)
Lemma ensure_remotes_adds l : forall s,
  pygit_cached (mem s) = true -> all_registered repo (world s) l = false ->
  exists pre n u post,
    l = (pre ++ (n, u) :: post)%list /\
    all_registered repo (world s) pre = true /\
    registered repo (world s) n = false /\
    extends (logged_cmds (mem s) ++ [(remote_add n u, Some (dpath repo))])
      (snd (for_each l (ensure_remotes_item ub_cmd repo false) s)).
Proof.
  induction l as [|[n u] l IH]; intros s Hc Hr; simpl in Hr; [discriminate|].
  destruct (registered repo (world s) n) eqn:Hn; simpl in Hr.
  - destruct (IH s Hc Hr) as (pre & n' & u' & post & El & Hpre & Hn' & Hex).
    exists ((n, u) :: pre), n', u', post.
    split; [now rewrite El|].
    split; [simpl; now rewrite Hn, Hpre|]. split; [exact Hn'|].
    cbn [for_each]. unfold bind at 1.
    now rewrite (item_registered _ _ _ _ Hc Hn).
  - exists [], n, u, l. split; [reflexivity|]. split; [reflexivity|].
    split; [exact Hn|].
    set (c1 := (logged_cmds (mem s) ++ [(remote_add n u, Some (dpath repo))])%list).
    assert (Hq : forall A (m : M A) s0, quiet (extends c1) m -> extends c1 s0 ->
                                        extends c1 (snd (m s0))).
    { intros A m s0 Hm H0. specialize (Hm s0 H0).
      destruct (m s0) as [[a|e] s']; simpl; tauto. }
    pose proof (extends_lines c1) as HL.
    pose proof (extends_cache c1) as HC.
    assert (HM : forall c s0, True -> extends c1 s0 -> extends c1 (with_cmd c s0))
      by (intros c s0 _; apply extends_cmd).
    pose proof (extends_world c1) as HW.
    assert (Hitem : forall x, quiet (extends c1)
                                (ensure_remotes_item ub_cmd repo false x)).
    { intros x.
      apply q_ensure_remotes_item with (allowed := fun _ => True); auto. }
    pose proof (cmd_default (remote_add n u) s) as Hcmd.
    destruct (ub_cmd (remote_add n u) (Some (dpath repo)) (world s)) as [i w'].
    destruct Hcmd as (s2 & Ecmd & Hlog & _ & _).
    assert (H2 : extends c1 s2).
    { exists []. rewrite Hlog. unfold c1. now rewrite app_nil_r. }
    unfold registered in Hn.
    cbn [for_each]. unfold bind at 1.
    unfold ensure_remotes_item at 1.
    unfold try_, try_else, pygit_remote, bind.
    rewrite (pygit_cached_eq _ _ Hc).
    destruct (Git.find_remote n (Git.remotes (world s (dpath repo))));
      [discriminate|].
    unfold raise, on_IndexError. cbn [negb]. cbv beta iota.
    change ("git remote add " ++ n ++ " " ++ u) with (remote_add n u).
    rewrite Ecmd.
    destruct (ret i =? 0)%Z; cbv beta iota.
    + unfold pure at 1 2. cbv beta iota.
      apply Hq; [|exact H2]. apply q_for_each; auto.
    + destruct (n =? remote repo); [exact H2|].
      unfold pure at 1. cbv beta iota.
      apply Hq; [|exact H2]. apply q_for_each; auto.
Qed.

Lemma bind_ok {A B} (m : M A) (f : A -> M B) s a s' :
  m s = (Ok a, s') -> bind m f s = f a s'.
Proof. intros H. unfold bind. now rewrite H. Qed.

Lemma bind_raise {A B} (m : M A) (f : A -> M B) s e s' :
  m s = (Raise e, s') -> bind m f s = (Raise e, s').
Proof. intros H. unfold bind. now rewrite H. Qed.

Lemma try_caught {A B} (body : M A) handler (orelse : A -> M B) s e s' h :
  body s = (Raise e, s') -> handler e = Some h ->
  try_else body handler orelse s = h s'.
Proof. intros H Hh. unfold try_else. now rewrite H, Hh. Qed.

(** The first look of [_registered_remote] at a remote that is missing. *)
Lemma lookup_unregistered s :
  opens repo s -> registered repo (world s) (remote repo) = false ->
  exists s1,
    (r <- pygit_remote repo (remote repo) ;; pure (Some r)) s
    = (Raise IndexError, s1)
    /\ no_command s s1 /\ pygit_cached (mem s1) = true.
Proof.
  intros Ho Hr. destruct (pygit_opens _ _ Ho) as (s1 & Ep & Hn & Hc).
  exists s1. split; [|auto]. unfold registered in Hr.
  unfold pygit_remote, bind. rewrite Ep.
  destruct (Git.find_remote (remote repo) (Git.remotes (world s (dpath repo))));
    [discriminate|reflexivity].
Qed.

Lemma registered_remote_dry_raises s :
  opens repo s -> In (remote repo) (keys (remotes repo)) ->
  registered repo (world s) (remote repo) = false ->
  exists s',
    _registered_remote ub_cmd repo true s = (Raise dry_mode_error, s')
    /\ no_command s s'.
Proof.
  intros Ho Hin Hr.
  destruct (lookup_unregistered s Ho Hr) as (s1 & E1 & [Hc1 Hw1] & Hp1).
  exists s1. split; [|split; assumption].
  unfold _registered_remote. apply bind_raise.
  unfold try_. rewrite (try_caught _ _ _ _ _ _ _ E1 eq_refl).
  apply bind_raise. unfold _ensure_remotes.
  rewrite (ensure_remotes_dry_cached _ _ Hp1).
  rewrite Hw1. now rewrite (registered_false _ _ _ Hin Hr).
Qed.

Lemma registered_remote_adds s :
  opens repo s -> In (remote repo) (keys (remotes repo)) ->
  registered repo (world s) (remote repo) = false ->
  exists pre n u post,
    remotes repo = (pre ++ (n, u) :: post)%list /\
    all_registered repo (world s) pre = true /\
    registered repo (world s) n = false /\
    extends (logged_cmds (mem s) ++ [(remote_add n u, Some (dpath repo))])
      (snd (_registered_remote ub_cmd repo false s)).
Proof.
  intros Ho Hin Hr.
  destruct (lookup_unregistered s Ho Hr) as (s1 & E1 & [Hc1 Hw1] & Hp1).
  destruct (ensure_remotes_adds (remotes repo) s1 Hp1)
    as (pre & n & u & post & El & Hpre & Hn & Hex).
  { rewrite Hw1. exact (registered_false _ _ _ Hin Hr). }
  rewrite Hw1 in Hpre, Hn.
  exists pre, n, u, post. split; [exact El|]. split; [exact Hpre|].
  split; [exact Hn|]. rewrite Hc1 in Hex.
  set (c1 := (logged_cmds (mem s) ++ [(remote_add n u, Some (dpath repo))])%list) in *.
  assert (Hq : forall A (m : M A) s0, quiet (extends c1) m -> extends c1 s0 ->
                                      extends c1 (snd (m s0))).
  { intros A m s0 Hm H0. specialize (Hm s0 H0).
    destruct (m s0) as [[a|e] s']; simpl; tauto. }
  pose proof (extends_lines c1) as HL.
  pose proof (extends_cache c1) as HC.
  unfold _registered_remote, try_.
  unfold bind at 1. rewrite (try_caught _ _ _ _ _ _ _ E1 eq_refl).
  unfold bind at 1. fold (_ensure_remotes ub_cmd repo false) in Hex.
  destruct (_ensure_remotes ub_cmd repo false s1) as [[[]|e] s3]; simpl in Hex;
    [|exact Hex].
  pose proof (Hq _ (lookup_again repo) s3 (q_lookup_again repo _ HL HC) Hex) as H4.
  destruct (lookup_again repo s3) as [[v|e] s4]; simpl in H4; [|exact H4].
  apply Hq; [|exact H4].
  apply q_bind; [now apply q_report_remote|intros _; apply q_pure].
Qed.

Lemma registered_remote_add_fails s pre u post i w' :
  opens repo s ->
  remotes repo = (pre ++ (remote repo, u) :: post)%list ->
  all_registered repo (world s) pre = true ->
  registered repo (world s) (remote repo) = false ->
  ub_cmd (remote_add (remote repo) u) (Some (dpath repo)) (world s) = (i, w') ->
  ret i <> 0%Z ->
  exists s',
    _registered_remote ub_cmd repo false s
    = (Raise (ShellException (remote_add (remote repo) u) i), s')
    /\ logged_cmds (mem s')
       = (logged_cmds (mem s)
          ++ [(remote_add (remote repo) u, Some (dpath repo))])%list.
Proof.
  intros Ho Hrem Hpre Hr Hcmd Hret.
  destruct (lookup_unregistered s Ho Hr) as (s1 & E1 & [Hc1 Hw1] & Hp1).
  pose proof (cmd_default (remote_add (remote repo) u) s1) as Hc.
  rewrite Hw1, Hcmd in Hc. destruct Hc as (s2 & Ec & Hlog & _ & _).
  apply Z.eqb_neq in Hret. rewrite Hret in Ec.
  exists s2. split; [|now rewrite Hlog, Hc1].
  unfold _registered_remote. apply bind_raise.
  unfold try_. rewrite (try_caught _ _ _ _ _ _ _ E1 eq_refl).
  apply bind_raise. unfold _ensure_remotes. rewrite Hrem.
  rewrite ensure_remotes_skip by (rewrite ?Hw1; assumption).
  cbn [for_each]. apply bind_raise.
  unfold ensure_remotes_item, try_.
  assert (E : (_ <- pygit_remote repo (remote repo) ;;
               _ <- remote_urls repo (remote repo) ;; pure tt) s1
              = (Raise IndexError, s1)).
  { unfold pygit_remote, bind. rewrite (pygit_cached_eq _ _ Hp1).
    unfold registered in Hr. rewrite Hw1.
    destruct (Git.find_remote (remote repo) (Git.remotes (world s (dpath repo))));
      [discriminate|reflexivity]. }
  rewrite (try_caught _ _ _ _ _ _ _ E eq_refl).
  cbn [negb].
  assert (E' : (_cmd ub_cmd repo ("git remote add " ++ remote repo ++ " " ++ u)
                  NoParam NoParam ;; pure tt) s1
               = (Raise (ShellException (remote_add (remote repo) u) i), s2)).
  { apply bind_raise. exact Ec. }
  rewrite (try_caught _ _ _ _ _ _ _ E' eq_refl).
  now rewrite String.eqb_refl.
Qed.

Lemma registered_remote_none dry s s' :
  In (remote repo) (keys (remotes repo)) ->
  _registered_remote ub_cmd repo dry s = (Ok None, s') -> dry = false.
Proof.
  intros Hin H. destruct dry; [exfalso|reflexivity].
  unfold _registered_remote in H. unfold bind at 1 in H.
  destruct (try_ _ _ s) as [[v|e] s2] eqn:E1; [|discriminate].
  assert (v = None).
  { unfold bind in H. destruct (report_remote repo v s2) as [[[]|e] s3];
      [now inversion H|discriminate]. }
  subst v. clear H.
  unfold try_, try_else, pygit_remote in E1. unfold bind at 1 2 in E1.
  destruct (pygit repo s) as [[g|e] s1] eqn:Ep;
    [|destruct (pygit_raise_inv _ _ _ _ Ep); subst e; discriminate].
  destruct (pygit_ok_inv _ _ _ _ Ep) as (-> & [Hc Hw] & Hp).
  destruct (Git.find_remote (remote repo) (Git.remotes (world s (dpath repo))))
    eqn:Ef; [discriminate|].
  cbn in E1. unfold bind at 1 in E1. unfold _ensure_remotes in E1.
  rewrite (ensure_remotes_dry_cached _ _ Hp) in E1.
  rewrite (registered_false _ _ _ Hin) in E1; [discriminate|].
  unfold registered. now rewrite Hw, Ef.
Qed.

End Registration.

Lemma find_remote_name n rs r :
  Git.find_remote n rs = Some r -> Git.name r = n.
Proof.
  induction rs as [|x rs IH]; simpl; [discriminate|].
  destruct (String.eqb (Git.name x) n) eqn:E; [|exact IH].
  intros H. inversion H; subst. now apply String.eqb_eq.
Qed.

(** What a call that returns has found: the handle of the active remote
    when its name is registered in the configuration the call leaves, and
    None when it is not. *)
Lemma registered_remote_returns ub_cmd repo dry s v s' :
  _registered_remote ub_cmd repo dry s = (Ok v, s') ->
  v = if registered repo (world s') (remote repo) then Some (remote repo) else None.
Proof.
  unfold _registered_remote. unfold bind at 1.
  destruct (try_ _ _ s) as [[v0|e] s2] eqn:E1; [|discriminate].
  unfold bind.
  pose proof (q_report_remote repo (fun x => world x = world s2)
                (fun _ _ H => H) (fun _ H => H) v0 s2 eq_refl) as Hq.
  destruct (report_remote repo v0 s2) as [[[]|e] s3]; [|discriminate].
  intros H. inversion H; subst v s'. clear H. destruct Hq as [Hw _].
  rewrite Hw. clear Hw s3.
  unfold try_, try_else in E1. unfold pygit_remote in E1. unfold bind at 1 2 in E1.
  destruct (pygit repo s) as [[g|e] s1] eqn:Ep.
  - destruct (pygit_ok_inv _ _ _ _ Ep) as (-> & [Hc Hw] & Hp).
    destruct (Git.find_remote (remote repo) (Git.remotes (world s (dpath repo))))
      as [r|] eqn:Ef.
    + cbn in E1. inversion E1; subst v0 s2. unfold registered.
      rewrite Hw, Ef. now rewrite (find_remote_name _ _ _ Ef).
    + cbn in E1. unfold bind at 1 in E1.
      pose proof (q_ensure_remotes ub_cmd repo
                    (fun x => pygit_cached (mem x) = true)
                    (fun _ _ H => H) (fun _ _ => eq_refl) (fun _ => True)
                    (fun _ _ _ H => H) (fun _ => Logic.I) (fun _ _ H => H)
                    dry s1 Hp) as Hq.
      destruct (_ensure_remotes ub_cmd repo dry s1) as [[[]|e] s3];
        [|discriminate].
      destruct Hq as [Hp3 _].
      unfold lookup_again, try_, try_else, pygit_remote in E1.
      unfold bind at 1 2 in E1. rewrite (pygit_cached_eq _ _ Hp3) in E1.
      unfold registered.
      destruct (Git.find_remote (remote repo) (Git.remotes (world s3 (dpath repo))))
        as [r|] eqn:Ef3; cbn in E1; inversion E1; subst v0 s2; cbn.
      * rewrite Ef3. now rewrite (find_remote_name _ _ _ Ef3).
      * now rewrite Ef3.
  - destruct (pygit_raise_inv _ _ _ _ Ep); subst e; discriminate.
Qed.

(** A clone of [ubelt] where no remote is registered. *)
Definition unregistered_world : Git.World :=
  fun _ =>
    {| Git.path_exists := true;
       Git.is_git_repo := true;
       Git.is_dirty := false;
       Git.remotes := [];
       Git.active_branch :=
         Some {| Git.branch_name := "master"; Git.tracking_branch := None |};
       Git.tags := [];
       Git.head_hexsha := "0a1b2c" |}.

(** C3, as stated, fails: on a repository whose active remote is not
    registered, [_registered_remote(dry=True)] does not return None, it
    raises the AssertionError of [_ensure_remotes]. *)
Lemma registered_remote_dry_not_none :
  let s := {| mem := fresh; world := unregistered_world |} in
  registered ubelt (world s) (remote ubelt) = false
  /\ fst (_registered_remote inert_cmd ubelt true s)
     = Raise (AssertionError "In dry mode, cannot ensure remotes")
  /\ fst (_registered_remote inert_cmd ubelt true s) <> Ok None.
Proof.
  split; [reflexivity|]. split; [reflexivity|]. discriminate.
Qed.

(** C3, amended. A dry [_registered_remote] runs no command, in any state.
    On a repository whose active remote is declared and is not registered
    in a working copy that gitpython opens: a dry call raises
    AssertionError and runs no command; a call that is not dry runs
    [git remote add] for the first declared remote that is missing (the
    declared remotes before it are registered, it is not); when the
    remotes declared before the active one are registered and
    [git remote add] of the active one fails, its ShellException
    propagates; None is returned only by a call that is not dry, and then
    the name is still not registered; and a call that is not dry and
    returns gives the handle when the name is registered in the
    configuration its commands left, and None when it is not. *)
Theorem registered_remote_unregistered :
  (forall ub_cmd repo s,
      no_command s (snd (_registered_remote ub_cmd repo true s)))
  /\ (forall ub_cmd repo s,
        opens repo s -> In (remote repo) (keys (remotes repo)) ->
        registered repo (world s) (remote repo) = false ->
        (exists s',
            _registered_remote ub_cmd repo true s = (Raise dry_mode_error, s')
            /\ no_command s s')
        /\ (exists pre n u post,
               remotes repo = (pre ++ (n, u) :: post)%list /\
               all_registered repo (world s) pre = true /\
               registered repo (world s) n = false /\
               extends (logged_cmds (mem s)
                        ++ [(remote_add n u, Some (dpath repo))])
                 (snd (_registered_remote ub_cmd repo false s)))
        /\ (forall pre u post i w',
               remotes repo = (pre ++ (remote repo, u) :: post)%list ->
               all_registered repo (world s) pre = true ->
               ub_cmd (remote_add (remote repo) u) (Some (dpath repo)) (world s)
               = (i, w') ->
               ret i <> 0%Z ->
               exists s',
                 _registered_remote ub_cmd repo false s
                 = (Raise (ShellException (remote_add (remote repo) u) i), s')
                 /\ logged_cmds (mem s')
                    = (logged_cmds (mem s)
                       ++ [(remote_add (remote repo) u, Some (dpath repo))])%list)
        /\ (forall dry s',
               _registered_remote ub_cmd repo dry s = (Ok None, s') ->
               dry = false
               /\ registered repo (world s') (remote repo) = false)
        /\ (forall v s',
               _registered_remote ub_cmd repo false s = (Ok v, s') ->
               v = if registered repo (world s') (remote repo)
                   then Some (remote repo) else None)).
Proof.
  split.
  - intros ub_cmd repo s.
    pose proof (q_registered_remote_dry ub_cmd repo
                  (frame (dpath repo) (world s) (logged_cmds (mem s)) false)
                  (frame_lines _ _ _ _) (frame_cache _ _ _ _) s) as H.
    unfold frame in H.
    destruct (_registered_remote ub_cmd repo true s) as [[a|e] s'];
      (destruct H as [(Hw & Hc & _) _];
       [repeat split; auto; discriminate|split; assumption]).
  - intros ub_cmd repo s Ho Hin Hr. split; [|split; [|split; [|split]]].
    + now apply registered_remote_dry_raises.
    + now apply registered_remote_adds.
    + intros pre u post i w' Hrem Hpre Hcmd Hret.
      eapply registered_remote_add_fails; eauto.
    + intros dry s' H. split; [eapply registered_remote_none; eauto|].
      pose proof (registered_remote_returns _ _ _ _ _ _ H) as Hv.
      destruct (registered repo (world s') (remote repo));
        [discriminate|reflexivity].
    + intros v s' H. exact (registered_remote_returns _ _ _ _ _ _ H).
Qed.

Lemma registered_remote_unregistered_witness :
  let s := {| mem := fresh; world := unregistered_world |} in
  (exists s',
      _registered_remote inert_cmd ubelt true s = (Raise dry_mode_error, s')
      /\ no_command s s')
  /\ (exists s',
         _registered_remote failing_cmd ubelt false s
         = (Raise (ShellException
                     "git remote add origin https://github.com/Erotemic/ubelt.git"
                     {| out := ""; err := "fatal"; ret := 128 |}), s')
         /\ logged_cmds (mem s')
            = [("git remote add origin https://github.com/Erotemic/ubelt.git",
                Some "/code/ubelt")])
  /\ fst (_registered_remote inert_cmd ubelt false s) = Ok None.
Proof.
  intros s.
  assert (Ho : opens ubelt s) by (right; split; reflexivity).
  assert (Hin : In (remote ubelt) (keys (remotes ubelt))) by (simpl; auto).
  split; [|split].
  - exact (proj1 (proj2 registered_remote_unregistered inert_cmd ubelt s
                    Ho Hin eq_refl)).
  - refine (proj1 (proj2 (proj2 (proj2 registered_remote_unregistered
                                   failing_cmd ubelt s Ho Hin eq_refl)))
              [] _ [] _ _ eq_refl eq_refl eq_refl _).
    discriminate.
  - reflexivity.
Defined.

(** ** The desired state *)

Section Desired.
Variable ub_cmd : string -> option string -> Git.World -> CmdInfo * Git.World.
Variable repo : Repo.
Variables (w0 : Git.World) (c0 : list (string * option string)).
Variables (rm : Git.Remote) (b : string) (h : Git.Head) (t : Git.Tracking).

Hypothesis H_exists : Git.path_exists (w0 (dpath repo)) = true.
Hypothesis H_clean : Git.is_dirty (w0 (dpath repo)) = false.
Hypothesis H_remote :
  Git.find_remote (remote repo) (Git.remotes (w0 (dpath repo))) = Some rm.
Hypothesis H_rexists : Git.exists_ rm = true.
Hypothesis H_branch : branch repo = Some b.
Hypothesis H_refs : mem_str b (Git.refs rm) = true.
Hypothesis H_url : mem_str (url repo) (Git.urls rm) = true.
Hypothesis H_head : Git.active_branch (w0 (dpath repo)) = Some h.
Hypothesis H_name : Git.branch_name h = b.
Hypothesis H_track : Git.tracking_branch h = Some t.
Hypothesis H_tremote : Git.remote_name t = remote repo.

Local Abbreviation J := (frame (dpath repo) w0 c0 true).

(** [sure m Q]: on the frame, [m] returns, with a value in [Q]. *)
Definition sure {A} (m : M A) (Q : A -> Prop) : Prop := spec J m Q none.

Lemma sure_bind {A B} (m : M A) (f : A -> M B) Q1 Q :
  sure m Q1 -> (forall a, Q1 a -> sure (f a) Q) -> sure (bind m f) Q.
Proof. apply spec_bind. Qed.

Lemma sure_pure {A} (a : A) (Q : A -> Prop) : Q a -> sure (pure a) Q.
Proof. apply spec_pure. Qed.

Lemma sure_debug msg : sure (debug msg) any.
Proof. apply spec_debug; [apply frame_lines|exact Logic.I]. Qed.

Lemma sure_info msg : sure (info msg) any.
Proof. apply spec_info; [apply frame_lines|exact Logic.I]. Qed.

Lemma sure_pygit : sure (pygit repo) (fun g => g = w0 (dpath repo)).
Proof.
  apply (spec_pygit repo w0 J (frame_world _ _ _ _) (frame_cache _ _ _ _)
           (frame_opens _ _ _)).
  reflexivity.
Qed.

Lemma sure_exists_dpath : sure (exists_dpath repo) (fun ex => ex = true).
Proof.
  apply (spec_exists_dpath repo w0 J (frame_world _ _ _ _)). exact H_exists.
Qed.

Lemma sure_pygit_remote :
  sure (pygit_remote repo (remote repo)) (fun r => r = remote repo).
Proof.
  apply (spec_pygit_remote repo w0 J (frame_world _ _ _ _) (frame_cache _ _ _ _)
           (frame_opens _ _ _)).
  - intros r Hr. rewrite H_remote in Hr. inversion Hr; subst.
    exact (find_remote_name _ _ _ H_remote).
  - rewrite H_remote. discriminate.
Qed.

Lemma sure_remote_read {X} (f : Git.Remote -> X) dflt :
  sure (remote_read repo (remote repo) f dflt) (fun x => x = f rm).
Proof.
  apply (spec_remote_read repo w0 J (frame_world _ _ _ _) (frame_cache _ _ _ _)
           (frame_opens _ _ _)).
  now rewrite H_remote.
Qed.

Lemma sure_try_else {A B} (body : M A) handler (orelse : A -> M B) Q1 Q :
  sure body Q1 -> (forall a, Q1 a -> sure (orelse a) Q) ->
  sure (try_else body handler orelse) Q.
Proof.
  intros Hb Ho. apply (spec_try_else _ _ _ _ Q1 none); auto.
  intros e [].
Qed.

Lemma sure_ensure_head : sure (ensure_head ub_cmd repo false) (fun r => r = false).
Proof.
  unfold ensure_head.
  apply (sure_bind _ _ any); [now apply spec_get_mem|intros m _].
  apply (sure_bind _ _ any).
  { apply spec_when; [exact Logic.I|intros _; apply sure_debug]. }
  intros _ _.
  eapply sure_bind; [apply sure_exists_dpath|]. intros ex ->. simpl.
  apply (sure_bind _ _ any); [now apply sure_pure|intros _ _].
  apply (sure_bind _ _ any); [|intros _ _; now apply sure_pure].
  unfold ensure_clone.
  eapply sure_bind; [apply sure_exists_dpath|]. intros ex ->.
  apply sure_debug.
Qed.

Lemma sure_assert_clean : sure (_assert_clean repo) any.
Proof.
  unfold _assert_clean.
  eapply sure_bind; [apply sure_pygit|]. intros g ->.
  rewrite H_clean. now apply sure_pure.
Qed.

Lemma sure_report_remote : sure (report_remote repo (Some (remote repo))) any.
Proof.
  unfold report_remote.
  apply (sure_try_else _ _ _ any).
  - eapply sure_bind; [apply sure_remote_read|]. intros ex ->.
    rewrite H_rexists. apply sure_debug.
  - intros _ _.
    eapply sure_bind; [apply sure_remote_read|]. intros ex ->.
    rewrite H_rexists. now apply sure_pure.
Qed.

Lemma sure_registered_remote dry :
  sure (_registered_remote ub_cmd repo dry) (fun r => r = Some (remote repo)).
Proof.
  unfold _registered_remote.
  apply (sure_bind _ _ (fun r => r = Some (remote repo))).
  - unfold try_. apply (sure_try_else _ _ _ (fun r => r = Some (remote repo))).
    + eapply sure_bind; [apply sure_pygit_remote|]. intros r ->.
      now apply sure_pure.
    + intros a ->. now apply sure_pure.
  - intros r ->.
    apply (sure_bind _ _ any); [apply sure_report_remote|].
    intros _ _. now apply sure_pure.
Qed.

Lemma sure_ensure_fetch dry : sure (ensure_fetch ub_cmd repo dry (remote repo)) any.
Proof.
  unfold ensure_fetch.
  apply (sure_try_else _ _ _ any).
  - eapply sure_bind; [apply sure_remote_read|]. intros ex ->.
    rewrite H_rexists. apply sure_debug.
  - intros _ _.
    eapply sure_bind; [apply sure_remote_read|]. intros ex ->.
    rewrite H_rexists.
    apply (sure_bind _ _ any); [apply sure_debug|intros _ _].
    eapply sure_bind; [apply sure_remote_read|]. intros names ->.
    unfold branch_not_in. rewrite H_branch, H_refs. now apply sure_pure.
Qed.

Lemma sure_ensure_url dry : sure (ensure_url ub_cmd repo dry (remote repo)) any.
Proof.
  unfold ensure_url.
  eapply sure_bind; [apply sure_remote_read|]. intros have ->.
  rewrite H_url. now apply sure_pure.
Qed.

Lemma sure_current_ref :
  sure (current_ref repo) (fun x => x = (true, false, Some t)).
Proof.
  unfold current_ref.
  apply (sure_try_else _ _ _ (fun x => x = h)).
  - eapply sure_bind; [apply sure_pygit|]. intros g ->.
    rewrite H_head. now apply sure_pure.
  - intros a ->. apply sure_pure.
    rewrite H_branch, H_name, H_track, String.eqb_refl. reflexivity.
Qed.

Lemma sure_ensure_remote dry : sure (ensure_remote ub_cmd repo dry (remote repo)) any.
Proof.
  unfold ensure_remote.
  apply (sure_bind _ _ any); [apply sure_ensure_fetch|intros _ _].
  apply (sure_bind _ _ any); [apply sure_ensure_url|intros _ _].
  eapply sure_bind; [apply sure_current_ref|]. intros x ->.
  cbn [negb when].
  apply (sure_bind _ _ any); [now apply sure_pure|intros _ _].
  unfold needs_upstream. rewrite H_tremote, String.eqb_refl.
  now apply sure_pure.
Qed.

Lemma sure_ensure_report : sure (ensure_report repo) any.
Proof.
  unfold ensure_report.
  eapply sure_bind; [apply sure_pygit|]. intros g ->.
  apply (sure_bind _ _ any).
  - unfold try_. apply (sure_try_else _ _ _ any).
    + eapply sure_bind; [apply sure_pygit|]. intros g ->.
      rewrite H_head. apply sure_debug.
    + intros ? _. now apply sure_pure.
  - intros ? _.
    apply spec_when; [exact Logic.I|intros _; apply sure_debug].
Qed.

Lemma sure_ensure : sure (ensure ub_cmd repo false) any.
Proof.
  unfold ensure.
  eapply sure_bind; [apply sure_ensure_head|]. intros r ->.
  unfold ensure_body.
  apply (sure_bind _ _ any); [apply sure_assert_clean|intros _ _].
  eapply sure_bind; [apply sure_registered_remote|]. intros r ->.
  apply (sure_bind _ _ any); [apply sure_ensure_remote|intros _ _].
  apply sure_ensure_report.
Qed.

End Desired.

(** ** A branch that the remote is not known to have *)

Section Stale.
Variable ub_cmd : string -> option string -> Git.World -> CmdInfo * Git.World.
Variable repo : Repo.
Variables (w0 : Git.World) (c0 : list (string * option string)).
Variable rm : Git.Remote.

Hypothesis H_exists : Git.path_exists (w0 (dpath repo)) = true.
Hypothesis H_clean : Git.is_dirty (w0 (dpath repo)) = false.
Hypothesis H_remote :
  Git.find_remote (remote repo) (Git.remotes (w0 (dpath repo))) = Some rm.
Hypothesis H_rexists : Git.exists_ rm = true.
Hypothesis H_stale : branch_not_in repo (Git.refs rm) = true.

Local Abbreviation J := (frame (dpath repo) w0 c0 true).

(** The logged commands once the fetch is logged. *)
Definition fetched : list (string * option string) :=
  (c0 ++ [(("git fetch " ++ remote repo)%string, Some (dpath repo))])%list.

(** [reaches m]: from the frame, [m] logs the fetch as its first command,
    however it ends. *)
Definition reaches {A} (m : M A) : Prop :=
  forall s, J s -> extends fetched (snd (m s)).

Lemma reaches_later {A B} (m : M A) (f : A -> M B) Q1 :
  sure repo w0 c0 m Q1 -> (forall a, Q1 a -> reaches (f a)) ->
  reaches (bind m f).
Proof.
  intros Hm Hf s Hs. specialize (Hm s Hs). unfold bind.
  destruct (m s) as [[a|e] s1]; destruct Hm as [H1 HQ]; [|destruct HQ].
  exact (Hf a HQ s1 H1).
Qed.

Lemma reaches_first {A B} (m : M A) (f : A -> M B) :
  reaches m -> (forall a, quiet (extends fetched) (f a)) ->
  reaches (bind m f).
Proof.
  intros Hm Hf s Hs. specialize (Hm s Hs). unfold bind.
  destruct (m s) as [[a|e] s1]; simpl in Hm; [|exact Hm].
  specialize (Hf a s1 Hm). destruct (f a s1) as [[x|e] s2]; simpl; tauto.
Qed.

Lemma reaches_try_else {A B} (body : M A) handler (orelse : A -> M B) Q1 :
  sure repo w0 c0 body Q1 -> (forall a, Q1 a -> reaches (orelse a)) ->
  reaches (try_else body handler orelse).
Proof.
  intros Hb Ho s Hs. specialize (Hb s Hs). unfold try_else.
  destruct (body s) as [[a|e] s1]; destruct Hb as [H1 HQ]; [|destruct HQ].
  exact (Ho a HQ s1 H1).
Qed.

Lemma reaches_fetch :
  reaches (_cmd ub_cmd repo ("git fetch " ++ remote repo) NoParam NoParam).
Proof.
  intros s (Hw & Hc & _).
  pose proof (cmd_default ub_cmd repo ("git fetch " ++ remote repo) s) as H.
  destruct (ub_cmd ("git fetch " ++ remote repo) (Some (dpath repo)) (world s))
    as [i w'].
  destruct H as (s' & E & Hl & _). rewrite E. simpl.
  exists []. rewrite Hl, Hc. unfold fetched. now rewrite app_nil_r.
Qed.

Lemma stale_registered_remote :
  sure repo w0 c0 (_registered_remote ub_cmd repo false)
    (fun r => r = Some (remote repo)).
Proof.
  unfold _registered_remote.
  apply (sure_bind _ _ _ _ _ (fun r => r = Some (remote repo))).
  - unfold try_. apply (sure_try_else _ _ _ _ _ _ (fun r => r = Some (remote repo))).
    + eapply sure_bind.
      * apply (spec_pygit_remote repo w0 J (frame_world _ _ _ _)
                 (frame_cache _ _ _ _) (frame_opens _ _ _) _
                 (fun r => r = remote repo)).
        -- intros r Hr. rewrite H_remote in Hr. inversion Hr as [Er].
           rewrite <- Er. exact (find_remote_name _ _ _ H_remote).
        -- rewrite H_remote. discriminate.
      * intros r ->. now apply sure_pure.
    + intros a ->. now apply sure_pure.
  - intros r ->.
    apply (sure_bind _ _ _ _ _ any);
      [exact (sure_report_remote repo w0 c0 rm H_remote H_rexists)|].
    intros _ _. now apply sure_pure.
Qed.

Lemma reaches_ensure_fetch : reaches (ensure_fetch ub_cmd repo false (remote repo)).
Proof.
  unfold ensure_fetch.
  apply (reaches_try_else _ _ _ any).
  - eapply sure_bind; [exact (sure_remote_read repo w0 c0 rm H_remote _ _)|].
    intros ex ->. rewrite H_rexists. apply sure_debug.
  - intros _ _.
    eapply reaches_later; [exact (sure_remote_read repo w0 c0 rm H_remote _ _)|].
    intros ex ->. rewrite H_rexists.
    apply (reaches_later _ _ any); [apply sure_debug|intros _ _].
    eapply reaches_later; [exact (sure_remote_read repo w0 c0 rm H_remote _ _)|].
    intros names ->. rewrite H_stale. cbn [when negb].
    apply (reaches_later _ _ any); [apply sure_info|intros _ _].
    apply reaches_first; [apply reaches_fetch|].
    intros _. apply q_info. apply extends_lines.
Qed.

Lemma reaches_ensure : reaches (ensure ub_cmd repo false).
Proof.
  pose proof (extends_lines fetched) as HL.
  pose proof (extends_cache fetched) as HC.
  assert (HM : forall c s0, True -> extends fetched s0 -> extends fetched (with_cmd c s0))
    by (intros c s0 _; apply extends_cmd).
  pose proof (extends_world fetched) as HW.
  unfold ensure.
  eapply reaches_later; [exact (sure_ensure_head ub_cmd repo w0 c0 H_exists)|].
  intros r ->. unfold ensure_body.
  apply (reaches_later _ _ any);
    [exact (sure_assert_clean repo w0 c0 H_clean)|intros _ _].
  eapply reaches_later; [apply stale_registered_remote|]. intros r ->.
  apply reaches_first; [|intros _; now apply q_ensure_report].
  unfold ensure_remote.
  apply reaches_first; [apply reaches_ensure_fetch|intros _].
  apply q_bind; [apply q_ensure_url with (allowed := fun _ => True); auto|intros _].
  apply q_bind; [now apply q_current_ref|intros [[c t] tr]].
  apply q_bind.
  - apply q_when. apply q_ensure_checkout with (allowed := fun _ => True); auto.
  - intros _. apply q_when, q_when.
    apply q_ensure_upstream with (allowed := fun _ => True); auto.
Qed.

End Stale.

(** The desired state of the working copy of [repo]: cloned and readable by
    gitpython, clean, the active remote registered and existing, with the
    declared url and with the declared branch among its known refs, and that
    branch checked out and tracking the active remote. *)
Definition desired (repo : Repo) (s : State) : Prop :=
  let wt := world s (dpath repo) in
  Git.path_exists wt = true /\ opens repo s /\ Git.is_dirty wt = false /\
  exists rm b h t,
    Git.find_remote (remote repo) (Git.remotes wt) = Some rm /\
    Git.exists_ rm = true /\
    mem_str (url repo) (Git.urls rm) = true /\
    branch repo = Some b /\
    mem_str b (Git.refs rm) = true /\
    Git.active_branch wt = Some h /\
    Git.branch_name h = b /\
    Git.tracking_branch h = Some t /\
    Git.remote_name t = remote repo.

Lemma ensure_desired ub_cmd repo s :
  desired repo s ->
  exists s',
    ensure ub_cmd repo false s = (Ok tt, s')
    /\ no_command s s' /\ desired repo s'.
Proof.
  intros (He & Ho & Hd & rm & b & h & t & Hrm & Hre & Hu & Hb & Hrf & Hh & Hn & Ht & Htr).
  pose proof (sure_ensure ub_cmd repo (world s) (logged_cmds (mem s))
                rm b h t He Hd Hrm Hre Hb Hrf Hu Hh Hn Ht Htr s) as H.
  destruct (ensure ub_cmd repo false s) as [[[]|e] s'].
  - destruct H as [(Hw & Hc & Hop) _]; [repeat split; auto|].
    exists s'. split; [reflexivity|]. split; [split; assumption|].
    unfold desired, opens. rewrite Hw.
    split; [exact He|]. split; [exact (Hop eq_refl)|]. split; [exact Hd|].
    exists rm, b, h, t. repeat split; assumption.
  - destruct H as [_ []]. repeat split; auto.
Qed.

(** The desired state as C6 lists it: cloned, clean, the correct remote url,
    the correct branch, the correct upstream tracking. *)
Definition listed (repo : Repo) (s : State) : Prop :=
  let wt := world s (dpath repo) in
  Git.path_exists wt = true /\ opens repo s /\ Git.is_dirty wt = false /\
  exists rm b h t,
    Git.find_remote (remote repo) (Git.remotes wt) = Some rm /\
    Git.exists_ rm = true /\
    mem_str (url repo) (Git.urls rm) = true /\
    branch repo = Some b /\
    Git.active_branch wt = Some h /\
    Git.branch_name h = b /\
    Git.tracking_branch h = Some t /\
    Git.remote_name t = remote repo.

(** The declared branch is among the refs that the working copy has of the
    active remote. *)
Definition branch_known (repo : Repo) (s : State) : Prop :=
  exists rm,
    Git.find_remote (remote repo) (Git.remotes (world s (dpath repo))) = Some rm
    /\ branch_not_in repo (Git.refs rm) = false.

Lemma desired_iff repo s :
  desired repo s <-> listed repo s /\ branch_known repo s.
Proof.
  unfold desired, listed, branch_known, branch_not_in. split.
  - intros (He & Ho & Hd & rm & b & h & t & Hrm & Hre & Hu & Hb & Hrf & Hh & Hn & Ht & Htr).
    split.
    + split; [exact He|]. split; [exact Ho|]. split; [exact Hd|].
      exists rm, b, h, t. repeat split; assumption.
    + exists rm. split; [exact Hrm|]. now rewrite Hb, Hrf.
  - intros [(He & Ho & Hd & rm & b & h & t & Hrm & Hre & Hu & Hb & Hh & Hn & Ht & Htr)
              (rm' & Hrm' & Hk)].
    rewrite Hrm in Hrm'. inversion Hrm'; subst rm'. rewrite Hb in Hk.
    apply negb_false_iff in Hk.
    split; [exact He|]. split; [exact Ho|]. split; [exact Hd|].
    exists rm, b, h, t. repeat split; assumption.
Qed.

Lemma ensure_stale ub_cmd repo s rm :
  Git.path_exists (world s (dpath repo)) = true -> opens repo s ->
  Git.is_dirty (world s (dpath repo)) = false ->
  Git.find_remote (remote repo) (Git.remotes (world s (dpath repo))) = Some rm ->
  Git.exists_ rm = true ->
  branch_not_in repo (Git.refs rm) = true ->
  extends (logged_cmds (mem s)
           ++ [(("git fetch " ++ remote repo)%string, Some (dpath repo))])
    (snd (ensure ub_cmd repo false s)).
Proof.
  intros He Ho Hd Hrm Hre Hst.
  apply (reaches_ensure ub_cmd repo (world s) (logged_cmds (mem s)) rm
           He Hd Hrm Hre Hst).
  split; [reflexivity|]. split; [reflexivity|]. intros _.
  destruct Ho as [Hc|[H1 H2]]; [now left|right; now split].
Qed.

(** A clone of [ubelt] as C6 lists the desired state, on [master] and
    tracking [origin], where the refs known of [origin] have no [master]
    (the branch is gone from the remote). *)
Definition stale_world : Git.World :=
  fun _ =>
    {| Git.path_exists := true;
       Git.is_git_repo := true;
       Git.is_dirty := false;
       Git.remotes := [{| Git.name := "origin"; Git.exists_ := true;
                          Git.urls := ["https://github.com/Erotemic/ubelt.git"];
                          Git.refs := ["main"] |}];
       Git.active_branch := Git.active_branch (ubelt_tree false);
       Git.tags := [];
       Git.head_hexsha := "0a1b2c" |}.

(** C6, as stated, fails: in a state that has all that the claim lists
    (cloned, clean, the declared url, the declared branch checked out and
    tracking the active remote), with a runner whose commands succeed and
    change nothing, [ensure] records [git fetch origin] at the first run and
    again at the second: the list of the second run is not empty. *)
Lemma ensure_refetches_unknown_branch :
  let s := {| mem := fresh; world := stale_world |} in
  let run1 := ensure inert_cmd ubelt false s in
  let run2 := ensure inert_cmd ubelt false (snd run1) in
  listed ubelt s
  /\ fst run1 = Ok tt
  /\ logged_cmds (mem (snd run1)) = [("git fetch origin", Some "/code/ubelt")]
  /\ world (snd run1) = world s
  /\ fst run2 = Ok tt
  /\ logged_cmds (mem (snd run2))
     = (logged_cmds (mem (snd run1)) ++ [("git fetch origin", Some "/code/ubelt")])%list
  /\ logged_cmds (mem (snd run2)) <> logged_cmds (mem (snd run1)).
Proof.
  split.
  { split; [reflexivity|]. split; [right; split; reflexivity|].
    split; [reflexivity|].
    do 4 eexists. repeat split; reflexivity. }
  split; [reflexivity|]. split; [reflexivity|]. split; [reflexivity|].
  split; [reflexivity|]. split; [reflexivity|]. discriminate.
Qed.

(** C6, amended. The desired state in which [ensure] is idempotent is the
    state that C6 lists with, in addition, the declared branch among the
    refs known of the active remote.  From it [ensure] returns and records
    no command, and leaves the repository in that state: a second run in
    succession records no command either.  When the declared branch is not
    among those refs, [ensure] on a clean working copy whose active remote is
    registered records [git fetch] of the remote as its first command,
    whatever the runner does. *)
Theorem ensure_idempotent :
  forall ub_cmd repo s,
    (desired repo s <-> listed repo s /\ branch_known repo s)
    /\ (desired repo s ->
        exists s1 s2,
          ensure ub_cmd repo false s = (Ok tt, s1)
          /\ ensure ub_cmd repo false s1 = (Ok tt, s2)
          /\ no_command s s1
          /\ logged_cmds (mem s2) = logged_cmds (mem s1)
          /\ world s2 = world s1
          /\ desired repo s2)
    /\ (forall rm,
          Git.path_exists (world s (dpath repo)) = true -> opens repo s ->
          Git.is_dirty (world s (dpath repo)) = false ->
          Git.find_remote (remote repo) (Git.remotes (world s (dpath repo)))
          = Some rm ->
          Git.exists_ rm = true ->
          branch_not_in repo (Git.refs rm) = true ->
          exists rest,
            logged_cmds (mem (snd (ensure ub_cmd repo false s)))
            = (logged_cmds (mem s)
               ++ (("git fetch " ++ remote repo)%string, Some (dpath repo))
                  :: rest)%list).
Proof.
  intros ub_cmd repo s. split; [apply desired_iff|]. split.
  - intros H.
    destruct (ensure_desired ub_cmd repo s H) as (s1 & E1 & H1 & D1).
    destruct (ensure_desired ub_cmd repo s1 D1) as (s2 & E2 & [Hc Hw] & D2).
    exists s1, s2.
    split; [exact E1|]. split; [exact E2|]. split; [exact H1|].
    split; [exact Hc|]. split; [exact Hw|exact D2].
  - intros rm He Ho Hd Hrm Hre Hst.
    destruct (ensure_stale ub_cmd repo s rm He Ho Hd Hrm Hre Hst) as (rest & E).
    exists rest. rewrite E. now rewrite <- app_assoc.
Qed.

Lemma ensure_idempotent_witness :
  let s := {| mem := fresh; world := clean_world |} in
  let s' := {| mem := fresh; world := stale_world |} in
  desired ubelt s
  /\ (exists s1 s2,
         ensure inert_cmd ubelt false s = (Ok tt, s1)
         /\ ensure inert_cmd ubelt false s1 = (Ok tt, s2)
         /\ no_command s s1
         /\ logged_cmds (mem s2) = logged_cmds (mem s1)
         /\ world s2 = world s1
         /\ desired ubelt s2)
  /\ exists rest,
      logged_cmds (mem (snd (ensure failing_cmd ubelt false s')))
      = ("git fetch origin", Some "/code/ubelt") :: rest.
Proof.
  intros s s'.
  assert (D : desired ubelt s).
  { split; [reflexivity|]. split; [right; split; reflexivity|].
    split; [reflexivity|].
    do 4 eexists. repeat split; reflexivity. }
  split; [exact D|]. split.
  - exact (proj1 (proj2 (ensure_idempotent inert_cmd ubelt s)) D).
  - exact (proj2 (proj2 (ensure_idempotent failing_cmd ubelt s')) _
             eq_refl (or_intror (conj eq_refl eq_refl)) eq_refl eq_refl
             eq_refl eq_refl).
Defined.

End Engine.

(* ================================================================== *)
(** * The registry *)

Module Batch.
Import Py Repo RepoFacts RepoRegistry Engine.

(** Every logged command has its working directory. *)
Definition cwd_known (m : Mem) : Prop :=
  existsb (fun t : string * option string =>
             match snd t with None => true | Some _ => false end)
    (logged_cmds m) = false.

(** The mutating operations. *)
Inductive Mutating : Type := Pull | Ensure.

Definition method (ub_cmd : string -> option string -> Git.World -> CmdInfo * Git.World)
           (f : Mutating) : Repo -> M unit :=
  match f with
  | Pull => pull ub_cmd
  | Ensure => fun repo => ensure ub_cmd repo false
  end.

Lemma cwd_known_cmd c s :
  snd c <> None -> cwd_known (mem s) -> cwd_known (mem (with_cmd c s)).
Proof.
  unfold cwd_known. simpl. intros Hc Hs. rewrite existsb_app, Hs. simpl.
  destruct (snd c); [reflexivity|now elim Hc].
Qed.

(** A mutating operation logs its commands with their directory, when the
    descriptor has its [code_dpath]. *)
Lemma method_keeps_cwd ub_cmd f repo s :
  code_dpath repo <> None -> cwd_known (mem s) ->
  cwd_known (mem (snd (method ub_cmd f repo s))).
Proof.
  intros Hcode Hs.
  assert (Hq : quiet (fun s => cwd_known (mem s)) (method ub_cmd f repo)).
  { destruct f; simpl;
      [apply q_pull with (allowed := fun c => snd c <> None)
      |apply q_ensure with (allowed := fun c => snd c <> None)];
      auto; try (intros; apply cwd_known_cmd; assumption);
      try (intros; simpl; discriminate). }
  specialize (Hq s Hs).
  destruct (method ub_cmd f repo s) as [[a|e] s']; simpl; tauto.
Qed.

(** A mutating operation stops at the guard on a dirty working copy that
    was there. *)
Lemma method_dirty ub_cmd f repo s :
  Git.path_exists (world s (dpath repo)) = true -> reports_dirty repo s ->
  exists msg s',
    method ub_cmd f repo s = (Raise (DirtyRepoError msg), s')
    /\ no_command s s'.
Proof.
  intros He Hd. destruct f; simpl.
  - now apply pull_dirty.
  - now apply ensure_dirty.
Qed.

(** [pull] on a clean working copy that gitpython opens: it ends as
    [git pull] ends. *)
Lemma pull_succeeds ub_cmd repo s :
  opens repo s -> Git.is_dirty (world s (dpath repo)) = false ->
  ret (fst (ub_cmd "git pull" (Some (dpath repo)) (world s))) = 0%Z ->
  exists s',
    pull ub_cmd repo s = (Ok tt, s')
    /\ world s' = snd (ub_cmd "git pull" (Some (dpath repo)) (world s)).
Proof.
  intros Ho Hd Hret.
  destruct (pygit_opens _ _ Ho) as (s1 & Ep & [Hc Hw] & Hp).
  pose proof (cmd_default ub_cmd repo "git pull" s1) as H.
  rewrite Hw in H.
  destruct (ub_cmd "git pull" (Some (dpath repo)) (world s)) as [i w'].
  simpl in Hret. destruct H as (s2 & E & _ & Hw2 & _).
  rewrite Hret in E. simpl in E.
  exists s2. split; [|exact Hw2].
  unfold pull, _assert_clean. unfold bind at 1 2. rewrite Ep, Hd.
  unfold pure at 1. unfold bind. now rewrite E.
Qed.

(** What [apply] makes of [[A; B]] once [A] was passed over. *)
Lemma apply_after_dirty func A B w msg A' :
  call func A w = (Raise (DirtyRepoError msg), A', w) ->
  cwd_known (snd A') ->
  (forall B' w',
      call func B w = (Ok tt, B', w') -> cwd_known (snd B') ->
      apply func [A; B] w = (Ok [A'; B'], [A'; B'], w'))
  /\ (forall e B' w',
         call func B w = (Raise e, B', w') ->
         (forall m, e <> DirtyRepoError m) ->
         apply func [A; B] w = (Raise e, [A'; B'], w')).
Proof.
  intros EA HkA. split.
  - intros B' w' HB HkB'.
    unfold apply. cbn [apply_loop]. rewrite EA. cbn [app]. rewrite HB.
    cbn [apply_loop app]. unfold show_cmdlog. cbn [existsb snd].
    unfold cwd_known in HkA, HkB'. now rewrite HkA, HkB'.
  - intros e B' w' HB He.
    unfold apply. cbn [apply_loop]. rewrite EA. cbn [app]. rewrite HB.
    destruct e; try reflexivity. exfalso. eapply He. reflexivity.
Qed.

(** A clean clone next to the dirty one of [ubelt], of a second
    repository. *)
Definition netharn : Repo :=
  {| name := "netharn";
     dpath := "/code/netharn";
     code_dpath := Some "/code";
     remotes := [("origin", "https://github.com/Erotemic/ubelt.git")];
     remote := "origin";
     branch := Some "master";
     url := "https://github.com/Erotemic/ubelt.git";
     pkg_dpath := "/code/netharn/netharn" |}.

Definition two_clones : Git.World :=
  fun p => if String.eqb p "/code/ubelt" then ubelt_tree true else ubelt_tree false.

(** C4, as stated, fails: [B] clean is not enough for the batch to return.
    Over the dirty clone of [ubelt] and the clean clone of [netharn], with
    a runner whose commands fail, the DirtyRepoError of the first is passed
    over and [git pull] is run on the second; its ShellException is not
    caught, and [apply] raises it. *)
Lemma apply_raises_after_dirty :
  let A := (ubelt, fresh) in
  let B := (netharn, fresh) in
  let run := apply (method failing_cmd Pull) [A; B] two_clones in
  reports_dirty ubelt {| mem := fresh; world := two_clones |}
  /\ Git.is_dirty (two_clones (dpath netharn)) = false
  /\ fst (fst run)
     = Raise (ShellException "git pull" {| out := ""; err := "fatal"; ret := 128 |})
  /\ map (fun o : RepoObj => logged_cmds (snd o)) (snd (fst run))
     = [[]; [("git pull", Some "/code/netharn")]].
Proof.
  split; [split; [right; split; reflexivity|reflexivity]|].
  split; [reflexivity|]. split; reflexivity.
Qed.

(** C4, amended. Sequential [apply] of a mutating operation over [[A; B]],
    where the working copy of [A] is there and dirty: the DirtyRepoError of
    [A] is caught and a line is printed for it, [A] records no command, and
    the operation is run on [B] in the world [A] left untouched; [apply]
    ends as the operation on [B] ends.  When it returns, both are in
    [processed_repos] and [apply] returns; so it is for [pull] on a clean
    [B] whose [git pull] succeeds, and for [ensure] on a [B] in the desired
    state.  When it raises another error than DirtyRepoError, [apply] raises
    it.  The descriptors are those of [make_registry] (they have a
    [code_dpath]) and no command logged before lacks its directory, which the
    listing of the logged commands needs. *)
Theorem apply_skips_dirty :
  forall ub_cmd f A B w,
    Git.path_exists (w (dpath (fst A))) = true ->
    reports_dirty (fst A) {| mem := snd A; world := w |} ->
    code_dpath (fst B) <> None -> cwd_known (snd A) -> cwd_known (snd B) ->
    exists msg A',
      call (method ub_cmd f) A w = (Raise (DirtyRepoError msg), A', w)
      /\ fst A' = fst A
      /\ logged_cmds (snd A') = logged_cmds (snd A)
      /\ (exists rest,
             apply_loop_prints (method ub_cmd f) [A; B] w
             = ("--- REPO = " ++ nice (fst A) ++ " ---")
               :: ("Ignoring dirty repo=" ++ nice (fst A))
               :: ("--- REPO = " ++ nice (fst B) ++ " ---") :: rest)
      /\ (forall B' w',
             call (method ub_cmd f) B w = (Ok tt, B', w') ->
             apply (method ub_cmd f) [A; B] w = (Ok [A'; B'], [A'; B'], w')
             /\ apply_loop_prints (method ub_cmd f) [A; B] w
                = ["--- REPO = " ++ nice (fst A) ++ " ---";
                   "Ignoring dirty repo=" ++ nice (fst A);
                   "--- REPO = " ++ nice (fst B) ++ " ---"])
      /\ (forall e B' w',
             call (method ub_cmd f) B w = (Raise e, B', w') ->
             (forall m, e <> DirtyRepoError m) ->
             apply (method ub_cmd f) [A; B] w = (Raise e, [A'; B'], w'))
      /\ (f = Pull ->
          opens (fst B) {| mem := snd B; world := w |} ->
          Git.is_dirty (w (dpath (fst B))) = false ->
          ret (fst (ub_cmd "git pull" (Some (dpath (fst B))) w)) = 0%Z ->
          exists B',
            apply (method ub_cmd f) [A; B] w
            = (Ok [A'; B'], [A'; B'],
               snd (ub_cmd "git pull" (Some (dpath (fst B))) w)))
      /\ (f = Ensure ->
          desired (fst B) {| mem := snd B; world := w |} ->
          exists B',
            apply (method ub_cmd f) [A; B] w = (Ok [A'; B'], [A'; B'], w)
            /\ logged_cmds (snd B') = logged_cmds (snd B)).
Proof.
  intros ub_cmd f A B w He Hd Hcode HkA HkB.
  destruct (method_dirty ub_cmd f (fst A) {| mem := snd A; world := w |} He Hd)
    as (msg & s' & E & Hc & Hw).
  simpl in Hc, Hw.
  assert (EA : call (method ub_cmd f) A w
               = (Raise (DirtyRepoError msg), (fst A, mem s'), w)).
  { unfold call. rewrite E. now rewrite Hw. }
  assert (HkA' : cwd_known (snd (fst A, mem s'))).
  { unfold cwd_known in *. simpl. now rewrite Hc. }
  assert (HkB' : forall r B' w',
             call (method ub_cmd f) B w = (r, B', w') -> cwd_known (snd B')).
  { intros r B' w' HB.
    pose proof (method_keeps_cwd ub_cmd f (fst B)
                  {| mem := snd B; world := w |} Hcode HkB) as Hk.
    unfold call in HB.
    destruct (method ub_cmd f (fst B) {| mem := snd B; world := w |})
      as [r2 s2]. inversion HB; subst. exact Hk. }
  destruct (apply_after_dirty _ A B w msg _ EA HkA') as [Hok Hraise].
  exists msg, (fst A, mem s'). split; [exact EA|]. split; [reflexivity|].
  split; [exact Hc|]. split; [|split; [|split; [|split]]].
  - cbn [apply_loop_prints]. rewrite EA.
    destruct (call (method ub_cmd f) B w) as [[r B'] w'].
    eexists. reflexivity.
  - intros B' w' HB. split; [exact (Hok B' w' HB (HkB' _ _ _ HB))|].
    cbn [apply_loop_prints]. rewrite EA, HB. reflexivity.
  - exact Hraise.
  - intros -> Ho Hclean Hret.
    destruct (pull_succeeds ub_cmd (fst B) {| mem := snd B; world := w |}
                Ho Hclean Hret) as (s2 & E2 & Hw2).
    assert (HB : call (method ub_cmd Pull) B w
                 = (Ok tt, (fst B, mem s2),
                    snd (ub_cmd "git pull" (Some (dpath (fst B))) w))).
    { unfold call. simpl. rewrite E2. simpl in Hw2. now rewrite Hw2. }
    exists (fst B, mem s2). exact (Hok _ _ HB (HkB' _ _ _ HB)).
  - intros -> HD.
    destruct (ensure_desired ub_cmd (fst B) {| mem := snd B; world := w |} HD)
      as (s2 & E2 & [Hc2 Hw2] & _).
    assert (HB : call (method ub_cmd Ensure) B w = (Ok tt, (fst B, mem s2), w)).
    { unfold call. simpl. rewrite E2. simpl in Hw2. now rewrite Hw2. }
    exists (fst B, mem s2). split; [exact (Hok _ _ HB (HkB' _ _ _ HB))|exact Hc2].
Qed.

Lemma apply_skips_dirty_witness :
  exists msg A' B' w',
    call (method inert_cmd Pull) (ubelt, fresh) two_clones
    = (Raise (DirtyRepoError msg), A', two_clones)
    /\ call (method inert_cmd Pull) (netharn, fresh) two_clones = (Ok tt, B', w')
    /\ logged_cmds (snd B') = [("git pull", Some "/code/netharn")]
    /\ apply (method inert_cmd Pull) [(ubelt, fresh); (netharn, fresh)] two_clones
       = (Ok [A'; B'], [A'; B'], w')
    /\ apply_loop_prints (method inert_cmd Pull)
         [(ubelt, fresh); (netharn, fresh)] two_clones
       = ["--- REPO = <Repo(ubelt, branch=master)> ---";
          "Ignoring dirty repo=<Repo(ubelt, branch=master)>";
          "--- REPO = <Repo(netharn, branch=master)> ---"].
Proof.
  destruct (apply_skips_dirty inert_cmd Pull (ubelt, fresh) (netharn, fresh)
              two_clones eq_refl
              (conj (or_intror (conj eq_refl eq_refl)) eq_refl))
    as (msg & A' & EA & _ & _ & _ & Hok & _).
  - discriminate.
  - reflexivity.
  - reflexivity.
  - exists msg, A'. do 2 eexists.
    split; [exact EA|]. split; [reflexivity|]. split; [reflexivity|].
    exact (Hok _ _ eq_refl).
Defined.

End Batch.

(* ================================================================== *)
(** * upgrade: the choice of the dev branch *)

Module Upgrade.
Import Py Repo RepoFacts Engine.
Local Open Scope py_scope.

Lemma tuple_eqb_eq a : forall b, tuple_eqb a b = true <-> a = b.
Proof.
  induction a as [|x a IH]; intros [|y b]; simpl; split; intros H;
    try reflexivity; try discriminate.
  - apply andb_true_iff in H. destruct H as [Hx Ha].
    apply Z.eqb_eq in Hx. apply IH in Ha. now subst.
  - inversion H; subst. rewrite Z.eqb_refl. simpl. now apply IH.
Qed.

Lemma tuple_lt_irrefl a : tuple_lt a a = false.
Proof.
  induction a as [|x a IH]; simpl; [reflexivity|].
  rewrite Z.ltb_irrefl, Z.eqb_refl, IH. reflexivity.
Qed.

Lemma tuple_lt_trans a : forall b c,
  tuple_lt a b = true -> tuple_lt b c = true -> tuple_lt a c = true.
Proof.
  induction a as [|x a IH]; intros [|y b] [|z c]; simpl; intros H1 H2;
    try reflexivity; try discriminate.
  apply orb_true_iff in H1. apply orb_true_iff in H2. apply orb_true_iff.
  destruct H1 as [H1|H1]; destruct H2 as [H2|H2].
  - left. apply Z.ltb_lt in H1, H2. apply Z.ltb_lt. lia.
  - apply andb_true_iff in H2. destruct H2 as [H2 _].
    apply Z.eqb_eq in H2. subst. now left.
  - apply andb_true_iff in H1. destruct H1 as [H1 _].
    apply Z.eqb_eq in H1. subst. now left.
  - apply andb_true_iff in H1. destruct H1 as [H1 H1'].
    apply andb_true_iff in H2. destruct H2 as [H2 H2'].
    apply Z.eqb_eq in H1, H2. subst. right. rewrite Z.eqb_refl. simpl.
    eapply IH; eauto.
Qed.

Lemma tuple_lt_total a : forall b,
  tuple_lt a b = false -> tuple_lt b a = true \/ a = b.
Proof.
  induction a as [|x a IH]; intros [|y b]; simpl; intros H;
    try discriminate; auto.
  apply orb_false_iff in H. destruct H as [H1 H2].
  apply Z.ltb_ge in H1.
  destruct (Z.eq_dec x y) as [->|Hne].
  - rewrite Z.eqb_refl in H2. simpl in H2.
    destruct (IH _ H2) as [Hlt| ->]; [|now right].
    left. rewrite Z.eqb_refl, Hlt. apply orb_true_r.
  - left. apply orb_true_iff. left. apply Z.ltb_lt. lia.
Qed.

(** [max] returns an element that none exceeds. *)
Lemma max_from_spec xs : forall best,
  In (max_from best xs) (best :: xs)
  /\ forall x, In x (best :: xs) -> tuple_lt (max_from best xs) x = false.
Proof.
  induction xs as [|y xs IH]; intros best; simpl.
  - split; [now left|]. intros x [<-|[]]. apply tuple_lt_irrefl.
  - destruct (IH (if tuple_lt best y then y else best)) as [Hin Hmax].
    set (m := max_from (if tuple_lt best y then y else best) xs) in *.
    split.
    + destruct Hin as [Hin|Hin]; [|now right; right].
      destruct (tuple_lt best y); [right; now left|now left].
    + assert (Hb : tuple_lt m (if tuple_lt best y then y else best) = false)
        by (apply Hmax; now left).
      intros x [<-|[<-|Hx]].
      * destruct (tuple_lt best y) eqn:E; [|exact Hb].
        destruct (tuple_lt m best) eqn:E'; [|reflexivity].
        now rewrite (tuple_lt_trans _ _ _ E' E) in Hb.
      * destruct (tuple_lt best y) eqn:E; [exact Hb|].
        destruct (tuple_lt m y) eqn:E'; [|reflexivity].
        destruct (tuple_lt_total _ _ E) as [Hlt| ->];
          [now rewrite (tuple_lt_trans _ _ _ E' Hlt) in Hb|congruence].
      * apply Hmax. now right.
Qed.

Lemma index_spec v xs : forall i,
  index v xs = Some i -> nth_error xs i = Some v.
Proof.
  induction xs as [|x xs IH]; intros i H; simpl in H; [discriminate|].
  destruct (tuple_eqb x v) eqn:E.
  - inversion H; subst. apply tuple_eqb_eq in E. now subst.
  - destruct (index v xs) as [j|]; [|discriminate].
    inversion H; subst. simpl. now apply IH.
Qed.

Lemma index_found v xs : In v xs -> index v xs <> None.
Proof.
  induction xs as [|x xs IH]; simpl; [intros []|].
  intros [->|H].
  - assert (E : tuple_eqb v v = true) by now apply tuple_eqb_eq.
    rewrite E. discriminate.
  - destruct (tuple_eqb x v); [discriminate|].
    destruct (index v xs); [discriminate|]. now elim (IH H).
Qed.

Lemma argmax_spec xs i :
  argmax xs = Some i ->
  exists v, nth_error xs i = Some v /\ forall x, In x xs -> tuple_lt v x = false.
Proof.
  unfold argmax, max. destruct xs as [|x xs]; [discriminate|].
  intros H. exists (max_from x xs). split; [now apply index_spec|].
  apply max_from_spec.
Qed.

Lemma argmax_some xs : xs <> [] -> argmax xs <> None.
Proof.
  unfold argmax, max. destruct xs as [|x xs]; [intros H; now elim H|].
  intros _. apply index_found. apply max_from_spec.
Qed.

(** The two lists of the loop: the names that parse, with their tuples. *)
Lemma dev_versions_spec l :
  let (bs, ts) := dev_versions l in
  map version_tuple bs = map Some ts
  /\ (forall b, In b bs <-> In b l /\ version_tuple b <> None).
Proof.
  induction l as [|r l IH]; simpl.
  - split; [reflexivity|]. intros b. split; [intros []|intros [[] _]].
  - destruct (dev_versions l) as [bs ts]. destruct IH as [Hmap Hin].
    destruct (version_tuple r) as [tup|] eqn:E.
    + split; [simpl; now rewrite E, Hmap|].
      intros b. simpl. rewrite Hin. split.
      * intros [<-|[H1 H2]]; [split; [now left|congruence]|split; [now right|exact H2]].
      * intros [[<-|H1] H2]; [now left|right; split; assumption].
    + split; [exact Hmap|].
      intros b. rewrite Hin. split.
      * intros [H1 H2]. split; [now right|exact H2].
      * intros [[<-|H1] H2]; [congruence|split; assumption].
Qed.

Lemma map_nth_error_inv {X Y} (f : X -> Y) l i y :
  nth_error (map f l) i = Some y -> exists x, nth_error l i = Some x /\ f x = y.
Proof.
  revert i. induction l as [|a l IH]; intros [|i]; simpl; try discriminate.
  - intros H. inversion H. eauto.
  - apply IH.
Qed.

(** What [upgrade] selects: a dev branch whose tuple none exceeds. *)
Lemma latest_dev_branch_spec refs b :
  latest_dev_branch refs = Some b ->
  In b refs /\ Str.startswith "dev/" b = true /\
  exists tup,
    version_tuple b = Some tup /\
    forall b' tup',
      In b' refs -> Str.startswith "dev/" b' = true ->
      version_tuple b' = Some tup' -> tuple_lt tup tup' = false.
Proof.
  unfold latest_dev_branch.
  pose proof (dev_versions_spec (filter (Str.startswith "dev/") refs)) as Hs.
  destruct (dev_versions (filter (Str.startswith "dev/") refs)) as [bs ts].
  destruct Hs as [Hmap Hin].
  destruct (argmax ts) as [i|] eqn:Ea; [|discriminate].
  intros Hb. destruct (argmax_spec _ _ Ea) as (v & Hv & Hmax).
  assert (Hbv : version_tuple b = Some v).
  { pose proof (map_nth_error version_tuple i bs Hb) as H1.
    rewrite Hmap in H1. rewrite (map_nth_error Some i ts Hv) in H1.
    now inversion H1. }
  pose proof (nth_error_In _ _ Hb) as Hbin. apply Hin in Hbin.
  destruct Hbin as [Hbf _]. apply filter_In in Hbf. destruct Hbf as [Hr Hd].
  split; [exact Hr|]. split; [exact Hd|].
  exists v. split; [exact Hbv|].
  intros b' tup' Hr' Hd' Ht'. apply Hmax.
  assert (Hb' : In b' bs).
  { apply Hin. split; [apply filter_In; auto|congruence]. }
  apply (in_map version_tuple) in Hb'. rewrite Hmap, Ht' in Hb'.
  apply in_map_iff in Hb'. destruct Hb' as (x & Hx & Hxin).
  now inversion Hx; subst.
Qed.

(** A branch is selected as soon as one dev branch parses. *)
Lemma latest_dev_branch_some refs b' :
  In b' refs -> Str.startswith "dev/" b' = true -> version_tuple b' <> None ->
  latest_dev_branch refs <> None.
Proof.
  intros Hr Hd Ht. unfold latest_dev_branch.
  pose proof (dev_versions_spec (filter (Str.startswith "dev/") refs)) as Hs.
  destruct (dev_versions (filter (Str.startswith "dev/") refs)) as [bs ts].
  destruct Hs as [Hmap Hin].
  assert (Hb' : In b' bs) by (apply Hin; split; [apply filter_In; auto|auto]).
  assert (Hts : ts <> []).
  { intros ->. destruct bs; [exact Hb'|discriminate]. }
  pose proof (argmax_some ts Hts) as Ha.
  destruct (argmax ts) as [i|] eqn:Ea; [|now elim Ha].
  destruct (argmax_spec _ _ Ea) as (v & Hv & _).
  apply (map_nth_error Some) in Hv. rewrite <- Hmap in Hv.
  destruct (map_nth_error_inv _ _ _ _ Hv) as (x & Hx & _). congruence.
Qed.

(** [xs.index(v)] is the first position of [v]. *)
Lemma index_first v xs : forall i,
  index v xs = Some i ->
  exists pre post, xs = (pre ++ v :: post)%list /\ List.length pre = i /\ ~ In v pre.
Proof.
  induction xs as [|x xs IH]; intros i H; simpl in H; [discriminate|].
  destruct (tuple_eqb x v) eqn:E.
  - inversion H; subst. apply tuple_eqb_eq in E. subst x.
    exists [], xs. repeat split. intros [].
  - destruct (index v xs) as [j|]; [|discriminate].
    inversion H; subst. destruct (IH j eq_refl) as (pre & post & -> & Hl & Hn).
    exists (x :: pre), post. split; [reflexivity|]. split; [simpl; now rewrite Hl|].
    intros [->|Hin]; [|now elim Hn].
    assert (E' : tuple_eqb v v = true) by now apply tuple_eqb_eq.
    congruence.
Qed.

(** The names before a place in a filtered list are those kept of the names
    before that place in the list. *)
Lemma filter_split {X} (f : X -> bool) (l : list X) : forall l1 x l2,
  filter f l = (l1 ++ x :: l2)%list ->
  exists p q, l = (p ++ x :: q)%list /\ filter f p = l1 /\ filter f q = l2.
Proof.
  induction l as [|a l IH]; intros l1 x l2 H; simpl in H.
  - destruct l1; discriminate.
  - destruct (f a) eqn:Ea.
    + destruct l1 as [|b l1]; simpl in H; injection H as Ha Hl.
      * subst x l2. exists [], l. repeat split.
      * subst b. destruct (IH _ _ _ Hl) as (p & q & -> & Hp & Hq).
        exists (a :: p), q. split; [reflexivity|]. split; [|exact Hq].
        simpl. now rewrite Ea, Hp.
    + destruct (IH _ _ _ H) as (p & q & -> & Hp & Hq).
      exists (a :: p), q. split; [reflexivity|]. split; [|exact Hq].
      simpl. now rewrite Ea.
Qed.

Definition parses (ref : string) : bool :=
  match version_tuple ref with Some _ => true | None => false end.

Lemma dev_versions_fst l : fst (dev_versions l) = filter parses l.
Proof.
  induction l as [|r l IH]; simpl; [reflexivity|].
  destruct (dev_versions l) as [bs ts]. simpl in IH. unfold parses at 1.
  destruct (version_tuple r); simpl; now rewrite IH.
Qed.

Lemma app_eq_length {X} (l1 : list X) : forall l1' l2 l2',
  List.length l1 = List.length l1' -> (l1 ++ l2 = l1' ++ l2')%list ->
  l1 = l1' /\ l2 = l2'.
Proof.
  induction l1 as [|a l1 IH]; intros [|b l1'] l2 l2' Hl H; simpl in *;
    try discriminate; [now split|].
  inversion H; subst. destruct (IH _ _ _ (eq_add_S _ _ Hl) H2) as [-> ->].
  now split.
Qed.

(** Among the dev branches whose tuple none exceeds, [upgrade] selects the
    first of the list: every dev branch before it has a smaller tuple. *)
Lemma latest_dev_branch_first refs b :
  latest_dev_branch refs = Some b ->
  exists pre post tup,
    refs = (pre ++ b :: post)%list /\
    version_tuple b = Some tup /\
    forall b' tup',
      In b' pre -> Str.startswith "dev/" b' = true ->
      version_tuple b' = Some tup' -> tuple_lt tup' tup = true.
Proof.
  unfold latest_dev_branch.
  pose proof (dev_versions_spec (filter (Str.startswith "dev/") refs)) as Hs.
  pose proof (dev_versions_fst (filter (Str.startswith "dev/") refs)) as Hf.
  destruct (dev_versions (filter (Str.startswith "dev/") refs)) as [bs ts].
  simpl in Hf. destruct Hs as [Hmap _].
  unfold argmax. destruct (max ts) as [v|] eqn:Em; [|discriminate].
  destruct (index v ts) as [i|] eqn:Ei; [|discriminate].
  intros Hb.
  assert (Hmax : forall x, In x ts -> tuple_lt v x = false).
  { unfold max in Em. destruct ts as [|x ts]; [discriminate|].
    inversion Em; subst v. apply max_from_spec. }
  destruct (index_first _ _ _ Ei) as (tpre & tpost & Ets & Hlen & Hnot).
  destruct (nth_error_split _ _ Hb) as (bpre & bpost & Ebs & Hblen).
  rewrite Ebs, Ets in Hmap. rewrite !map_app in Hmap. simpl in Hmap.
  assert (Hl : List.length (map version_tuple bpre) = List.length (map Some tpre))
    by (rewrite !length_map; congruence).
  destruct (app_eq_length _ _ _ _ Hl Hmap) as [Hpre Hrest].
  injection Hrest as Hbv _.
  rewrite Ebs in Hf. symmetry in Hf.
  destruct (filter_split _ _ _ _ _ Hf) as (p1 & q1 & E1 & Hp1 & _).
  destruct (filter_split _ _ _ _ _ E1) as (pre & post & E2 & Hp2 & _).
  exists pre, post, v. split; [exact E2|]. split; [exact Hbv|].
  intros b' tup' Hin Hd Ht.
  assert (Hb' : In b' bpre).
  { rewrite <- Hp1. apply filter_In. split.
    - rewrite <- Hp2. apply filter_In. now split.
    - unfold parses. now rewrite Ht. }
  assert (Ht' : In tup' tpre).
  { apply (in_map version_tuple) in Hb'. rewrite Hpre, Ht in Hb'.
    apply in_map_iff in Hb'. destruct Hb' as (x & Hx & Hxin).
    now inversion Hx; subst. }
  assert (Hle : tuple_lt v tup' = false).
  { apply Hmax. rewrite Ets. apply in_or_app. now left. }
  destruct (tuple_lt_total _ _ Hle) as [Hlt| ->]; [exact Hlt|now elim Hnot].
Qed.

(** ** The text that is parsed *)

Lemma split_plain sep : forall s cur,
  Str.contains sep s = false ->
  split_aux sep 0 cur s = [cur ++ s].
Proof.
  induction s as [|c s IH]; intros cur H.
  - simpl. now rewrite StrFacts.append_nil_r.
  - cbn [Str.contains] in H. apply orb_false_iff in H. destruct H as [Hp Hc].
    cbn [split_aux]. rewrite Hp. rewrite (IH _ Hc).
    now rewrite StrFacts.append_assoc.
Qed.

(** For a name [dev/<suffix>] with no further [dev/] in the suffix, the
    tuple is that of the suffix split at the dots. *)
Lemma version_tuple_plain suffix :
  Str.contains "dev/" suffix = false ->
  version_tuple ("dev/" ++ suffix) = map_int (split "." suffix).
Proof.
  intros H. unfold version_tuple, split.
  assert (E : split_aux "dev/" 0 "" ("dev/" ++ suffix)
              = "" :: split_aux "dev/" 0 "" suffix).
  { destruct suffix; reflexivity. }
  rewrite E, (split_plain _ _ _ H). reflexivity.
Qed.

(** ** The run of [upgrade] *)

Lemma spec_run {A} (I : State -> Prop) (m : M A) Q s :
  spec I m Q none -> I s -> exists a s', m s = (Ok a, s') /\ I s' /\ Q a.
Proof.
  intros H Hs. specialize (H s Hs). destruct (m s) as [[a|e] s'].
  - exists a, s'. tauto.
  - destruct H as [_ []].
Qed.

Section Run.
Variable ub_cmd : string -> option string -> Git.World -> CmdInfo * Git.World.
Variable repo : Repo.

(** A command on a settled state. *)
Lemma cmd_run command w cs i w' s :
  ub_cmd command (Some (dpath repo)) w = (i, w') ->
  settled w cs s ->
  exists s',
    _cmd ub_cmd repo command NoParam NoParam s
    = (if (ret i =? 0)%Z then Ok i else Raise (ShellException command i), s')
    /\ settled w' (cs ++ [(command, Some (dpath repo))]) s'.
Proof.
  intros Hcmd (Hw & Hc & Hp).
  pose proof (cmd_default ub_cmd repo command s) as H.
  rewrite Hw, Hcmd in H. destruct H as (s' & E & Hl & Hw' & Hp').
  exists s'. split; [exact E|]. repeat split; congruence.
Qed.

Lemma st_report_remote w cs rm :
  Git.find_remote (remote repo) (Git.remotes (w (dpath repo))) = Some rm ->
  spec (settled w cs) (report_remote repo (Some (remote repo))) any none.
Proof.
  intros Hrm. unfold report_remote.
  pose proof (settled_world w cs) as HW.
  pose proof (settled_lines w cs) as HL.
  pose proof (settled_cache w cs) as HC.
  pose proof (settled_opens (dpath repo) w cs) as HO.
  apply (spec_try_else _ _ _ _ any (fun e => e = IndexError)).
  - eapply spec_bind.
    + apply (spec_remote_read repo w _ HW HC HO _ _ _ (fun _ => True)). exact Logic.I.
    + intros ex _. destruct (negb ex); [now apply spec_raise|].
      now apply spec_debug.
  - intros e ->. simpl. now apply spec_debug.
  - intros _ _. eapply spec_bind.
    + apply (spec_remote_read repo w _ HW HC HO _ _ _ (fun _ => True)). exact Logic.I.
    + intros ex _. apply spec_when; [exact Logic.I|intros _; now apply spec_debug].
Qed.

(** The active remote, when it is registered, is found without a command. *)
Lemma registered_remote_found dry s rm :
  opens repo s ->
  Git.find_remote (remote repo) (Git.remotes (world s (dpath repo))) = Some rm ->
  exists s1,
    _registered_remote ub_cmd repo dry s = (Ok (Some (remote repo)), s1)
    /\ settled (world s) (logged_cmds (mem s)) s1.
Proof.
  intros Ho Hrm. destruct (pygit_opens _ _ Ho) as (s0 & Ep & [Hc Hw] & Hp).
  assert (E0 : try_ (r <- pygit_remote repo (remote repo) ;; pure (Some r))
                 (on_IndexError (_ensure_remotes ub_cmd repo dry ;; lookup_again repo)) s
               = (Ok (Some (remote repo)), s0)).
  { unfold try_, try_else, pygit_remote, bind. rewrite Ep, Hrm.
    simpl. now rewrite (find_remote_name _ _ _ Hrm). }
  assert (H0 : settled (world s) (logged_cmds (mem s)) s0) by (repeat split; auto).
  destruct (spec_run _ _ _ _
              (st_report_remote (world s) (logged_cmds (mem s)) rm Hrm) H0)
    as ([] & s1 & E1 & H1 & _).
  exists s1. split; [|exact H1].
  unfold _registered_remote. rewrite (bind_ok _ _ _ _ _ E0).
  now rewrite (bind_ok _ _ _ _ _ E1).
Qed.

(** The commands of [upgrade]. *)
Definition fetch_cmd : string := "git fetch " ++ remote repo.
Definition checkout_cmd (latest : string) : string := "git checkout " ++ latest.
Definition create_cmd (latest : string) : string :=
  "git checkout -b " ++ latest ++ " " ++ remote repo ++ "/" ++ latest.

Definition in_dpath (c : string) : string * option string := (c, Some (dpath repo)).

(** [upgrade] up to the comparison with the current branch: the remote is
    found, fetched, and its refs and the current branch are read in the
    world the fetch leaves. *)
Lemma upgrade_fetches s rm i1 w1 rm1 latest h :
  opens repo s ->
  Git.find_remote (remote repo) (Git.remotes (world s (dpath repo))) = Some rm ->
  ub_cmd fetch_cmd (Some (dpath repo)) (world s) = (i1, w1) ->
  ret i1 = 0%Z ->
  Git.find_remote (remote repo) (Git.remotes (w1 (dpath repo))) = Some rm1 ->
  latest_dev_branch (Git.refs rm1) = Some latest ->
  Git.active_branch (w1 (dpath repo)) = Some h ->
  exists s5,
    settled w1 (logged_cmds (mem s) ++ [in_dpath fetch_cmd]) s5
    /\ upgrade ub_cmd repo s
       = (if String.eqb (Git.branch_name h) latest
          then info "Already on the latest dev branch"
          else
            try_
              (_cmd ub_cmd repo (checkout_cmd latest) NoParam NoParam ;; pure tt)
              (on_ShellException
                 (debug "Checkout failed. Branch name might be ambiguous. Trying again" ;;
                  try_
                    (_cmd ub_cmd repo (create_cmd latest) NoParam NoParam ;; pure tt)
                    (on_ShellException
                       (raise (Exception "does the branch exist on the remote?"))))))
           s5.
Proof.
  intros Ho Hrm Hf Hret Hrm1 Hl Hh.
  destruct (registered_remote_found false s rm Ho Hrm) as (s1 & E1 & H1).
  destruct (cmd_run _ _ _ _ _ s1 Hf H1) as (s2 & E2 & H2).
  rewrite Hret in E2. simpl in E2.
  set (c1 := (logged_cmds (mem s) ++ [(fetch_cmd, Some (dpath repo))])%list) in *.
  pose proof (settled_world w1 c1) as HW.
  pose proof (settled_lines w1 c1) as HL.
  pose proof (settled_cache w1 c1) as HC.
  pose proof (settled_opens (dpath repo) w1 c1) as HO.
  assert (H3 : settled w1 c1 (snd (info "Fetch was successful" s2)))
    by (apply HL; exact H2).
  assert (Srefs : spec (settled w1 c1) (remote_refs repo (remote repo))
                    (fun x => x = Git.refs rm1) none).
  { apply (spec_remote_read repo w1 _ HW HC HO). now rewrite Hrm1. }
  destruct (spec_run _ _ _ _ Srefs H3) as (refs & s4 & E4 & H4 & ->).
  assert (Sgit : spec (settled w1 c1) (pygit repo)
                   (fun g => g = w1 (dpath repo)) none).
  { now apply (spec_pygit repo w1 _ HW HC HO). }
  destruct (spec_run _ _ _ _ Sgit H4) as (g & s5 & E5 & H5 & ->).
  exists s5. split; [exact H5|].
  unfold upgrade. rewrite (bind_ok _ _ _ _ _ E1).
  unfold fetch_cmd in E2. rewrite (bind_ok _ _ _ _ _ E2).
  rewrite (bind_ok (info "Fetch was successful") _ s2 tt
             (snd (info "Fetch was successful" s2)) eq_refl).
  rewrite (bind_ok _ _ _ _ _ E4). rewrite Hl.
  rewrite (bind_ok _ _ _ _ _ E5). rewrite Hh. reflexivity.
Qed.

(** What [upgrade] runs after the fetch: nothing when the current branch is
    the selected one; else the checkout; and when that fails, the creation
    of the tracking branch, at once. *)
Lemma upgrade_run s rm i1 w1 rm1 latest h :
  opens repo s ->
  Git.find_remote (remote repo) (Git.remotes (world s (dpath repo))) = Some rm ->
  ub_cmd fetch_cmd (Some (dpath repo)) (world s) = (i1, w1) ->
  ret i1 = 0%Z ->
  Git.find_remote (remote repo) (Git.remotes (w1 (dpath repo))) = Some rm1 ->
  latest_dev_branch (Git.refs rm1) = Some latest ->
  Git.active_branch (w1 (dpath repo)) = Some h ->
  (Git.branch_name h = latest ->
   exists s',
     upgrade ub_cmd repo s = (Ok tt, s')
     /\ settled w1 (logged_cmds (mem s) ++ [in_dpath fetch_cmd]) s')
  /\ (Git.branch_name h <> latest ->
      forall i2 w2,
        ub_cmd (checkout_cmd latest) (Some (dpath repo)) w1 = (i2, w2) ->
        (ret i2 = 0%Z ->
         exists s',
           upgrade ub_cmd repo s = (Ok tt, s')
           /\ settled w2 (logged_cmds (mem s)
                          ++ [in_dpath fetch_cmd; in_dpath (checkout_cmd latest)]) s')
        /\ (ret i2 <> 0%Z ->
            forall i3 w3,
              ub_cmd (create_cmd latest) (Some (dpath repo)) w2 = (i3, w3) ->
              exists s',
                upgrade ub_cmd repo s
                = (if (ret i3 =? 0)%Z then Ok tt
                   else Raise (Exception "does the branch exist on the remote?"),
                   s')
                /\ settled w3 (logged_cmds (mem s)
                               ++ [in_dpath fetch_cmd;
                                   in_dpath (checkout_cmd latest);
                                   in_dpath (create_cmd latest)]) s')).
Proof.
  intros Ho Hrm Hf Hret Hrm1 Hl Hh.
  destruct (upgrade_fetches s rm i1 w1 rm1 latest h Ho Hrm Hf Hret Hrm1 Hl Hh)
    as (s5 & H5 & E).
  split.
  - intros Hb. apply String.eqb_eq in Hb. rewrite Hb in E.
    eexists. split; [exact E|]. now apply settled_lines.
  - intros Hb i2 w2 Hc. apply String.eqb_neq in Hb. rewrite Hb in E.
    destruct (cmd_run _ _ _ _ _ s5 Hc H5) as (s6 & E6 & H6).
    rewrite <- app_assoc in H6. cbn [app] in H6.
    split.
    + intros Hr2. rewrite Hr2 in E6. simpl in E6.
      exists s6. split; [|exact H6]. rewrite E.
      unfold try_, try_else. now rewrite (bind_ok _ _ _ _ _ E6).
    + intros Hr2 i3 w3 Hc3. apply Z.eqb_neq in Hr2. rewrite Hr2 in E6.
      remember (snd (debug "Checkout failed. Branch name might be ambiguous. Trying again" s6))
        as s7 eqn:Es7.
      assert (E7 : debug "Checkout failed. Branch name might be ambiguous. Trying again" s6
                   = (Ok tt, s7)) by (subst s7; reflexivity).
      assert (H7 : settled w2
                     (logged_cmds (mem s)
                      ++ [in_dpath fetch_cmd; in_dpath (checkout_cmd latest)]) s7)
        by (subst s7; apply settled_lines; exact H6).
      clear Es7.
      destruct (cmd_run _ _ _ _ _ _ Hc3 H7) as (s8 & E8 & H8).
      rewrite <- app_assoc in H8. cbn [app] in H8.
      exists s8. split; [|exact H8]. rewrite E.
      unfold try_ at 1.
      rewrite (try_caught _ _ _ _ _ _ _ (bind_raise _ _ _ _ _ E6) eq_refl).
      rewrite (bind_ok _ _ _ _ _ E7).
      unfold try_, try_else, bind. rewrite E8.
      destruct (ret i3 =? 0)%Z; reflexivity.
Qed.

End Run.

(** A runner for which [git checkout dev/2.0] fails (the name is
    ambiguous) and every other command succeeds; nothing changes. *)
Definition ambiguous_cmd : string -> option string -> Git.World -> CmdInfo * Git.World :=
  fun c _ w =>
    if String.eqb c "git checkout dev/2.0"
    then ({| out := ""; err := "error: pathspec"; ret := 1 |}, w)
    else ({| out := ""; err := ""; ret := 0 |}, w).

(** [ubelt], declared on the branch [dev/2.0]. *)
Definition ubelt_dev : Repo :=
  {| name := "ubelt";
     dpath := "/code/ubelt";
     code_dpath := Some "/code";
     remotes := [("origin", "https://github.com/Erotemic/ubelt.git")];
     remote := "origin";
     branch := Some "dev/2.0";
     url := "https://github.com/Erotemic/ubelt.git";
     pkg_dpath := "/code/ubelt/ubelt" |}.

(** The commands a run has logged. *)
Definition commands {A} (run : Result A * State) : list string :=
  map fst (logged_cmds (mem (snd run))).

(** C5, as stated, fails in its last part: when the checkout of the
    selected branch fails, [upgrade] creates the tracking branch at once;
    the fallback of [ensure] (fetch, then create), run on the same working
    copy with the same runner, is not what [upgrade] does. *)
Lemma upgrade_fallback_runs_no_fetch :
  let s := {| mem := fresh; world := clean_world |} in
  commands (upgrade ambiguous_cmd ubelt s)
  = ["git fetch origin"; "git checkout dev/2.0";
     "git checkout -b dev/2.0 origin/dev/2.0"]
  /\ commands (ensure ambiguous_cmd ubelt_dev false s)
     = ["git checkout dev/2.0"; "git fetch origin";
        "git checkout -b dev/2.0 origin/dev/2.0"]
  /\ skipn 2 (commands (upgrade ambiguous_cmd ubelt s))
     <> skipn 1 (commands (ensure ambiguous_cmd ubelt_dev false s)).
Proof.
  split; [reflexivity|]. split; [reflexivity|]. discriminate.
Qed.

(** C5, amended. From [dev/1.2], [dev/1.10], [dev/2.0] and [main],
    [upgrade] selects [dev/2.0]. In general it selects a remote branch
    [dev/...] whose tuple of integers none exceeds, and the first of them in
    the list of the refs: every dev branch before it has a smaller tuple
    (so [dev/1.0] before [dev/01.0] is selected, and [dev/01.0] before
    [dev/1.0] is); the tuple of [dev/<suffix>], for a suffix with no further
    [dev/], is the integers between the dots of the suffix; names that give no tuple are
    skipped, and a branch is selected as soon as one gives a tuple.  When
    the active remote is registered and the fetch succeeds: if the current
    branch is the selected one nothing more is run; otherwise the selected
    branch is checked out, and if that fails the tracking branch is created
    with [git checkout -b], with no further fetch. *)
Theorem upgrade_selects_latest :
  latest_dev_branch ["dev/1.2"; "dev/1.10"; "dev/2.0"; "main"] = Some "dev/2.0"
  /\ latest_dev_branch ["dev/2.0"; "dev/next"; "main"; "dev/1.10"; "dev/"]
     = Some "dev/2.0"
  /\ latest_dev_branch ["dev/1.0"; "dev/01.0"] = Some "dev/1.0"
  /\ latest_dev_branch ["dev/01.0"; "dev/1.0"] = Some "dev/01.0"
  /\ (forall refs b,
        latest_dev_branch refs = Some b ->
        In b refs /\ Str.startswith "dev/" b = true /\
        exists tup,
          version_tuple b = Some tup /\
          forall b' tup',
            In b' refs -> Str.startswith "dev/" b' = true ->
            version_tuple b' = Some tup' -> tuple_lt tup tup' = false)
  /\ (forall refs b,
        latest_dev_branch refs = Some b ->
        exists pre post tup,
          refs = (pre ++ b :: post)%list /\
          version_tuple b = Some tup /\
          forall b' tup',
            In b' pre -> Str.startswith "dev/" b' = true ->
            version_tuple b' = Some tup' -> tuple_lt tup' tup = true)
  /\ (forall refs b',
        In b' refs -> Str.startswith "dev/" b' = true ->
        version_tuple b' <> None -> latest_dev_branch refs <> None)
  /\ (forall suffix,
        Str.contains "dev/" suffix = false ->
        version_tuple ("dev/" ++ suffix) = map_int (split "." suffix))
  /\ (forall ub_cmd repo s rm i1 w1 rm1 latest h,
        opens repo s ->
        Git.find_remote (remote repo) (Git.remotes (world s (dpath repo))) = Some rm ->
        ub_cmd (fetch_cmd repo) (Some (dpath repo)) (world s) = (i1, w1) ->
        ret i1 = 0%Z ->
        Git.find_remote (remote repo) (Git.remotes (w1 (dpath repo))) = Some rm1 ->
        latest_dev_branch (Git.refs rm1) = Some latest ->
        Git.active_branch (w1 (dpath repo)) = Some h ->
        (Git.branch_name h = latest ->
         exists s',
           upgrade ub_cmd repo s = (Ok tt, s')
           /\ settled w1 (logged_cmds (mem s) ++ [in_dpath repo (fetch_cmd repo)]) s')
        /\ (Git.branch_name h <> latest ->
            forall i2 w2,
              ub_cmd (checkout_cmd latest) (Some (dpath repo)) w1 = (i2, w2) ->
              (ret i2 = 0%Z ->
               exists s',
                 upgrade ub_cmd repo s = (Ok tt, s')
                 /\ settled w2
                      (logged_cmds (mem s)
                       ++ [in_dpath repo (fetch_cmd repo);
                           in_dpath repo (checkout_cmd latest)]) s')
              /\ (ret i2 <> 0%Z ->
                  forall i3 w3,
                    ub_cmd (create_cmd repo latest) (Some (dpath repo)) w2 = (i3, w3) ->
                    exists s',
                      upgrade ub_cmd repo s
                      = (if (ret i3 =? 0)%Z then Ok tt
                         else Raise (Exception "does the branch exist on the remote?"),
                         s')
                      /\ settled w3
                           (logged_cmds (mem s)
                            ++ [in_dpath repo (fetch_cmd repo);
                                in_dpath repo (checkout_cmd latest);
                                in_dpath repo (create_cmd repo latest)]) s'))).
Proof.
  split; [reflexivity|]. split; [reflexivity|].
  split; [reflexivity|]. split; [reflexivity|].
  split; [exact latest_dev_branch_spec|].
  split; [exact latest_dev_branch_first|].
  split; [exact latest_dev_branch_some|].
  split; [exact version_tuple_plain|].
  intros ub_cmd repo s rm i1 w1 rm1 latest h Ho Hrm Hf Hret Hrm1 Hl Hh.
  exact (upgrade_run ub_cmd repo s rm i1 w1 rm1 latest h Ho Hrm Hf Hret Hrm1 Hl Hh).
Qed.

Lemma upgrade_selects_latest_witness :
  let s := {| mem := fresh; world := clean_world |} in
  (exists tup,
      version_tuple "dev/2.0" = Some tup /\
      forall b' tup',
        In b' ["dev/1.2"; "dev/1.10"; "dev/2.0"; "main"] ->
        Str.startswith "dev/" b' = true ->
        version_tuple b' = Some tup' -> tuple_lt tup tup' = false)
  /\ (exists pre post tup,
         ["dev/0.9"; "main"; "dev/1.10"; "dev/01.10"; "dev/1.2"]
         = (pre ++ "dev/1.10" :: post)%list /\
         version_tuple "dev/1.10" = Some tup /\
         forall b' tup',
           In b' pre -> Str.startswith "dev/" b' = true ->
           version_tuple b' = Some tup' -> tuple_lt tup' tup = true)
  /\ version_tuple "dev/1.10" = Some [1; 10]%Z
  /\ exists s',
      upgrade ambiguous_cmd ubelt s = (Ok tt, s')
      /\ settled clean_world
           [("git fetch origin", Some "/code/ubelt");
            ("git checkout dev/2.0", Some "/code/ubelt");
            ("git checkout -b dev/2.0 origin/dev/2.0", Some "/code/ubelt")] s'.
Proof.
  intros s. split; [|split; [|split]].
  - exact (proj2 (proj2 (proj1 (proj2 (proj2 (proj2 (proj2 upgrade_selects_latest))))
                           ["dev/1.2"; "dev/1.10"; "dev/2.0"; "main"] "dev/2.0"
                           eq_refl))).
  - exact (proj1 (proj2 (proj2 (proj2 (proj2 (proj2 upgrade_selects_latest)))))
             ["dev/0.9"; "main"; "dev/1.10"; "dev/01.10"; "dev/1.2"] "dev/1.10"
             eq_refl).
  - exact (proj1 (proj2 (proj2 (proj2 (proj2 (proj2 (proj2
             (proj2 upgrade_selects_latest))))))) "1.10" eq_refl).
  - assert (Ho : opens ubelt s) by (right; split; reflexivity).
    assert (Hne : "master" <> "dev/2.0") by discriminate.
    assert (Hr : 1%Z <> 0%Z) by discriminate.
    exact (proj2 (proj2 (proj2 (proj2 (proj2 (proj2 (proj2 (proj2 (proj2
             (proj2 upgrade_selects_latest)))))))
                           ambiguous_cmd ubelt s _ _ _ _ "dev/2.0" _
                           Ho eq_refl eq_refl eq_refl eq_refl eq_refl eq_refl)
                    Hne _ _ eq_refl)
             Hr _ _ eq_refl).
Defined.

End Upgrade.

(* ================================================================== *)
(** * Commands: [_cmd], [status], [pull] *)

Module Shell.
Import Py Repo RepoFacts Engine.
Local Open Scope py_scope.

(** The directory and the verbosity a call of [_cmd] resolves to. *)
Definition cwd_of (repo : Repo) (cwd : Param (option string)) : option string :=
  match cwd with
  | NoParam => Some (dpath repo)
  | Given c => c
  end.

Definition verbose_of (m : Mem) (verbose_ : Param Z) : Z :=
  match verbose_ with
  | NoParam => verbose m
  | Given v => v
  end.

(** What one call of the runner would give in the state [s]. *)
Definition outcome (ub_cmd : string -> option string -> Git.World -> CmdInfo * Git.World)
           (command : string) (cwd : option string) (s : State) : CmdInfo :=
  fst (ub_cmd command cwd (world s)).

Definition world_after (ub_cmd : string -> option string -> Git.World -> CmdInfo * Git.World)
           (command : string) (cwd : option string) (s : State) : Git.World :=
  snd (ub_cmd command cwd (world s)).

(** What [_cmd] returns for the result [i] of the runner. *)
Definition checked (command : string) (i : CmdInfo) : Result CmdInfo :=
  if (ret i =? 0)%Z then Ok i else Raise (ShellException command i).

(** The state a call of [_cmd] leaves, when its verbosity is zero: the
    command and the line that announces it are logged, and the world is
    what the runner left. *)
Lemma cmd_steps ub_cmd repo command cwd verbose_ s :
  exists s',
    _cmd ub_cmd repo command cwd verbose_ s
    = (checked command (outcome ub_cmd command (cwd_of repo cwd) s), s')
    /\ logged_cmds (mem s')
       = (logged_cmds (mem s) ++ [(command, cwd_of repo cwd)])%list
    /\ world s' = world_after ub_cmd command (cwd_of repo cwd) s
    /\ pygit_cached (mem s') = pygit_cached (mem s)
    /\ verbose (mem s') = verbose (mem s)
    /\ (exists more,
           logged_lines (mem s')
           = (logged_lines (mem s)
              ++ ("DEBUG", ("DEBUG: Run " ++ repr command ++ " in "
                            ++ repr_opt (cwd_of repo cwd))%string) :: more)%list
           /\ (verbose_of (mem s) verbose_ = 0%Z -> more = [])).
Proof.
  unfold outcome, world_after, checked, cwd_of, verbose_of.
  unfold _cmd, bind, get_mem, log_cmd, debug, run_ub_cmd, modify_mem. simpl.
  destruct (ub_cmd command
              match cwd with NoParam => Some (dpath repo) | Given c => c end
              (world s)) as [i w'] eqn:E.
  simpl.
  unfold when, info, debug, modify_mem, bind.
  destruct (match verbose_ with NoParam => verbose (mem s) | Given v => v end =? 0)%Z
    eqn:Ev; simpl.
  - destruct (ret i =? 0)%Z; simpl; eexists;
      (split; [reflexivity|]); repeat split; exists []; split; auto.
  - apply Z.eqb_neq in Ev.
    destruct (strip_is_empty (out i)); destruct (strip_is_empty (err i));
      simpl; destruct (ret i =? 0)%Z; simpl; eexists;
      (split; [reflexivity|]); repeat split; eexists;
      (split; [rewrite <- ?app_assoc; reflexivity|intros H; now elim Ev]).
Qed.

(** X1. [_cmd] returns the result of the runner exactly when its exit code
    is zero and raises ShellException with that result otherwise; either
    way the command is recorded with the directory it ran in ([dpath] by
    default), the world is the one the runner left, and with a verbosity of
    zero the only line logged is the DEBUG line that announces the
    command. *)
Theorem cmd_records_then_checks :
  forall ub_cmd repo command cwd verbose_ s,
    let c := cwd_of repo cwd in
    let i := outcome ub_cmd command c s in
    let run := _cmd ub_cmd repo command cwd verbose_ s in
    fst run = (if (ret i =? 0)%Z then Ok i else Raise (ShellException command i))
    /\ logged_cmds (mem (snd run)) = (logged_cmds (mem s) ++ [(command, c)])%list
    /\ world (snd run) = world_after ub_cmd command c s
    /\ (verbose_of (mem s) verbose_ = 0%Z ->
        exists line,
          logged_lines (mem (snd run))
          = (logged_lines (mem s) ++ [("DEBUG", line)])%list).
Proof.
  intros ub_cmd repo command cwd verbose_ s c i run.
  destruct (cmd_steps ub_cmd repo command cwd verbose_ s)
    as (s' & E & Hc & Hw & _ & _ & more & Hl & Hm).
  subst run. rewrite E. cbn [fst snd].
  split; [reflexivity|]. split; [exact Hc|]. split; [exact Hw|].
  intros Hv. rewrite (Hm Hv) in Hl. eexists. exact Hl.
Qed.

Lemma cmd_records_then_checks_witness :
  let s := {| mem := fresh; world := clean_world |} in
  exists line,
    logged_lines (mem (snd (_cmd failing_cmd ubelt "git status" NoParam (Given 0%Z) s)))
    = [("DEBUG", line)].
Proof.
  intros s.
  exact (proj2 (proj2 (proj2 (cmd_records_then_checks failing_cmd ubelt "git status"
                                NoParam (Given 0%Z) s))) eq_refl).
Defined.

(** What [status] and [pull] return for the result of their command. *)
Definition finished (command : string) (i : CmdInfo) : Result unit :=
  if (ret i =? 0)%Z then Ok tt else Raise (ShellException command i).

(** A command run for its effect. *)
Lemma cmd_unit ub_cmd repo command cwd verbose_ s :
  exists s',
    (_cmd ub_cmd repo command cwd verbose_ ;; pure tt) s
    = (finished command (outcome ub_cmd command (cwd_of repo cwd) s), s')
    /\ logged_cmds (mem s')
       = (logged_cmds (mem s) ++ [(command, cwd_of repo cwd)])%list
    /\ world s' = world_after ub_cmd command (cwd_of repo cwd) s
    /\ pygit_cached (mem s') = pygit_cached (mem s)
    /\ verbose (mem s') = verbose (mem s).
Proof.
  destruct (cmd_steps ub_cmd repo command cwd verbose_ s)
    as (s' & E & Hc & Hw & Hp & Hv & _).
  exists s'. split; [|auto].
  unfold bind. rewrite E. unfold checked, finished.
  destruct (ret _ =? 0)%Z; reflexivity.
Qed.



Lemma pull_clean ub_cmd repo s :
  opens repo s -> Git.is_dirty (world s (dpath repo)) = false ->
  exists s',
    pull ub_cmd repo s
    = (finished "git pull" (outcome ub_cmd "git pull" (Some (dpath repo)) s), s')
    /\ logged_cmds (mem s')
       = (logged_cmds (mem s) ++ [("git pull", Some (dpath repo))])%list
    /\ world s' = world_after ub_cmd "git pull" (Some (dpath repo)) s.
Proof.
  intros Ho Hd. destruct (pygit_opens _ _ Ho) as (s1 & Ep & [Hc1 Hw1] & _).
  destruct (cmd_unit ub_cmd repo "git pull" NoParam NoParam s1)
    as (s' & E & Hc & Hw & _).
  exists s'. unfold outcome, world_after in *. rewrite Hw1 in *. rewrite Hc1 in Hc.
  split; [|auto].
  unfold pull, _assert_clean. unfold bind at 1 2. rewrite Ep, Hd. exact E.
Qed.

(** X3. [pull] on a working copy that gitpython opens and that is clean
    runs [git pull] in [dpath] and nothing else, and raises exactly when
    the command fails; on a path that does not exist it raises
    NoSuchPathError, and on one that is no git repository
    InvalidGitRepositoryError, before any command. *)
Theorem pull_runs_git_pull_when_clean :
  forall ub_cmd repo s,
    (opens repo s -> Git.is_dirty (world s (dpath repo)) = false ->
     let i := outcome ub_cmd "git pull" (Some (dpath repo)) s in
     let run := pull ub_cmd repo s in
     fst run = (if (ret i =? 0)%Z then Ok tt
                else Raise (ShellException "git pull" i))
     /\ logged_cmds (mem (snd run))
        = (logged_cmds (mem s) ++ [("git pull", Some (dpath repo))])%list
     /\ world (snd run) = world_after ub_cmd "git pull" (Some (dpath repo)) s)
    /\ (pygit_cached (mem s) = false ->
        Git.path_exists (world s (dpath repo)) = false ->
        pull ub_cmd repo s = (Raise NoSuchPathError, s))
    /\ (pygit_cached (mem s) = false ->
        Git.path_exists (world s (dpath repo)) = true ->
        Git.is_git_repo (world s (dpath repo)) = false ->
        pull ub_cmd repo s = (Raise InvalidGitRepositoryError, s)).
Proof.
  intros ub_cmd repo s. split; [|split].
  - intros Ho Hd i run.
    destruct (pull_clean ub_cmd repo s Ho Hd) as (s' & E & Hc & Hw).
    subst run. rewrite E. cbn [fst snd]. auto.
  - intros Hc He. unfold pull, _assert_clean, pygit, bind, get_mem, get_world.
    simpl. rewrite Hc, He. destruct s as [m w]. reflexivity.
  - intros Hc He Hg. unfold pull, _assert_clean, pygit, bind, get_mem, get_world.
    simpl. rewrite Hc, He, Hg. destruct s as [m w]. reflexivity.
Qed.

Lemma pull_runs_git_pull_when_clean_witness :
  (let s := {| mem := fresh; world := clean_world |} in
   fst (pull failing_cmd ubelt s)
   = Raise (ShellException "git pull" {| out := ""; err := "fatal"; ret := 128 |})
   /\ logged_cmds (mem (snd (pull failing_cmd ubelt s)))
      = [("git pull", Some "/code/ubelt")]
   /\ world (snd (pull failing_cmd ubelt s)) = clean_world)
  /\ pull inert_cmd ubelt {| mem := fresh; world := Descriptor.nowhere |}
     = (Raise NoSuchPathError, {| mem := fresh; world := Descriptor.nowhere |}).
Proof.
  split.
  - refine (proj1 (pull_runs_git_pull_when_clean failing_cmd ubelt
                     {| mem := fresh; world := clean_world |}) _ eq_refl).
    right. split; reflexivity.
  - exact (proj1 (proj2 (pull_runs_git_pull_when_clean inert_cmd ubelt
                           {| mem := fresh; world := Descriptor.nowhere |}))
             eq_refl eq_refl).
Defined.

End Shell.

(* ================================================================== *)
(** * The clone *)

Module Cloning.
Import Py Repo RepoFacts Engine Shell.
Local Open Scope py_scope.

(** The command of [clone]. *)
Definition clone_command (repo : Repo) : string :=
  "git clone --recursive"
  ++ match branch repo with
     | Some b => " -b " ++ b
     | None => ""
     end
  ++ " " ++ url repo ++ " " ++ dpath repo.

(** What [clone] makes of the result [i] of its command: the failure is
    raised again, as it is or as the Exception on the branch. *)
Definition cloned (repo : Repo) (i : CmdInfo) : Result unit :=
  if (ret i =? 0)%Z then Ok tt
  else
    let text := clone_command repo ++ out i ++ err i in
    if Str.contains "Remote branch" text && Str.contains "not found" text
    then Raise (Exception ("Cannot find branch " ++ str_opt (branch repo)
                           ++ " for repo " ++ nice repo))
    else Raise (ShellException (clone_command repo) i).

Lemma clone_missing ub_cmd repo s :
  Git.path_exists (world s (dpath repo)) = false ->
  exists s',
    clone ub_cmd repo s
    = (cloned repo (outcome ub_cmd (clone_command repo) (code_dpath repo) s), s')
    /\ logged_cmds (mem s')
       = (logged_cmds (mem s) ++ [(clone_command repo, code_dpath repo)])%list
    /\ world s' = world_after ub_cmd (clone_command repo) (code_dpath repo) s
    /\ pygit_cached (mem s') = pygit_cached (mem s).
Proof.
  intros He.
  assert (Ecmd : "git clone "
                 ++ match branch repo with
                    | Some b => "--recursive" ++ " -b " ++ b
                    | None => "--recursive"
                    end
                 ++ " " ++ url repo ++ " " ++ dpath repo
                 = clone_command repo).
  { unfold clone_command. destruct (branch repo) as [b|]; simpl;
      rewrite ?StrFacts.append_assoc; reflexivity. }
  destruct (cmd_unit ub_cmd repo (clone_command repo) (Given (code_dpath repo))
              NoParam s) as (s' & E & Hc & Hw & Hp & _).
  cbn [cwd_of] in *.
  exists s'. split; [|auto].
  unfold clone, exists_dpath. unfold bind at 1 2. unfold get_world, pure at 1.
  cbv beta iota. rewrite He. cbv iota.
  rewrite Ecmd. unfold try_, try_else. rewrite E.
  unfold finished, cloned.
  destruct (ret _ =? 0)%Z; [reflexivity|].
  cbn [on_Exception]. cbv beta iota.
  destruct (Str.contains "Remote branch" _ && Str.contains "not found" _);
    reflexivity.
Qed.



(** [ensure], not dry, on a path that does not exist, when the clone
    fails. *)
Lemma ensure_clone_fails ub_cmd repo s e :
  Git.path_exists (world s (dpath repo)) = false ->
  cloned repo (outcome ub_cmd (clone_command repo) (code_dpath repo) s) = Raise e ->
  exists s',
    ensure ub_cmd repo false s = (Raise e, s')
    /\ logged_cmds (mem s')
       = (logged_cmds (mem s) ++ [(clone_command repo, code_dpath repo)])%list
    /\ world s' = world_after ub_cmd (clone_command repo) (code_dpath repo) s.
Proof.
  intros He Hcl.
  unfold ensure, ensure_head, ensure_clone, exists_dpath.
  unfold bind, get_mem, get_world, when, debug, modify_mem, pure.
  destruct (verbose (mem s) >? 0)%Z; cbn [negb andb mem world];
    rewrite He; cbn [negb andb mem world]; rewrite He;
    match goal with
    | |- context [clone ub_cmd repo ?s2] =>
        destruct (clone_missing ub_cmd repo s2 He) as (s' & E2 & Hc & Hw & _);
        unfold outcome, world_after in *; cbn [mem world logged_cmds] in *;
        rewrite Hcl in E2; rewrite E2
    end;
    exists s'; auto.
Qed.

(** X5. On a repository that is not cloned yet, [check] (a dry [ensure])
    returns normally and runs no command; [ensure] runs the clone first,
    and when the clone fails it raises what [clone] raises, with the clone
    as the only command it has recorded. *)
Theorem ensure_clones_a_missing_repo :
  forall ub_cmd repo s,
    Git.path_exists (world s (dpath repo)) = false ->
    (exists s', check ub_cmd repo s = (Ok tt, s') /\ no_command s s')
    /\ (let i := outcome ub_cmd (clone_command repo) (code_dpath repo) s in
        ret i <> 0%Z ->
        exists e s',
          ensure ub_cmd repo false s = (Raise e, s')
          /\ fst (clone ub_cmd repo s) = Raise e
          /\ logged_cmds (mem s')
             = (logged_cmds (mem s) ++ [(clone_command repo, code_dpath repo)])%list
          /\ world s'
             = world_after ub_cmd (clone_command repo) (code_dpath repo) s).
Proof.
  intros ub_cmd repo s He. split.
  - unfold check, ensure, ensure_head, exists_dpath.
    unfold bind, get_mem, get_world, when, debug, modify_mem, pure.
    destruct (verbose (mem s) >? 0)%Z; cbn [negb andb mem world];
      rewrite He; cbn [negb andb mem world];
      eexists; (split; [reflexivity|]); split; reflexivity.
  - intros i Hr.
    destruct (clone_missing ub_cmd repo s He) as (s0 & E0 & _). fold i in E0.
    assert (Hcl : exists e, cloned repo i = Raise e).
    { unfold cloned. apply Z.eqb_neq in Hr. rewrite Hr.
      destruct (Str.contains "Remote branch" _ && Str.contains "not found" _);
        eexists; reflexivity. }
    destruct Hcl as (e & Hcl).
    destruct (ensure_clone_fails ub_cmd repo s e He Hcl) as (s' & E & Hc & Hw).
    exists e, s'. rewrite E0, Hcl. auto.
Qed.

Lemma ensure_clones_a_missing_repo_witness :
  let s := {| mem := fresh; world := Descriptor.nowhere |} in
  (exists s', check failing_cmd ubelt s = (Ok tt, s') /\ no_command s s')
  /\ exists e s',
      ensure failing_cmd ubelt false s = (Raise e, s')
      /\ fst (clone failing_cmd ubelt s) = Raise e
      /\ logged_cmds (mem s')
         = [("git clone --recursive -b master https://github.com/Erotemic/ubelt.git /code/ubelt",
             Some "/code")]
      /\ world s' = Descriptor.nowhere.
Proof.
  intros s.
  pose proof (ensure_clones_a_missing_repo failing_cmd ubelt s eq_refl) as [H1 H2].
  split; [exact H1|]. apply H2. discriminate.
Defined.

End Cloning.

(* ================================================================== *)
(** * The methods that install, test and report *)

Module Tools.
Import Py Repo RepoFacts Engine Shell Methods.
Local Open Scope py_scope.


Section Install.
Variable ub_cmd : string -> option string -> Git.World -> CmdInfo * Git.World.
Variable repo : Repo.

Local Abbreviation here := (Some (dpath repo)).

(** The file of the build requirements and the command that installs
    them. *)
Definition build_req_fpath : string :=
  path_join (dpath repo) "requirements/build.txt".





End Install.





(** gitpython opens the working copy and logs nothing. *)
Lemma pygit_silent repo s :
  opens repo s ->
  exists s1,
    pygit repo s = (Ok (world s (dpath repo)), s1)
    /\ logged_lines (mem s1) = logged_lines (mem s)
    /\ logged_cmds (mem s1) = logged_cmds (mem s)
    /\ world s1 = world s.
Proof.
  intros Ho. unfold pygit, bind, get_mem, get_world. simpl.
  destruct (pygit_cached (mem s)) eqn:Ec; simpl.
  - eexists. repeat split; reflexivity.
  - destruct Ho as [Ho|[He Hg]]; [congruence|]. rewrite He, Hg. simpl.
    eexists. repeat split; reflexivity.
Qed.

(** The line [versions] logs. *)
Definition report (repo : Repo) (version tag branch_name sha1 : string) : string :=
  "repo=" ++ Text.ljust 14 (name repo ++ ",")
  ++ " pkg=" ++ Text.ljust 12 (version ++ ",")
  ++ " tag=" ++ Text.ljust 18 tag
  ++ " branch=" ++ Text.ljust 10 (branch_name ++ ",")
  ++ " sha1=" ++ sha1.

Definition rev_parse : string := "git rev-parse HEAD".
Definition describe : string := "git describe --tags".

Section Report.
Variable ub_cmd : string -> option string -> Git.World -> CmdInfo * Git.World.
Variable parse_version : string -> Git.World -> Result string.
Variable repo : Repo.

Local Abbreviation here := (Some (dpath repo)).

(** [versions] from the first command on, for a version that was read. *)
Lemma versions_steps version s :
  parse_version (pkg_dpath repo) (world s) = Ok version ->
  let i1 := outcome ub_cmd rev_parse here s in
  let w1 := world_after ub_cmd rev_parse here s in
  let i2 := fst (ub_cmd describe here w1) in
  let w2 := snd (ub_cmd describe here w1) in
  let tag := if (ret i2 =? 0)%Z then Text.strip (out i2) ++ "," else "<None>," in
  (ret i1 <> 0%Z ->
   exists s',
     versions ub_cmd parse_version repo s
     = (Raise (ShellException rev_parse i1), s')
     /\ logged_cmds (mem s') = (logged_cmds (mem s) ++ [(rev_parse, here)])%list
     /\ world s' = w1)
  /\ (ret i1 = 0%Z ->
      exists s2 l1 l2,
        versions ub_cmd parse_version repo s
        = (g <- pygit repo ;;
           match Git.active_branch g with
           | None => raise TypeError
           | Some h =>
               info (report repo version tag (Git.branch_name h)
                       (Text.strip (out i1)))
           end) s2
        /\ logged_cmds (mem s2)
           = (logged_cmds (mem s) ++ [(rev_parse, here); (describe, here)])%list
        /\ world s2 = w2
        /\ pygit_cached (mem s2) = pygit_cached (mem s)
        /\ logged_lines (mem s2)
           = (logged_lines (mem s) ++ [("DEBUG", l1); ("DEBUG", l2)])%list).
Proof.
  intros Hpv i1 w1 i2 w2 tag.
  destruct (cmd_steps ub_cmd repo rev_parse NoParam (Given 0%Z) s)
    as (s1 & E1 & Hc1 & Hw1 & Hp1 & _ & more1 & Hl1 & Hm1).
  cbn [cwd_of] in *. fold i1 in E1. fold w1 in Hw1.
  rewrite (Hm1 eq_refl) in Hl1. clear Hm1.
  assert (E0 : versions ub_cmd parse_version repo s
               = (i <- _cmd ub_cmd repo rev_parse NoParam (Given 0%Z) ;;
                  tag <-
                    try_
                      (i <- _cmd ub_cmd repo describe NoParam (Given 0%Z) ;;
                       pure (Text.strip (out i) ++ ","))
                      (on_ShellException (pure "<None>,")) ;;
                  g <- pygit repo ;;
                  match Git.active_branch g with
                  | None => raise TypeError
                  | Some h =>
                      info (report repo version tag (Git.branch_name h)
                              (Text.strip (out i)))
                  end) s).
  { unfold versions.
    rewrite (bind_ok get_world _ s (world s) s eq_refl). now rewrite Hpv. }
  rewrite E0. clear E0. unfold checked in E1. split.
  - intros Hr. apply Z.eqb_neq in Hr. rewrite Hr in E1.
    exists s1. rewrite (bind_raise _ _ _ _ _ E1). auto.
  - intros Hr. rewrite Hr in E1. cbn [Z.eqb] in E1.
    rewrite (bind_ok _ _ _ _ _ E1).
    destruct (cmd_steps ub_cmd repo describe NoParam (Given 0%Z) s1)
      as (s2 & E2 & Hc2 & Hw2 & Hp2 & _ & more2 & Hl2 & Hm2).
    cbn [cwd_of] in *. unfold outcome, world_after in E2, Hw2.
    rewrite Hw1 in E2, Hw2. fold i2 in E2. fold w2 in Hw2.
    rewrite (Hm2 eq_refl) in Hl2. clear Hm2.
    exists s2. do 2 eexists.
    split; [|split; [|split; [exact Hw2|split; [congruence|]]]].
    + assert (Et : try_
                     (i <- _cmd ub_cmd repo describe NoParam (Given 0%Z) ;;
                      pure (Text.strip (out i) ++ ","))
                     (on_ShellException (pure "<None>,")) s1
                   = (Ok tag, s2)).
      { unfold try_, try_else, bind. rewrite E2. unfold checked. subst tag.
        destruct (ret i2 =? 0)%Z; reflexivity. }
      now rewrite (bind_ok _ _ _ _ _ Et).
    + rewrite Hc2, Hc1. now rewrite <- app_assoc.
    + rewrite Hl2, Hl1. rewrite <- app_assoc. reflexivity.
Qed.

End Report.

(** X8. [versions] runs no command when the version of the package cannot
    be read; otherwise it runs [git rev-parse HEAD], whose failure it
    raises, then [git describe --tags], whose failure it takes as the tag
    [<None>]; the output of neither command is logged.  It then needs the
    current branch: on a detached HEAD it raises TypeError, after the two
    commands; on a branch it logs one INFO line, with the name, the
    version, the tag, the branch and the commit in columns. *)
Theorem versions_reports_one_line :
  forall ub_cmd parse_version repo s,
    let here := Some (dpath repo) in
    let i1 := outcome ub_cmd "git rev-parse HEAD" here s in
    let w1 := world_after ub_cmd "git rev-parse HEAD" here s in
    let i2 := fst (ub_cmd "git describe --tags" here w1) in
    let w2 := snd (ub_cmd "git describe --tags" here w1) in
    let run := versions ub_cmd parse_version repo s in
    (forall e, parse_version (pkg_dpath repo) (world s) = Raise e ->
               run = (Raise e, s))
    /\ (forall version,
          parse_version (pkg_dpath repo) (world s) = Ok version ->
          (ret i1 <> 0%Z ->
           fst run = Raise (ShellException "git rev-parse HEAD" i1)
           /\ logged_cmds (mem (snd run))
              = (logged_cmds (mem s) ++ [("git rev-parse HEAD", here)])%list)
          /\ (ret i1 = 0%Z ->
              (pygit_cached (mem s) = true
               \/ (Git.path_exists (w2 (dpath repo)) = true
                   /\ Git.is_git_repo (w2 (dpath repo)) = true)) ->
              logged_cmds (mem (snd run))
              = (logged_cmds (mem s)
                 ++ [("git rev-parse HEAD", here); ("git describe --tags", here)])%list
              /\ world (snd run) = w2
              /\ match Git.active_branch (w2 (dpath repo)) with
                 | None => fst run = Raise TypeError
                 | Some h =>
                     fst run = Ok tt
                     /\ exists l1 l2,
                         logged_lines (mem (snd run))
                         = (logged_lines (mem s)
                            ++ [("DEBUG", l1); ("DEBUG", l2);
                                ("INFO",
                                 "INFO: "
                                 ++ report repo version
                                      (if (ret i2 =? 0)%Z
                                       then Text.strip (out i2) ++ ","
                                       else "<None>,")
                                      (Git.branch_name h)
                                      (Text.strip (out i1)))%string])%list
                 end)).
Proof.
  intros ub_cmd parse_version repo s here i1 w1 i2 w2 run. split.
  - intros e He. subst run. unfold versions.
    rewrite (bind_ok get_world _ s (world s) s eq_refl). now rewrite He.
  - intros version Hpv.
    destruct (versions_steps ub_cmd parse_version repo version s Hpv) as [H1 H2].
    split.
    + intros Hr. destruct (H1 Hr) as (s' & E & Hc & _).
      subst run. rewrite E. cbn [fst snd]. split; [reflexivity|exact Hc].
    + intros Hr Ho. destruct (H2 Hr) as (s2 & l1 & l2 & E & Hc & Hw & Hp & Hl).
      fold w2 in Hw.
      assert (Ho2 : opens repo s2).
      { unfold opens. rewrite Hp, Hw. exact Ho. }
      destruct (pygit_silent repo s2 Ho2) as (s3 & Ep & Hl3 & Hc3 & Hw3).
      subst run. rewrite E. rewrite (bind_ok _ _ _ _ _ Ep). rewrite Hw.
      unfold describe, rev_parse in *. subst w2 i2 w1 i1 here.
      destruct (Git.active_branch _) as [h|].
      * cbn [fst snd info modify_mem mem world logged_cmds logged_lines].
        split; [congruence|]. split; [congruence|].
        split; [reflexivity|]. exists l1, l2.
        rewrite Hl3, Hl. rewrite <- app_assoc. reflexivity.
      * cbn [fst snd raise]. split; [congruence|]. split; [congruence|reflexivity].
Qed.

Lemma versions_reports_one_line_witness :
  let s := {| mem := fresh; world := clean_world |} in
  let parse_version := fun (_ : string) (_ : Git.World) => Ok "0.5.1" in
  fst (versions failing_cmd parse_version ubelt s)
  = Raise (ShellException "git rev-parse HEAD"
             {| out := ""; err := "fatal"; ret := 128 |})
  /\ fst (versions inert_cmd parse_version ubelt s) = Ok tt
  /\ exists l1 l2,
      logged_lines (mem (snd (versions inert_cmd parse_version ubelt s)))
      = [("DEBUG", l1); ("DEBUG", l2);
         ("INFO",
          "INFO: repo=ubelt,         pkg=0.5.1,       tag=,                  branch=master,    sha1=")].
Proof.
  intros s parse_version. split.
  - refine (proj1 (proj1 (proj2 (versions_reports_one_line failing_cmd
                                   parse_version ubelt s) "0.5.1" eq_refl) _)).
    discriminate.
  - pose proof (proj2 (proj2 (versions_reports_one_line inert_cmd
                                parse_version ubelt s) "0.5.1" eq_refl)
                  eq_refl (or_intror (conj eq_refl eq_refl))) as H.
    cbv zeta in H. destruct H as (_ & _ & H). exact H.
Defined.

End Tools.

(* ================================================================== *)
(** * The batch and the registry *)

Module Registry.
Import Py Repo RepoFacts RepoRegistry Engine Shell Cloning Batch Main.
Local Open Scope py_scope.

Lemma call_descriptor func o w r o' w' :
  call func o w = (r, o', w') -> fst o' = fst o.
Proof.
  unfold call. destruct (func (fst o) _) as [r0 s]. intros H.
  inversion H; subst. reflexivity.
Qed.

(** What the loop of [apply] returns: never a DirtyRepoError; the repos
    with their descriptors; and, when it ends, the repos it was given, as
    they are left, after those processed before. *)
Lemma apply_loop_inv func repos : forall w acc res repos' w',
  apply_loop func repos w acc = (res, repos', w') ->
  (forall msg, res <> Raise (DirtyRepoError msg))
  /\ map fst repos' = map fst repos
  /\ (forall processed, res = Ok processed -> processed = (acc ++ repos')%list).
Proof.
  induction repos as [|o repos IH]; intros w acc res repos' w' H; cbn [apply_loop] in H.
  - inversion H; subst. split; [discriminate|]. split; [reflexivity|].
    intros p Hp. inversion Hp. now rewrite app_nil_r.
  - destruct (call func o w) as [[r o1] w1] eqn:Ec.
    pose proof (call_descriptor _ _ _ _ _ _ Ec) as Hd.
    assert (Hcont : (let '(res0, rest', w'') :=
                       apply_loop func repos w1 (acc ++ [o1]) in
                     (res0, o1 :: rest', w'')) = (res, repos', w') ->
                    (forall msg, res <> Raise (DirtyRepoError msg))
                    /\ map fst repos' = map fst (o :: repos)
                    /\ (forall processed,
                           res = Ok processed -> processed = (acc ++ repos')%list)).
    { destruct (apply_loop func repos w1 (acc ++ [o1])) as [[res0 rest'] w2] eqn:El.
      intros H0. inversion H0; subst.
      destruct (IH _ _ _ _ _ El) as (H1 & H2 & H3).
      split; [exact H1|]. split; [simpl; now rewrite Hd, H2|].
      intros p Hp. rewrite (H3 p Hp). now rewrite <- app_assoc. }
    destruct r as [[]|e]; [exact (Hcont H)|].
    destruct e; try exact (Hcont H);
      (inversion H; subst; split; [discriminate|];
       split; [simpl; now rewrite Hd|discriminate]).
Qed.

(** The loop on a list in two parts. *)
Lemma apply_loop_app func pre : forall l w acc,
  apply_loop func (pre ++ l) w acc
  = let '(res, pre', w1) := apply_loop func pre w acc in
    match res with
    | Ok acc' =>
        let '(res', l', w2) := apply_loop func l w1 acc' in
        (res', (pre' ++ l')%list, w2)
    | Raise e => (Raise e, (pre' ++ l)%list, w1)
    end.
Proof.
  induction pre as [|o pre IH]; intros l w acc.
  - cbn [app apply_loop]. destruct (apply_loop func l w acc) as [[res' l'] w2].
    reflexivity.
  - cbn [app apply_loop]. destruct (call func o w) as [[r o1] w1].
    assert (Hcont :
              (let '(res0, rest', w'') :=
                 apply_loop func (pre ++ l) w1 (acc ++ [o1]) in
               (res0, o1 :: rest', w''))
              = (let '(res, pre', w2) :=
                   (let '(res0, rest', w'') :=
                      apply_loop func pre w1 (acc ++ [o1]) in
                    (res0, o1 :: rest', w'')) in
                 match res with
                 | Ok acc' =>
                     let '(res', l', w3) := apply_loop func l w2 acc' in
                     (res', (pre' ++ l')%list, w3)
                 | Raise e => (Raise e, (pre' ++ l)%list, w2)
                 end)).
    { rewrite IH.
      destruct (apply_loop func pre w1 (acc ++ [o1])) as [[res0 pre'] w2].
      destruct res0 as [acc'|e]; [|reflexivity].
      destruct (apply_loop func l w2 acc') as [[res' l'] w3]. reflexivity. }
    destruct r as [[]|e]; [exact Hcont|].
    destruct e; try exact Hcont; reflexivity.
Qed.

(** X9. Sequential [apply] never raises DirtyRepoError, for any method, any
    registry and any world; it leaves the registry with the same
    descriptors in the same order; and when it returns, every repo of the
    registry was processed and every command they have recorded has its
    working directory. *)
Theorem apply_never_raises_dirty :
  forall func repos w,
    let run := apply func repos w in
    (forall msg, fst (fst run) <> Raise (DirtyRepoError msg))
    /\ map fst (snd (fst run)) = map fst repos
    /\ (forall processed,
          fst (fst run) = Ok processed ->
          processed = snd (fst run)
          /\ Forall (fun o : RepoObj => cwd_known (snd o)) processed).
Proof.
  intros func repos w run. subst run. unfold apply.
  destruct (apply_loop func repos w []) as [[res repos'] w'] eqn:El.
  destruct (apply_loop_inv _ _ _ _ _ _ _ El) as (H1 & H2 & H3).
  destruct res as [processed|e]; cbn [fst snd].
  - pose proof (H3 _ eq_refl) as Hp. cbn [app] in Hp. subst repos'.
    unfold show_cmdlog.
    destruct (existsb _ processed) eqn:Ex; cbn [fst snd].
    + split; [discriminate|]. split; [exact H2|discriminate].
    + split; [discriminate|]. split; [exact H2|].
      intros p Hp. inversion Hp; subst p. split; [reflexivity|].
      apply Forall_forall. intros o Ho. unfold cwd_known.
      destruct (existsb _ (logged_cmds (snd o))) eqn:Eo; [|reflexivity].
      assert (Ht : existsb
                     (fun o : RepoObj =>
                        existsb (fun t : string * option string =>
                                   match snd t with None => true | Some _ => false end)
                          (logged_cmds (snd o))) processed = true).
      { apply existsb_exists. exists o. split; assumption. }
      congruence.
  - split; [exact H1|]. split; [exact H2|discriminate].
Qed.

Lemma apply_never_raises_dirty_witness :
  let run := apply (pull inert_cmd) [(ubelt, fresh); (netharn, fresh)] two_clones in
  exists processed,
    fst (fst run) = Ok processed
    /\ processed = snd (fst run)
    /\ Forall (fun o : RepoObj => cwd_known (snd o)) processed.
Proof.
  intros run. eexists. split; [reflexivity|].
  exact (proj2 (proj2 (apply_never_raises_dirty (pull inert_cmd)
                         [(ubelt, fresh); (netharn, fresh)] two_clones))
           _ eq_refl).
Defined.

(** X10. An exception other than DirtyRepoError stops the batch: when the
    repos before [A] were processed and the method raises it on [A],
    [apply] raises it, the repos after [A] are left as they were, and the
    world is the one the method left on [A]. *)
Theorem apply_stops_at_other_errors :
  forall func pre A rest w done pre' w1 e A' w2,
    apply_loop func pre w [] = (Ok done, pre', w1) ->
    call func A w1 = (Raise e, A', w2) ->
    (forall msg, e <> DirtyRepoError msg) ->
    apply func (pre ++ A :: rest) w = (Raise e, (pre' ++ A' :: rest)%list, w2).
Proof.
  intros func pre A rest w done pre' w1 e A' w2 Hpre Hcall Hne.
  unfold apply. rewrite apply_loop_app, Hpre.
  cbn [apply_loop]. rewrite Hcall.
  destruct e; try reflexivity. now elim (Hne msg).
Qed.

Lemma apply_stops_at_other_errors_witness :
  exists e A0 A' w2,
    call (pull failing_cmd) (netharn, fresh) two_clones = (Raise e, A', w2)
    /\ apply (pull failing_cmd) [(ubelt, fresh); (netharn, fresh); (ubelt, fresh)]
         two_clones
       = (Raise e, [A0; A'; (ubelt, fresh)], w2).
Proof.
  do 4 eexists. split; [reflexivity|].
  refine (apply_stops_at_other_errors (pull failing_cmd) [(ubelt, fresh)]
            (netharn, fresh) [(ubelt, fresh)] two_clones _ _ _ _ _ _
            eq_refl eq_refl _).
  discriminate.
Defined.

(** [ensure_clone] on a path that does not exist is the clone. *)
Lemma ensure_clone_missing ub_cmd repo s :
  Git.path_exists (world s (dpath repo)) = false ->
  exists s',
    ensure_clone ub_cmd repo s
    = (cloned repo (outcome ub_cmd (clone_command repo) (code_dpath repo) s), s')
    /\ logged_cmds (mem s')
       = (logged_cmds (mem s) ++ [(clone_command repo, code_dpath repo)])%list
    /\ world s' = world_after ub_cmd (clone_command repo) (code_dpath repo) s.
Proof.
  intros He.
  unfold ensure_clone, exists_dpath.
  unfold bind, get_world, debug, modify_mem, pure.
  rewrite He. cbn [mem world].
  match goal with
  | |- context [clone ub_cmd repo ?s2] =>
      destruct (clone_missing ub_cmd repo s2 He) as (s' & E & Hc & Hw & _)
  end.
  exists s'. split; [exact E|]. split; [exact Hc|exact Hw].
Qed.

(** X11. The listing of the recorded commands cannot show a command that
    was run without a working directory: [apply] of [ensure_clone] on a
    repository that is not cloned and whose descriptor has no [code_dpath]
    always raises; when the clone succeeds, the clone is done and [apply]
    then raises the AttributeError of [os.get_cwd], which does not
    exist. *)
Theorem apply_cannot_list_a_clone_without_code_dpath :
  forall ub_cmd repo m w,
    code_dpath repo = None ->
    Git.path_exists (w (dpath repo)) = false ->
    let i := fst (ub_cmd (clone_command repo) None w) in
    let run := apply (ensure_clone ub_cmd) [(repo, m)] w in
    (exists e, fst (fst run) = Raise e)
    /\ (ret i = 0%Z ->
        fst (fst run)
        = Raise (AttributeError "module 'os' has no attribute 'get_cwd'")
        /\ snd run = snd (ub_cmd (clone_command repo) None w)).
Proof.
  intros ub_cmd repo m w Hcode He i run.
  destruct (ensure_clone_missing ub_cmd repo {| mem := m; world := w |} He)
    as (s' & E & Hc & Hw).
  unfold outcome, world_after in *. cbn [mem world] in *. rewrite Hcode in *.
  fold i in E.
  assert (Hrun : run
                 = match cloned repo i with
                   | Ok _ =>
                       (Raise (AttributeError "module 'os' has no attribute 'get_cwd'"),
                        [(repo, mem s')], world s')
                   | Raise e => (Raise e, [(repo, mem s')], world s')
                   end).
  { subst run. unfold apply. cbn [apply_loop]. unfold call. cbn [fst snd].
    rewrite E. destruct (cloned repo i) as [[]|e] eqn:Ecl.
    - cbn [apply_loop app]. unfold show_cmdlog. cbn [existsb snd].
      rewrite Hc, existsb_app. cbn [existsb snd]. rewrite orb_true_r. reflexivity.
    - assert (Hnd : forall msg, e <> DirtyRepoError msg).
      { intros msg ->. unfold cloned in Ecl. destruct (ret i =? 0)%Z; [discriminate|].
        destruct (Str.contains "Remote branch" _ && Str.contains "not found" _);
          discriminate. }
      destruct e; try reflexivity. now elim (Hnd msg). }
  rewrite Hrun. split.
  - destruct (cloned repo i); eexists; reflexivity.
  - intros Hr. unfold cloned. rewrite Hr. cbn [Z.eqb fst snd]. now rewrite Hw.
Qed.

(** A descriptor given by its [dpath] alone, as
    [Repo(remote=url, dpath=...)] makes it. *)
Definition detached_clone : Repo :=
  {| name := "ubelt";
     dpath := "/srv/ubelt";
     code_dpath := None;
     remotes := [("origin", "https://github.com/Erotemic/ubelt.git")];
     remote := "origin";
     branch := Some "master";
     url := "https://github.com/Erotemic/ubelt.git";
     pkg_dpath := "/srv/ubelt/ubelt" |}.

Lemma apply_cannot_list_a_clone_without_code_dpath_witness :
  let run := apply (ensure_clone inert_cmd) [(detached_clone, fresh)]
               Descriptor.nowhere in
  fst (fst run) = Raise (AttributeError "module 'os' has no attribute 'get_cwd'")
  /\ snd run = Descriptor.nowhere.
Proof.
  intros run.
  exact (proj2 (apply_cannot_list_a_clone_without_code_dpath inert_cmd
                  detached_clone fresh Descriptor.nowhere eq_refl eq_refl)
           eq_refl).
Defined.

(** X12. [worker] sets the verbosity of the object to zero and runs the
    method on it: with [status], it returns the object exactly when
    [git status] succeeds, the object is left with a verbosity of zero and
    with one more logged line, the DEBUG line that announces the command,
    whatever the command printed; for an object with no line yet,
    [_getlogs] is then that line.  On a dirty working copy, [worker] of a
    mutating method raises DirtyRepoError: it is [apply] that catches it. *)
Theorem worker_silences_the_repo :
  forall ub_cmd o w,
    let i := fst (ub_cmd "git status" (Some (dpath (fst o))) w) in
    let run := worker (status ub_cmd) o w in
    let o' := snd (fst run) in
    fst (fst run) = (if (ret i =? 0)%Z then Ok o'
                     else Raise (ShellException "git status" i))
    /\ fst o' = fst o
    /\ verbose (snd o') = 0%Z
    /\ snd run = snd (ub_cmd "git status" (Some (dpath (fst o))) w)
    /\ (exists line,
           logged_lines (snd o') = (logged_lines (snd o) ++ [("DEBUG", line)])%list
           /\ (logged_lines (snd o) = [] -> Methods._getlogs (snd o') = line))
    /\ (forall f,
          Git.path_exists (w (dpath (fst o))) = true ->
          reports_dirty (fst o) {| mem := snd o; world := w |} ->
          exists msg o2,
            worker (method ub_cmd f) o w = (Raise (DirtyRepoError msg), o2, w)
            /\ logged_cmds (snd o2) = logged_cmds (snd o)).
Proof.
  intros ub_cmd o w i run o'.
  set (s0 := {| mem := silenced (snd o); world := w |}).
  destruct (cmd_steps ub_cmd (fst o) "git status" NoParam NoParam s0)
    as (s' & E & Hc & Hw & Hp & Hv & more & Hl & Hm).
  cbn [cwd_of] in *. unfold outcome, world_after in *. cbn [s0 world mem] in *.
  fold i in E. rewrite (Hm eq_refl) in Hl. clear Hm.
  assert (Hrun : run
                 = (if (ret i =? 0)%Z then Ok (fst o, mem s')
                    else Raise (ShellException "git status" i),
                    (fst o, mem s'), world s')).
  { subst run. unfold worker, call. cbn [fst snd]. fold s0.
    unfold status, bind. rewrite E. unfold checked.
    destruct (ret i =? 0)%Z; reflexivity. }
  split; [|split; [|split; [|split; [|split]]]].
  - subst o'. rewrite Hrun. cbn [fst snd]. reflexivity.
  - subst o'. rewrite Hrun. reflexivity.
  - subst o'. rewrite Hrun. cbn [fst snd]. exact Hv.
  - rewrite Hrun. cbn [snd]. exact Hw.
  - subst o'. rewrite Hrun. cbn [fst snd]. eexists. split; [exact Hl|].
    intros Hnil. unfold Methods._getlogs. rewrite Hl. cbn [silenced logged_lines].
    rewrite Hnil. reflexivity.
  - intros f He Hd.
    assert (Hd0 : reports_dirty (fst o) s0) by exact Hd.
    destruct (method_dirty ub_cmd f (fst o) s0 He Hd0) as (msg & s2 & E2 & Hc2 & Hw2).
    exists msg, (fst o, mem s2). split; [|exact Hc2].
    unfold worker, call. cbn [fst snd]. fold s0. rewrite E2.
    cbn [s0 world] in Hw2. now rewrite Hw2.
Qed.

Lemma worker_silences_the_repo_witness :
  let run := worker (status inert_cmd) (ubelt, fresh) dirty_world in
  (exists line,
      logged_lines (snd (snd (fst run))) = [("DEBUG", line)]
      /\ Methods._getlogs (snd (snd (fst run))) = line)
  /\ exists msg o2,
      worker (method inert_cmd Ensure) (ubelt, fresh) dirty_world
      = (Raise (DirtyRepoError msg), o2, dirty_world)
      /\ logged_cmds (snd o2) = [].
Proof.
  intros run.
  pose proof (worker_silences_the_repo inert_cmd (ubelt, fresh) dirty_world) as H.
  cbv zeta in H. destruct H as (_ & _ & _ & _ & (line & Hl & Hg) & Hd).
  split.
  - exists line. split; [exact Hl|exact (Hg eq_refl)].
  - apply Hd; [reflexivity|].
    split; [right; split; reflexivity|reflexivity].
Defined.

End Registry.

(* ================================================================== *)
(** * The code directory and the construction of the registry *)

Module Setup.
Import Py Repo RepoRegistry Engine Batch Main Descriptor.

(** Settings in which only one source names a directory. *)
Definition only_codedir (c : string) : Settings :=
  {| argv_codedir := c; argv_codedpath := ""; env_CODE_DPATH := ""; env_CODE_DIR := "" |}.

Definition only_codedpath (c : string) : Settings :=
  {| argv_codedir := ""; argv_codedpath := c; env_CODE_DPATH := ""; env_CODE_DIR := "" |}.

Definition only_CODE_DPATH (c : string) : Settings :=
  {| argv_codedir := ""; argv_codedpath := ""; env_CODE_DPATH := c; env_CODE_DIR := "" |}.

Definition only_CODE_DIR (c : string) : Settings :=
  {| argv_codedir := ""; argv_codedpath := ""; env_CODE_DPATH := ""; env_CODE_DIR := c |}.

Definition no_settings : Settings := only_codedir "".

(** What is made of the directory [c] that was chosen: itself when it
    exists, else its expansion when that exists. *)
Definition settle (expandpath : string -> string) (w : Git.World) (c : string)
  : option string :=
  if Git.path_exists (w c) then Some c
  else if Git.path_exists (w (expandpath c)) then Some (expandpath c)
  else None.

Lemma determine_chosen expandpath st w c :
  match filter (fun c => negb (String.eqb c ""))
          [argv_codedir st; argv_codedpath st; env_CODE_DPATH st; env_CODE_DIR st]
  with
  | c' :: _ => c'
  | [] => expandpath "~/code"
  end = c ->
  match settle expandpath w c with
  | Some p => determine_code_dpath expandpath st w = Ok p
  | None => exists e, determine_code_dpath expandpath st w = Raise e
  end.
Proof.
  intros Hc. unfold determine_code_dpath, settle. rewrite Hc.
  destruct (Git.path_exists (w c)) eqn:E1; cbn [negb].
  - now rewrite E1.
  - destruct (Git.path_exists (w (expandpath c))) eqn:E2; cbn [negb].
    + reflexivity.
    + eexists. reflexivity.
Qed.

Lemma nonempty_eqb c : c <> "" -> negb (String.eqb c "") = true.
Proof. intros H. apply String.eqb_neq in H. now rewrite H. Qed.

(** How [determine_code_dpath] ends when [c] is the directory it chose:
    with [c] when it exists, else with its expansion when that exists, else
    with an Exception. *)
Definition settles (expandpath : string -> string) (st : Settings)
           (w : Git.World) (c : string) : Prop :=
  match settle expandpath w c with
  | Some p => determine_code_dpath expandpath st w = Ok p
  | None => exists msg, determine_code_dpath expandpath st w = Raise (Exception msg)
  end.

Lemma determine_settles expandpath st w c :
  match filter (fun c => negb (String.eqb c ""))
          [argv_codedir st; argv_codedpath st; env_CODE_DPATH st; env_CODE_DIR st]
  with
  | c' :: _ => c'
  | [] => expandpath "~/code"
  end = c ->
  settles expandpath st w c.
Proof.
  intros Hc. unfold settles, determine_code_dpath, settle. rewrite Hc.
  destruct (Git.path_exists (w c)) eqn:E1; cbn [negb].
  - now rewrite E1.
  - destruct (Git.path_exists (w (expandpath c))) eqn:E2; cbn [negb].
    + reflexivity.
    + eexists. reflexivity.
Qed.

(** X13. [determine_code_dpath] returns only a directory that exists: the
    one it chose, as it was given, when that exists, else its expansion, and
    it raises when neither exists.  It chooses the first that is not empty
    of [--codedir], [--codedpath], [CODE_DPATH] and [CODE_DIR], in this
    order, whatever the later ones are; with none of them it is [~/code],
    expanded. *)
Theorem determine_code_dpath_first_given :
  forall expandpath st w,
    (forall p, determine_code_dpath expandpath st w = Ok p ->
               Git.path_exists (w p) = true)
    /\ (argv_codedir st <> "" -> settles expandpath st w (argv_codedir st))
    /\ (argv_codedir st = "" -> argv_codedpath st <> "" ->
        settles expandpath st w (argv_codedpath st))
    /\ (argv_codedir st = "" -> argv_codedpath st = "" ->
        env_CODE_DPATH st <> "" ->
        settles expandpath st w (env_CODE_DPATH st))
    /\ (argv_codedir st = "" -> argv_codedpath st = "" ->
        env_CODE_DPATH st = "" -> env_CODE_DIR st <> "" ->
        settles expandpath st w (env_CODE_DIR st))
    /\ (argv_codedir st = "" -> argv_codedpath st = "" ->
        env_CODE_DPATH st = "" -> env_CODE_DIR st = "" ->
        settles expandpath st w (expandpath "~/code"))
    /\ (argv_codedir st <> "" ->
        determine_code_dpath expandpath st w
        = determine_code_dpath expandpath (only_codedir (argv_codedir st)) w)
    /\ (argv_codedir st = "" -> argv_codedpath st <> "" ->
        determine_code_dpath expandpath st w
        = determine_code_dpath expandpath (only_codedpath (argv_codedpath st)) w)
    /\ (argv_codedir st = "" -> argv_codedpath st = "" -> env_CODE_DPATH st <> "" ->
        determine_code_dpath expandpath st w
        = determine_code_dpath expandpath (only_CODE_DPATH (env_CODE_DPATH st)) w)
    /\ (argv_codedir st = "" -> argv_codedpath st = "" -> env_CODE_DPATH st = "" ->
        determine_code_dpath expandpath st w
        = determine_code_dpath expandpath (only_CODE_DIR (env_CODE_DIR st)) w)
    /\ (forall c, c <> "" ->
          match settle expandpath w c with
          | Some p => determine_code_dpath expandpath (only_codedir c) w = Ok p
          | None => exists e, determine_code_dpath expandpath (only_codedir c) w = Raise e
          end)
    /\ match settle expandpath w (expandpath "~/code") with
       | Some p => determine_code_dpath expandpath no_settings w = Ok p
       | None => exists e, determine_code_dpath expandpath no_settings w = Raise e
       end.
Proof.
  intros expandpath st w.
  split; [|split; [|split; [|split; [|split; [|split; [|split; [|split; [|split;
    [|split; [|split]]]]]]]]]].
  - intros p. unfold determine_code_dpath.
    set (c := match filter _ _ with c' :: _ => c' | [] => _ end).
    destruct (Git.path_exists (w c)) eqn:E1; cbn [negb].
    + rewrite E1. cbn [negb]. intros H. inversion H; subst. exact E1.
    + destruct (Git.path_exists (w (expandpath c))) eqn:E2; cbn [negb];
        [|discriminate].
      intros H. inversion H; subst. exact E2.
  - intros H1. apply determine_settles. cbn [filter].
    now rewrite (nonempty_eqb _ H1).
  - intros H1 H2. apply determine_settles. cbn [filter].
    rewrite (proj2 (String.eqb_eq _ _) H1). cbn [negb].
    now rewrite (nonempty_eqb _ H2).
  - intros H1 H2 H3. apply determine_settles. cbn [filter].
    rewrite (proj2 (String.eqb_eq _ _) H1), (proj2 (String.eqb_eq _ _) H2).
    cbn [negb]. now rewrite (nonempty_eqb _ H3).
  - intros H1 H2 H3 H4. apply determine_settles. cbn [filter].
    rewrite (proj2 (String.eqb_eq _ _) H1), (proj2 (String.eqb_eq _ _) H2),
      (proj2 (String.eqb_eq _ _) H3).
    cbn [negb]. now rewrite (nonempty_eqb _ H4).
  - intros H1 H2 H3 H4. apply determine_settles. cbn [filter].
    now rewrite (proj2 (String.eqb_eq _ _) H1), (proj2 (String.eqb_eq _ _) H2),
      (proj2 (String.eqb_eq _ _) H3), (proj2 (String.eqb_eq _ _) H4).
  - intros H1. unfold determine_code_dpath, only_codedir. cbn [filter argv_codedir
      argv_codedpath env_CODE_DPATH env_CODE_DIR].
    rewrite (nonempty_eqb _ H1). reflexivity.
  - intros H1 H2. unfold determine_code_dpath, only_codedpath. cbn [filter argv_codedir
      argv_codedpath env_CODE_DPATH env_CODE_DIR].
    rewrite H1, (nonempty_eqb _ H2). reflexivity.
  - intros H1 H2 H3. unfold determine_code_dpath, only_CODE_DPATH. cbn [filter argv_codedir
      argv_codedpath env_CODE_DPATH env_CODE_DIR].
    rewrite H1, H2, (nonempty_eqb _ H3). reflexivity.
  - intros H1 H2 H3. unfold determine_code_dpath, only_CODE_DIR. cbn [filter argv_codedir
      argv_codedpath env_CODE_DPATH env_CODE_DIR].
    rewrite H1, H2, H3. reflexivity.
  - intros c Hc. apply determine_chosen. unfold only_codedir. cbn [filter argv_codedir
      argv_codedpath env_CODE_DPATH env_CODE_DIR].
    rewrite (nonempty_eqb _ Hc). reflexivity.
  - apply determine_chosen. reflexivity.
Qed.

(** A home directory in which [~/code] exists, and nothing else does. *)
Definition expand_home (p : string) : string :=
  if String.prefix "~/" p then "/home/user" ++ substring 1 (String.length p) p
  else p.

Definition home_code : Git.World :=
  fun p =>
    if String.eqb p "/home/user/code" then ubelt_tree false
    else nowhere p.

Lemma determine_code_dpath_first_given_witness :
  determine_code_dpath expand_home
    {| argv_codedir := ""; argv_codedpath := "~/code";
       env_CODE_DPATH := "/nowhere"; env_CODE_DIR := "" |} home_code
  = Ok "/home/user/code"
  /\ Git.path_exists (home_code "/home/user/code") = true
  /\ determine_code_dpath expand_home
       {| argv_codedir := ""; argv_codedpath := "";
          env_CODE_DPATH := ""; env_CODE_DIR := "~/code" |} home_code
     = Ok "/home/user/code"
  /\ (exists msg,
         determine_code_dpath expand_home
           {| argv_codedir := ""; argv_codedpath := "";
              env_CODE_DPATH := "/nowhere"; env_CODE_DIR := "~/code" |} home_code
         = Raise (Exception msg))
  /\ determine_code_dpath expand_home no_settings home_code = Ok "/home/user/code".
Proof.
  pose proof (determine_code_dpath_first_given expand_home
                {| argv_codedir := ""; argv_codedpath := "~/code";
                   env_CODE_DPATH := "/nowhere"; env_CODE_DIR := "" |} home_code)
    as (H1 & _ & H3 & _).
  pose proof (determine_code_dpath_first_given expand_home
                {| argv_codedir := ""; argv_codedpath := "";
                   env_CODE_DPATH := ""; env_CODE_DIR := "~/code" |} home_code)
    as (_ & _ & _ & _ & G5 & _).
  pose proof (determine_code_dpath_first_given expand_home
                {| argv_codedir := ""; argv_codedpath := "";
                   env_CODE_DPATH := "/nowhere"; env_CODE_DIR := "~/code" |}
                home_code)
    as (_ & _ & _ & K4 & _).
  pose proof (determine_code_dpath_first_given expand_home no_settings home_code)
    as (_ & _ & _ & _ & _ & _ & _ & _ & _ & _ & _ & L12).
  split; [|split; [exact (H1 _ eq_refl)|split; [|split; [|exact L12]]]].
  - refine (H3 eq_refl _). discriminate.
  - refine (G5 eq_refl eq_refl eq_refl _). discriminate.
  - refine (K4 eq_refl eq_refl _). discriminate.
Defined.

(** What the constructor leaves in a new object. *)
Lemma init_fields expandpath w kw r m :
  init expandpath w kw = Ok (r, m) ->
  code_dpath r = option_map expandpath (kw_code_dpath kw)
  /\ logged_cmds m = [] /\ logged_lines m = [] /\ pygit_cached m = false.
Proof.
  unfold init. intros H.
  destruct (resolve_remote w kw) as [[d k|l g]|e]; try discriminate.
  destruct (dict_get k d) as [u|]; [|discriminate].
  destruct (match kw_dpath kw with
            | Some p => Ok p
            | None => match kw_code_dpath kw with
                      | Some c => Ok (path_join c _)
                      | None => Raise TypeError
                      end
            end) as [p|e]; [|discriminate].
  destruct (kw_unknown kw); [|discriminate].
  inversion H; subst; clear H. simpl. auto.
Qed.

(** What [make_registry] makes of one descriptor, with the directory [c]. *)
Definition built (expandpath : string -> string) (c : string) (w : Git.World)
           (d : Descr) (o : RepoObj) : Prop :=
  CommonRepo expandpath c w d = Ok o
  /\ invariant (fst o)
  /\ logged_cmds (snd o) = []
  /\ (has_code_dpath d = false -> code_dpath (fst o) = Some (expandpath c)).

Lemma make_repos_built expandpath c w devel_repos : forall repos,
  make_repos expandpath c w devel_repos = Ok repos ->
  Forall2 (built expandpath c w) devel_repos repos.
Proof.
  induction devel_repos as [|d ds IH]; intros repos H; cbn [make_repos] in H.
  - inversion H. constructor.
  - destruct (CommonRepo expandpath c w d) as [o|e] eqn:Eo; [|discriminate].
    destruct (make_repos expandpath c w ds) as [os|e]; [|discriminate].
    inversion H; subst. constructor; [|now apply IH].
    split; [exact Eo|]. unfold CommonRepo in Eo. destruct o as [r m].
    destruct (init_fields _ _ _ _ _ Eo) as (Hcode & Hcmds & _).
    split; [exact (init_invariant _ _ _ _ _ Eo)|]. split; [exact Hcmds|].
    intros Hd. rewrite Hd in Hcode. exact Hcode.
Qed.

Lemma make_repos_fails expandpath c w devel_repos d e :
  In d devel_repos -> CommonRepo expandpath c w d = Raise e ->
  exists e', make_repos expandpath c w devel_repos = Raise e'.
Proof.
  induction devel_repos as [|d0 ds IH]; intros Hin He; [elim Hin|].
  cbn [make_repos]. destruct (CommonRepo expandpath c w d0) as [o|e0] eqn:E0;
    [|eexists; reflexivity].
  destruct Hin as [->|Hin]; [congruence|].
  destruct (IH Hin He) as (e' & E'). rewrite E'. eexists. reflexivity.
Qed.

(** X14. [make_registry] builds one repo for each descriptor, in order,
    with the code directory that [determine_code_dpath] returns: each
    repo satisfies the invariant of the descriptor, has no recorded
    command, and, unless its descriptor gives a [code_dpath] of its own,
    has that directory, expanded, as its [code_dpath].  When the
    constructor raises on one descriptor no registry is made. *)
Theorem make_registry_builds_every_repo :
  forall expandpath st w devel_repos,
    (forall repos,
        make_registry expandpath st w devel_repos = Ok repos ->
        exists c,
          determine_code_dpath expandpath st w = Ok c
          /\ Git.path_exists (w c) = true
          /\ Forall2 (built expandpath c w) devel_repos repos)
    /\ (forall c d e,
          determine_code_dpath expandpath st w = Ok c ->
          In d devel_repos -> CommonRepo expandpath c w d = Raise e ->
          exists e', make_registry expandpath st w devel_repos = Raise e').
Proof.
  intros expandpath st w devel_repos. split.
  - intros repos H. unfold make_registry in H.
    destruct (determine_code_dpath expandpath st w) as [c|e] eqn:Ec; [|discriminate].
    exists c. split; [reflexivity|]. split; [|now apply make_repos_built].
    unfold determine_code_dpath in Ec.
    destruct (negb (Git.path_exists (w _))) eqn:En in Ec; [discriminate|].
    inversion Ec; subst. now apply negb_false_iff in En.
  - intros c d e Hc Hin He. unfold make_registry. rewrite Hc.
    eapply make_repos_fails; eauto.
Qed.

(** The descriptors of the docstring of [Repo]. *)
Definition ubelt_descr : Descr :=
  {| has_code_dpath := false;
     kwargs := {| kw_name := None; kw_dpath := None; kw_code_dpath := None;
                  kw_remotes := None;
                  kw_remote := Some "https://github.com/Erotemic/ubelt.git";
                  kw_branch := NoParam; kw_verbose := NoParam;
                  kw_unknown := [] |} |}.

Definition mirror_descr : Descr :=
  {| has_code_dpath := false; kwargs := two_remotes_kwargs |}.

Definition ambiguous_descr : Descr :=
  {| has_code_dpath := false;
     kwargs := {| kw_name := None; kw_dpath := None; kw_code_dpath := None;
                  kw_remotes := kw_remotes two_remotes_kwargs;
                  kw_remote := None;
                  kw_branch := NoParam; kw_verbose := NoParam;
                  kw_unknown := [] |} |}.

Lemma make_registry_builds_every_repo_witness :
  (exists c,
      determine_code_dpath expand_home no_settings home_code = Ok c
      /\ Git.path_exists (home_code c) = true
      /\ Forall2 (built expand_home c home_code) [ubelt_descr; mirror_descr]
           [({| name := "ubelt"; dpath := "/home/user/code/ubelt";
                code_dpath := Some "/home/user/code";
                remotes := [("origin", "https://github.com/Erotemic/ubelt.git")];
                remote := "origin"; branch := Some "master";
                url := "https://github.com/Erotemic/ubelt.git";
                pkg_dpath := "/home/user/code/ubelt/ubelt" |}, fresh);
            ({| name := "ubelt"; dpath := "/home/user/code/ubelt";
                code_dpath := Some "/home/user/code";
                remotes := remotes two_remotes_repo;
                remote := "github"; branch := Some "master";
                url := "https://github.com/Erotemic/ubelt.git";
                pkg_dpath := "/home/user/code/ubelt/ubelt" |}, fresh)])
  /\ exists e',
      make_registry expand_home no_settings home_code [ubelt_descr; ambiguous_descr]
      = Raise e'.
Proof.
  split.
  - exact (proj1 (make_registry_builds_every_repo expand_home no_settings home_code
                    [ubelt_descr; mirror_descr]) _ eq_refl).
  - refine (proj2 (make_registry_builds_every_repo expand_home no_settings home_code
                     [ubelt_descr; ambiguous_descr])
              "/home/user/code" ambiguous_descr _ eq_refl _ eq_refl).
    simpl. auto.
Defined.

(** ** The batch on a registry that was made *)

Section Listing.
Variable ub_cmd : string -> option string -> Git.World -> CmdInfo * Git.World.
Variable f : Mutating.

Lemma call_keeps_cwd o w r o' w' :
  code_dpath (fst o) <> None -> cwd_known (snd o) ->
  call (method ub_cmd f) o w = (r, o', w') ->
  cwd_known (snd o').
Proof.
  intros Hcode Hk H.
  pose proof (method_keeps_cwd ub_cmd f (fst o) {| mem := snd o; world := w |}
                Hcode Hk) as Hm.
  unfold call in H.
  destruct (method ub_cmd f (fst o) {| mem := snd o; world := w |}) as [r0 s].
  inversion H; subst. exact Hm.
Qed.

Lemma apply_loop_keeps_cwd repos : forall w acc processed repos' w',
  Forall (fun o : RepoObj => code_dpath (fst o) <> None /\ cwd_known (snd o)) repos ->
  Forall (fun o : RepoObj => cwd_known (snd o)) acc ->
  apply_loop (method ub_cmd f) repos w acc = (Ok processed, repos', w') ->
  Forall (fun o : RepoObj => cwd_known (snd o)) processed.
Proof.
  induction repos as [|o repos IH]; intros w acc processed repos' w' HF Hacc H;
    cbn [apply_loop] in H.
  - inversion H; subst. exact Hacc.
  - inversion HF as [|? ? [Hcode Hk] HF']; subst.
    destruct (call (method ub_cmd f) o w) as [[r o1] w1] eqn:Ec.
    pose proof (call_keeps_cwd _ _ _ _ _ Hcode Hk Ec) as Hk1.
    assert (Hcont : (let '(res0, rest', w'') :=
                       apply_loop (method ub_cmd f) repos w1 (acc ++ [o1]) in
                     (res0, o1 :: rest', w'')) = (Ok processed, repos', w') ->
                    Forall (fun o : RepoObj => cwd_known (snd o)) processed).
    { destruct (apply_loop (method ub_cmd f) repos w1 (acc ++ [o1]))
        as [[res0 rest'] w2] eqn:El.
      intros H0. inversion H0; subst.
      eapply IH; [exact HF'| |exact El].
      apply Forall_app. split; [exact Hacc|]. constructor; [exact Hk1|constructor]. }
    destruct r as [[]|e]; [exact (Hcont H)|].
    destruct e; try exact (Hcont H); discriminate.
Qed.

End Listing.

(** X15. On repos that have a [code_dpath] and no recorded command without
    its directory, as those of [make_registry] are, the listing of the
    recorded commands never fails: sequential [apply] of [pull] or of
    [ensure] ends exactly as its loop over the repos ends, so it raises
    only what the method raised on a repo, and never DirtyRepoError. *)
Theorem apply_lists_the_commands_of_a_registry :
  forall ub_cmd f repos w,
    Forall (fun o : RepoObj => code_dpath (fst o) <> None /\ cwd_known (snd o)) repos ->
    apply (method ub_cmd f) repos w = apply_loop (method ub_cmd f) repos w []
    /\ forall msg,
        fst (fst (apply_loop (method ub_cmd f) repos w [])) <> Raise (DirtyRepoError msg).
Proof.
  intros ub_cmd f repos w HF.
  destruct (apply_loop (method ub_cmd f) repos w []) as [[res repos'] w'] eqn:El.
  split.
  - unfold apply. rewrite El. destruct res as [processed|e]; [|reflexivity].
    pose proof (apply_loop_keeps_cwd ub_cmd f repos w [] processed repos' w' HF
                  (Forall_nil _) El) as Hk.
    unfold show_cmdlog.
    destruct (existsb _ processed) eqn:Ex; [|reflexivity].
    apply existsb_exists in Ex. destruct Ex as (o & Ho & Hex).
    rewrite Forall_forall in Hk. specialize (Hk o Ho). unfold cwd_known in Hk.
    congruence.
  - cbn [fst]. exact (proj1 (Registry.apply_loop_inv _ _ _ _ _ _ _ El)).
Qed.

Lemma apply_lists_the_commands_of_a_registry_witness :
  exists o1 o2,
    apply (method inert_cmd Pull) [(ubelt, fresh); (netharn, fresh)] two_clones
    = (Ok [o1; o2], [o1; o2], two_clones)
    /\ logged_cmds (snd o1) = []
    /\ logged_cmds (snd o2) = [("git pull", Some "/code/netharn")].
Proof.
  do 2 eexists. split.
  - refine (eq_trans (proj1 (apply_lists_the_commands_of_a_registry inert_cmd Pull
                               [(ubelt, fresh); (netharn, fresh)] two_clones _))
              eq_refl).
    repeat constructor; discriminate.
  - split; reflexivity.
Defined.

End Setup.

(* ================================================================== *)
(** * More on the urls *)

Module URLShape.
Import Str StrFacts Re ReFacts GitURL GitURLFacts Py Repo Descriptor.

Lemma word_not_at c : word c = true -> not_at c = true.
Proof.
  unfold not_at. destruct (Ascii.eqb c "@") eqn:E; [|reflexivity].
  apply Ascii.eqb_eq in E. subst c. discriminate.
Qed.

(** The text of a user: what is before its [@]. *)
Definition is_user (u : string) : Prop :=
  exists x, u = x ++ "@" /\ all not_at x = true /\ x <> "".

Lemma user_match_inv a g g' :
  matches re_user a g g' -> g' = ("user", a) :: g /\ is_user a.
Proof.
  unfold re_user. intros M. inv_matches. split; [reflexivity|].
  match goal with
  | |- is_user (String ?c ?a1 ++ ?b ++ "@") => exists (String c (a1 ++ b))
  end.
  split; [simpl; now rewrite append_assoc|]. split; [|discriminate].
  simpl. apply andb_true_iff. split; [now apply word_not_at|].
  rewrite all_append. apply andb_true_iff. split; [|assumption].
  eapply all_impl; [|eassumption]. exact word_not_at.
Qed.

(** The text of a port: a colon and digits. *)
Definition is_port (q : string) : Prop :=
  exists ds, q = ":" ++ ds /\ all is_digit ds = true /\ ds <> "".

(** The text of a transport: a word and [://]. *)
Definition is_transport (t : string) : Prop :=
  exists w, t = w ++ "://" /\ all word w = true /\ w <> "".

Lemma transport_match_inv a g g' :
  matches re_transport a g g' -> g' = ("transport", a) :: g /\ is_transport a.
Proof.
  unfold re_transport. intros M. inv_matches. split; [reflexivity|].
  match goal with
  | |- is_transport (String ?c ?a1 ++ "://") => exists (String c a1)
  end.
  split; [reflexivity|]. split; [|discriminate].
  simpl. apply andb_true_iff. split; assumption.
Qed.

Lemma host_match_inv a g g' :
  matches re_host a g g' -> g' = ("host", a) :: g /\ is_host a.
Proof.
  unfold re_host. intros M. inv_matches. split; [reflexivity|].
  split; [|discriminate]. simpl. apply andb_true_iff. split; assumption.
Qed.

Lemma port_match_inv a g g' :
  matches re_port a g g' -> g' = ("port", a) :: g /\ is_port a.
Proof.
  unfold re_port. intros M. inv_matches. split; [reflexivity|].
  eexists. split; [reflexivity|]. split; [|discriminate].
  simpl. apply andb_true_iff. split; assumption.
Qed.

Lemma path_match_inv a g g' :
  matches re_path a g g' -> g' = ("path", a) :: g /\ is_path a.
Proof.
  unfold re_path. intros M. inv_matches. split; [reflexivity|].
  eexists. split; [reflexivity|assumption].
Qed.

(** What a match of the url pattern is made of, and what its groups hold. *)
Lemma url_match_shape a g :
  matches pattern_url a [] g ->
  a = field "transport" g ++ field "user" g ++ field "host" g
      ++ field "port" g ++ "/" ++ field "path" g
  /\ is_transport (field "transport" g)
  /\ (field "user" g = "" \/ is_user (field "user" g))
  /\ is_host (field "host" g)
  /\ (field "port" g = "" \/ is_port (field "port" g))
  /\ is_path (field "path" g).
Proof.
  unfold pattern_url. intros M.
  inversion M as [| | |? ? t rest ? g1 ? Mt Mrest| | |]; subst; clear M.
  inversion Mrest as [| | |? ? u rest2 ? g2 ? Mu Mrest2| | |]; subst; clear Mrest.
  inversion Mrest2 as [| | |? ? h rest3 ? g3 ? Mh Mrest3| | |]; subst; clear Mrest2.
  inversion Mrest3 as [| | |? ? q rest4 ? g4 ? Mq Mrest4| | |]; subst; clear Mrest3.
  inversion Mrest4 as [| | |? ? sl p ? g5 ? Msl Mp| | |]; subst; clear Mrest4.
  inversion Msl; subst; clear Msl.
  destruct (transport_match_inv _ _ _ Mt) as [-> Ht].
  destruct (host_match_inv _ _ _ Mh) as [-> Hh].
  destruct (path_match_inv _ _ _ Mp) as [-> Hp].
  inversion Mu as [| | | |? ? ? ? Mu'|? ?|]; subst; clear Mu;
    [destruct (user_match_inv _ _ _ Mu') as [-> Hu]|];
    (inversion Mq as [| | | |? ? ? ? Mq'|? ?|]; subst; clear Mq;
     [destruct (port_match_inv _ _ _ Mq') as [-> Hq]|]);
    unfold field; simpl; repeat split; auto; apply Hh.
Qed.

(** What a match of the ssh pattern is made of. *)
Lemma ssh_match_shape a g :
  matches pattern_ssh a [] g ->
  a = field "user" g ++ field "host" g ++ ":" ++ field "path" g
  /\ field "transport" g = "" /\ field "port" g = ""
  /\ is_user (field "user" g)
  /\ is_host (field "host" g)
  /\ is_path (field "path" g).
Proof.
  unfold pattern_ssh. intros M.
  inversion M as [| | |? ? u rest ? g1 ? Mu Mrest| | |]; subst; clear M.
  inversion Mrest as [| | |? ? h rest2 ? g2 ? Mh Mrest2| | |]; subst; clear Mrest.
  inversion Mrest2 as [| | |? ? co p ? g3 ? Mco Mp| | |]; subst; clear Mrest2.
  inversion Mco; subst; clear Mco.
  destruct (user_match_inv _ _ _ Mu) as [-> Hu].
  destruct (host_match_inv _ _ _ Mh) as [-> Hh].
  destruct (path_match_inv _ _ _ Mp) as [-> Hp].
  unfold field; simpl. repeat split; auto; apply Hh.
Qed.

(** The url a match was found in. *)
Definition found_in (url a : string) : Prop :=
  exists pre post, url = pre ++ a ++ post.

(** What [parts] returns, by syntax. *)
Lemma parts_shape url p :
  parts url = Some p ->
  is_host (host p) /\ is_path (path p)
  /\ match syntax p with
     | SyntaxUrl =>
         found_in url (transport p ++ user p ++ host p ++ port p ++ "/" ++ path p)
         /\ is_transport (transport p)
         /\ (user p = "" \/ is_user (user p))
         /\ (port p = "" \/ is_port (port p))
     | SyntaxSsh =>
         found_in url (user p ++ host p ++ ":" ++ path p)
         /\ transport p = "" /\ port p = "" /\ is_user (user p)
         /\ search pattern_url url = None
     end.
Proof.
  unfold parts. simpl. intros H.
  destruct (search pattern_url url) eqn:E1.
  - inversion H; subst. clear H.
    destruct (search_sound _ _ _ E1) as (pre & a & b & -> & M).
    destruct (url_match_shape _ _ M) as (Ea & Ht & Hu & Hh & Hq & Hp).
    cbn [syntax host path transport user port info_of].
    split; [exact Hh|]. split; [exact Hp|].
    split; [exists pre, b; rewrite Ea; reflexivity|]. auto.
  - destruct (search pattern_ssh url) eqn:E2; [|discriminate].
    inversion H; subst. clear H.
    destruct (search_sound _ _ _ E2) as (pre & a & b & -> & M).
    destruct (ssh_match_shape _ _ M) as (Ea & Ht & Hq & Hu & Hh & Hp).
    cbn [syntax host path transport user port info_of].
    split; [exact Hh|]. split; [exact Hp|].
    split; [exists pre, b; rewrite Ea; reflexivity|]. auto.
Qed.

(** X16. What [parts] returns, by syntax.  For the url syntax the url
    holds transport, user, host, port, [/] and path in a row; the transport
    is a word with its [://], the user is empty or ends with its [@], and
    the port is empty or a colon and digits.  For the ssh syntax the url
    holds user, host, [:] and path in a row; the user ends with its [@],
    and the transport and the port are empty.  In both the host is a
    non-empty run of host characters and the path ends with [.git]. *)
Theorem parts_fields_by_syntax :
  forall url p,
    parts url = Some p ->
    is_host (host p) /\ is_path (path p)
    /\ match syntax p with
       | SyntaxUrl =>
           found_in url (transport p ++ user p ++ host p ++ port p ++ "/" ++ path p)
           /\ is_transport (transport p)
           /\ (user p = "" \/ is_user (user p))
           /\ (port p = "" \/ is_port (port p))
       | SyntaxSsh =>
           found_in url (user p ++ host p ++ ":" ++ path p)
           /\ transport p = "" /\ port p = "" /\ is_user (user p)
       end.
Proof.
  intros url p H. destruct (parts_shape url p H) as (Hh & Hp & Hs).
  split; [exact Hh|]. split; [exact Hp|].
  destruct (syntax p); [exact Hs|].
  destruct Hs as (H1 & H2 & H3 & H4 & _). auto.
Qed.

Lemma parts_fields_by_syntax_witness :
  found_in "see ssh://git@gitlab.kitware.com:8022/computer-vision/netharn.git now"
    ("ssh://" ++ "git@" ++ "gitlab.kitware.com" ++ ":8022" ++ "/"
     ++ "computer-vision/netharn.git")
  /\ is_port ":8022"
  /\ found_in "git@gitlab.kitware.com:computer-vision/netharn.git"
       ("git@" ++ "gitlab.kitware.com" ++ ":" ++ "computer-vision/netharn.git").
Proof.
  pose proof (parts_fields_by_syntax
                "see ssh://git@gitlab.kitware.com:8022/computer-vision/netharn.git now"
                _ eq_refl) as (_ & _ & H1 & _ & _ & [H2|H2]); [discriminate|].
  pose proof (parts_fields_by_syntax
                "git@gitlab.kitware.com:computer-vision/netharn.git"
                _ eq_refl) as (_ & _ & H3 & _).
  split; [exact H1|]. split; [exact H2|exact H3].
Defined.

Lemma contains_found sub url a :
  found_in url a -> contains sub a = true -> contains sub url = true.
Proof.
  intros (pre & post & ->) H.
  destruct (contains_elim _ _ H) as (a1 & a2 & ->).
  replace (pre ++ (a1 ++ sub ++ a2) ++ post)
    with ((pre ++ a1) ++ sub ++ (a2 ++ post))
    by now rewrite !append_assoc.
  apply contains_intro.
Qed.

Lemma contains_path p : is_path p -> contains ".git" p = true.
Proof.
  intros (d & -> & _). rewrite <- (append_nil_r ".git"). apply contains_intro.
Qed.

Lemma contains_append_r sub a b :
  contains sub b = true -> contains sub (a ++ b) = true.
Proof.
  intros H. destruct (contains_elim _ _ H) as (b1 & b2 & ->).
  rewrite <- append_assoc. apply contains_intro.
Qed.

(** X17. A url that does not hold [.git] is not a url for [GitURL]:
    [parts] raises on it, and so does [format], for every protocol. *)
Theorem parts_needs_dot_git :
  forall url,
    contains ".git" url = false ->
    parts url = None /\ forall protocol, format url protocol = None.
Proof.
  intros url H.
  assert (Hp : parts url = None).
  { destruct (parts url) as [p|] eqn:E; [|reflexivity].
    destruct (parts_shape url p E) as (_ & Hpath & Hs).
    apply contains_path in Hpath.
    assert (Hc : contains ".git" url = true).
    { destruct (syntax p).
      - destruct Hs as (Hf & _). apply (contains_found _ _ _ Hf).
        do 4 apply contains_append_r. exact Hpath.
      - destruct Hs as (Hf & _). apply (contains_found _ _ _ Hf).
        do 3 apply contains_append_r. exact Hpath. }
    congruence. }
  split; [exact Hp|]. intros protocol. unfold format. now rewrite Hp.
Qed.

Lemma parts_needs_dot_git_witness :
  parts "https://github.com/Erotemic/ubelt" = None
  /\ forall protocol, format "https://github.com/Erotemic/ubelt" protocol = None.
Proof.
  exact (parts_needs_dot_git "https://github.com/Erotemic/ubelt" eq_refl).
Defined.

(** ** What [format] returns parses again *)

(** A protocol that [format] can render so that the url parses again:
    [ssh], or a word, as [https] and [http] are. *)
Definition is_protocol (protocol : string) : Prop :=
  protocol = "ssh" \/ (all word protocol = true /\ protocol <> "").

Lemma host_plus h g : is_host h -> matches re_host h g (("host", h) :: g).
Proof.
  intros [Hall Hne]. destruct h as [|c h]; [now elim Hne|].
  simpl in Hall. apply andb_true_iff in Hall. destruct Hall as [Hc Hall].
  unfold re_host. apply MNamed. now apply MPlus.
Qed.

Lemma path_star p g : is_path p -> matches re_path p g (("path", p) :: g).
Proof.
  intros (d & -> & Hd). unfold re_path. apply MNamed.
  eapply MCat; [now apply MStar|apply MLit].
Qed.

Lemma transport_plus w g :
  all word w = true -> w <> "" ->
  matches re_transport (w ++ "://") g (("transport", w ++ "://") :: g).
Proof.
  intros Hall Hne. destruct w as [|c w]; [now elim Hne|].
  simpl in Hall. apply andb_true_iff in Hall. destruct Hall as [Hc Hall].
  unfold re_transport. apply (MNamed "transport" _ (String c w ++ "://")).
  eapply MCat; [now apply MPlus|apply MLit].
Qed.

(** The transport rendering matches the url pattern, with no user and no
    port. *)
Lemma transport_form_matches w h p :
  all word w = true -> w <> "" -> is_host h -> is_path p ->
  exists g, matches pattern_url (w ++ "://" ++ h ++ "/" ++ p) [] g.
Proof.
  intros Hw Hne Hh Hp. eexists.
  replace (w ++ "://" ++ h ++ "/" ++ p)
    with ((w ++ "://") ++ "" ++ h ++ "" ++ "/" ++ p)
    by (rewrite append_assoc; reflexivity).
  unfold pattern_url.
  apply MCat with (g1 := [("transport", w ++ "://")]);
    [now apply transport_plus|].
  eapply MCat; [apply MOptNone|].
  eapply MCat; [now apply host_plus|].
  eapply MCat; [apply MOptNone|].
  eapply MCat; [apply MLit|now apply path_star].
Qed.

Lemma search_some_of_match r a g :
  matches r a [] g -> search r a <> None.
Proof.
  intros M H. destruct (match_here r a) eqn:E.
  - rewrite (search_found _ _ _ E) in H. discriminate.
  - rewrite <- (append_nil_r a) in E. exact (match_here_none _ _ _ _ E M).
Qed.

Lemma format_parses url protocol u :
  is_protocol protocol -> format url protocol = Some u -> parts u <> None.
Proof.
  intros Hprot Hf. unfold format in Hf.
  destruct (parts url) as [p|] eqn:Ep; [|discriminate].
  destruct (parts_valid _ _ Ep) as [Hh Hq].
  destruct (String.eqb protocol "ssh") eqn:Es.
  - assert (Eu : u = "git@" ++ host p ++ ":" ++ path p) by now inversion Hf.
    subst u. clear Hf.
    destruct (search pattern_url ("git@" ++ host p ++ ":" ++ path p)) eqn:E1.
    + unfold parts. cbn [SYNTAX_PATTERNS first_match]. rewrite E1. discriminate.
    + assert (E2 : search pattern_url (host p ++ ":" ++ path p) = None).
      { apply (search_none_sub _ "git@" _ "").
        now rewrite append_nil_r. }
      rewrite (parts_ssh_form _ _ Hh Hq E2). discriminate.
  - destruct Hprot as [->|[Hw Hne]]; [discriminate|].
    assert (Eu : u = protocol ++ "://" ++ host p ++ "/" ++ path p).
    { inversion Hf. now rewrite append_assoc. }
    subst u. clear Hf.
    destruct (transport_form_matches protocol (host p) (path p) Hw Hne Hh Hq)
      as (g & M).
    pose proof (search_some_of_match _ _ _ M) as Hs.
    unfold parts. cbn [SYNTAX_PATTERNS first_match].
    destruct (search pattern_url _); [discriminate|now elim Hs].
Qed.

(** X18. What [format] returns for [ssh], or for a protocol that is a
    word, is again a url that [parts] accepts, so it can be formatted
    again, for any protocol. *)
Theorem format_output_parses :
  forall url protocol u,
    is_protocol protocol ->
    format url protocol = Some u ->
    (exists p, parts u = Some p)
    /\ forall protocol', exists u', format u protocol' = Some u'.
Proof.
  intros url protocol u Hprot Hf.
  pose proof (format_parses url protocol u Hprot Hf) as Hp.
  destruct (parts u) as [p|] eqn:E; [|now elim Hp].
  split; [now exists p|].
  intros protocol'. unfold format. rewrite E.
  destruct (String.eqb protocol' "ssh"); eexists; reflexivity.
Qed.

Lemma format_output_parses_witness :
  (exists p, parts "git@a.com:x@b.com/y.git" = Some p)
  /\ forall protocol', exists u', format "https://a.com/x@b.com/y.git" protocol' = Some u'.
Proof.
  split.
  - exact (proj1 (format_output_parses "https://u@a.com:80/x@b.com/y.git" "ssh" _
                    (or_introl eq_refl) eq_refl)).
  - refine (proj2 (format_output_parses "git@a.com:x@b.com/y.git" "https" _
                     (or_intror (conj eq_refl _)) eq_refl)).
    discriminate.
Defined.

End URLShape.

(* ================================================================== *)
(** * The protocol, rewritten again *)

Module Rewriting.
Import Str StrFacts Re GitURL GitURLFacts Py Repo Descriptor URLShape.

Lemma dict_get_of_key {V} k (d : dict V) :
  In k (keys d) -> exists v, dict_get k d = Some v.
Proof.
  induction d as [|[k' v'] d IH]; simpl; [intros []|].
  intros [->|H].
  - rewrite String.eqb_refl. eauto.
  - destruct (String.eqb k' k); eauto.
Qed.

Lemma format_of_parts v protocol :
  parts v <> None -> exists v', GitURL.format v protocol = Some v'.
Proof.
  intros H. unfold GitURL.format. destruct (parts v); [|now elim H].
  destruct (String.eqb protocol "ssh"); eexists; reflexivity.
Qed.

(** The loop of [set_protocol] ends when every url it goes through
    parses. *)
Lemma set_protocol_loop_ends protocol ks : forall r,
  NoDup ks ->
  (forall k, In k ks ->
     exists v, dict_get k (remotes r) = Some v /\ parts v <> None) ->
  exists r', set_protocol_loop protocol ks r = (Ok tt, r').
Proof.
  induction ks as [|key ks IH]; intros r Hnd H; cbn [set_protocol_loop].
  - eexists. reflexivity.
  - inversion Hnd as [|? ? Hnotin Hnd']; subst.
    destruct (H key (or_introl eq_refl)) as (v & Hv & Hp). rewrite Hv.
    destruct (format_of_parts v protocol Hp) as (v' & Hf). rewrite Hf.
    apply IH; [exact Hnd'|].
    intros k Hk. destruct (H k (or_intror Hk)) as (x & Hx & Hpx).
    exists x. split; [|exact Hpx]. cbn [remotes with_remotes].
    rewrite dict_get_set_other; [exact Hx|].
    intros ->. contradiction.
Qed.

(** X19. A protocol can be set again: after [set_protocol] has returned
    for [ssh] or for a protocol that is a word, [set_protocol] returns for
    any protocol, on a descriptor whose remotes have distinct names. *)
Theorem set_protocol_can_be_repeated :
  forall protocol protocol' r r',
    NoDup (keys (remotes r)) ->
    is_protocol protocol ->
    set_protocol protocol r = (Ok tt, r') ->
    exists r'', set_protocol protocol' r' = (Ok tt, r'').
Proof.
  intros protocol protocol' r r' Hnd Hprot H.
  unfold set_protocol in H.
  destruct (GitURL.format (url r) protocol) as [u|] eqn:Ef; [|discriminate].
  destruct (set_protocol_loop_frame _ _ _ _ _ H) as (Hk & _ & Hu).
  cbn [remotes url with_url] in Hk, Hu.
  pose proof (format_parses _ _ _ Hprot Ef) as Hpu.
  unfold set_protocol. rewrite Hu.
  destruct (format_of_parts u protocol' Hpu) as (u2 & Ef2). rewrite Ef2.
  cbn [remotes with_url].
  apply set_protocol_loop_ends; [now rewrite Hk|].
  intros k Hin. cbn [remotes with_url]. rewrite Hk in Hin.
  destruct (set_protocol_loop_get _ _ _ _ k Hnd H) as [Hget _].
  destruct (Hget Hin) as (v & v' & _ & Hfv & Hgv).
  exists v'. split; [exact Hgv|]. exact (format_parses _ _ _ Hprot Hfv).
Qed.

Lemma set_protocol_can_be_repeated_witness :
  exists r' r'',
    set_protocol "ssh" two_remotes_repo = (Ok tt, r')
    /\ set_protocol "https" r' = (Ok tt, r'').
Proof.
  eexists.
  assert (H : set_protocol "ssh" two_remotes_repo = (Ok tt, _)) by reflexivity.
  destruct (set_protocol_can_be_repeated "ssh" "https" two_remotes_repo _
              ltac:(simpl; repeat constructor; simpl; intuition discriminate)
              (or_introl eq_refl) H) as (r'' & E).
  exists r''. split; [exact H|exact E].
Defined.

End Rewriting.

(* ================================================================== *)
(** * The constructor *)

Module Construction.
Import Str StrFacts Py Repo Descriptor Engine.

Lemma prefix_nil s : String.prefix "" s = true.
Proof. destruct s; reflexivity. Qed.

Lemma prefix_cons a b s1 s2 :
  String.prefix (String a s1) (String b s2)
  = if Ascii.eqb a b then String.prefix s1 s2 else false.
Proof.
  cbn [String.prefix]. destruct (ascii_dec a b) as [->|Hne].
  - now rewrite Ascii.eqb_refl.
  - apply Ascii.eqb_neq in Hne. now rewrite Hne.
Qed.

Lemma split_aux_cons sep : forall s k cur,
  exists y ys, split_aux sep k cur s = y :: ys.
Proof.
  induction s as [|c s IH]; intros k cur; cbn [split_aux]; [eauto|].
  destruct k as [|k]; [|apply IH].
  destruct (String.prefix sep (String c s)); [eauto|apply IH].
Qed.

Lemma last_cons_cons {X} (a b : X) l d : List.last (a :: b :: l) d = List.last (b :: l) d.
Proof. reflexivity. Qed.

(** The last piece of a text cut at the slashes is what follows its last
    slash. *)
Lemma last_split_slash x : forall pre cur,
  contains "/" x = false ->
  List.last (split_aux "/" 0 cur (pre ++ "/" ++ x)) "" = x.
Proof.
  intros pre cur Hx. revert cur.
  induction pre as [|c pre IH]; intros cur.
  - change ("" ++ "/" ++ x) with (String "/" x). cbn [split_aux].
    rewrite prefix_cons, prefix_nil. cbn [Ascii.eqb Bool.eqb].
    change (String.length "/" - 1) with 0.
    rewrite (Upgrade.split_plain "/" x "" Hx). reflexivity.
  - change (String c pre ++ "/" ++ x) with (String c (pre ++ "/" ++ x)).
    cbn [split_aux].
    destruct (String.prefix "/" (String c (pre ++ "/" ++ x))).
    + change (String.length "/" - 1) with 0.
      destruct (split_aux_cons "/" (pre ++ "/" ++ x) 0 "") as (y & ys & E).
      specialize (IH ""). rewrite E in *. rewrite last_cons_cons. exact IH.
    + apply IH.
Qed.

(** A [.git] that begins in a text with no [.git] does not end in a
    [.git] put after it. *)
Lemma no_straddle n rest :
  contains ".git" n = false -> n <> "" ->
  String.prefix ".git" (n ++ ".git" ++ rest) = false.
Proof.
  intros H Hne. destruct n as [|c1 n]; [now elim Hne|].
  cbn [contains] in H. apply orb_false_iff in H. destruct H as [H _].
  cbn [append]. rewrite prefix_cons in *.
  destruct (Ascii.eqb "." c1); [|reflexivity].
  destruct n as [|c2 n]; [reflexivity|]. cbn [append]. rewrite prefix_cons in *.
  destruct (Ascii.eqb "g" c2); [|reflexivity].
  destruct n as [|c3 n]; [reflexivity|]. cbn [append]. rewrite prefix_cons in *.
  destruct (Ascii.eqb "i" c3); [|reflexivity].
  destruct n as [|c4 n]; [reflexivity|]. cbn [append]. rewrite prefix_cons in *.
  destruct (Ascii.eqb "t" c4); [|reflexivity].
  rewrite prefix_nil in H. discriminate.
Qed.

(** The first piece of a text cut at [.git] is what precedes its first
    [.git]. *)
Lemma hd_split_git rest : forall n cur,
  contains ".git" n = false ->
  hd "" (split_aux ".git" 0 cur (n ++ ".git" ++ rest)) = cur ++ n.
Proof.
  induction n as [|c n IH]; intros cur H.
  - change ("" ++ ".git" ++ rest) with (String "." (String "g" (String "i" (String "t" rest)))).
    cbn [split_aux]. rewrite !prefix_cons, prefix_nil.
    cbn [Ascii.eqb Bool.eqb hd]. now rewrite append_nil_r.
  - pose proof (no_straddle (String c n) rest H) as Hp.
    change (String c n ++ ".git" ++ rest) with (String c (n ++ ".git" ++ rest)) in *.
    cbn [split_aux]. rewrite Hp by discriminate.
    cbn [contains] in H. apply orb_false_iff in H. destruct H as [_ H].
    rewrite (IH _ H). now rewrite append_assoc.
Qed.

Lemma contains_slash_append a b :
  contains "/" a = false -> contains "/" b = false -> contains "/" (a ++ b) = false.
Proof.
  intros Ha Hb. induction a as [|c a IH]; [exact Hb|].
  cbn [contains append] in *. apply orb_false_iff in Ha.
  destruct Ha as [Hp Ha]. rewrite (IH Ha).
  rewrite prefix_cons in *. rewrite prefix_nil in *. now rewrite Hp.
Qed.

(** The name [__init__] makes of a url. *)
Definition name_of_url (url_ : string) : string :=
  hd "" (split ".git" (last_of (split "/" url_))).

Lemma name_of_url_spec pre n rest :
  contains "/" n = false -> contains ".git" n = false ->
  contains "/" rest = false ->
  name_of_url (pre ++ "/" ++ n ++ ".git" ++ rest) = n.
Proof.
  intros Hs Hg Hr. unfold name_of_url, last_of, split.
  rewrite last_split_slash.
  - now rewrite hd_split_git.
  - apply contains_slash_append; [exact Hs|].
    apply (contains_slash_append ".git"); [reflexivity|exact Hr].
Qed.

(** What the constructor makes of its arguments, once the remote is
    resolved. *)
Lemma init_attributes expandpath w kw r m :
  init expandpath w kw = Ok (r, m) ->
  name r = match kw_name kw with
           | Some n => n
           | None => name_of_url (url r)
           end
  /\ branch r = match kw_branch kw with
                | NoParam => Some "master"
                | Given b => b
                end
  /\ match kw_dpath kw with
     | Some p => dpath r = expandpath p /\ pkg_dpath r = path_join p (name r)
     | None =>
         exists c,
           kw_code_dpath kw = Some c
           /\ dpath r = expandpath (path_join c (name r))
           /\ pkg_dpath r = path_join (path_join c (name r)) (name r)
     end
  /\ kw_unknown kw = []
  /\ verbose m = match kw_verbose kw with
                 | NoParam => 3%Z
                 | Given v => v
                 end.
Proof.
  unfold init. intros H.
  destruct (resolve_remote w kw) as [[d k|l g]|e]; try discriminate.
  destruct (dict_get k d) as [u|]; [|discriminate].
  destruct (kw_dpath kw) as [p|].
  - destruct (kw_unknown kw); [|discriminate].
    inversion H; subst; clear H. cbn. auto.
  - destruct (kw_code_dpath kw) as [c|]; [|discriminate].
    destruct (kw_unknown kw); [|discriminate].
    inversion H; subst; clear H. cbn.
    split; [reflexivity|]. split; [reflexivity|]. split; [|auto].
    exists c. auto.
Qed.

(** X20. Without a [name], the constructor names the repo after its url:
    what stands between the last slash of the url and the first [.git]
    that follows it.  Without a [dpath], the repo is placed under
    [code_dpath], in a directory of that name (then expanded), and its
    package directory is the directory of that name in it; without a
    [branch], the branch is [master]. *)
Theorem init_names_the_repo_after_its_url :
  forall expandpath w kw r m pre n rest,
    init expandpath w kw = Ok (r, m) ->
    kw_name kw = None ->
    url r = pre ++ "/" ++ n ++ ".git" ++ rest ->
    contains "/" n = false -> contains ".git" n = false ->
    contains "/" rest = false ->
    name r = n
    /\ (kw_dpath kw = None ->
        exists c,
          kw_code_dpath kw = Some c
          /\ dpath r = expandpath (path_join c n)
          /\ pkg_dpath r = path_join (path_join c n) n)
    /\ (kw_branch kw = NoParam -> branch r = Some "master").
Proof.
  intros expandpath w kw r m pre n rest H Hname Hurl Hs Hg Hr.
  destruct (init_attributes _ _ _ _ _ H) as (Hn & Hb & Hd & _).
  rewrite Hname, Hurl in Hn. rewrite (name_of_url_spec _ _ _ Hs Hg Hr) in Hn.
  split; [exact Hn|]. split.
  - intros Hdp. rewrite Hdp, Hn in Hd. exact Hd.
  - intros Hbr. now rewrite Hbr in Hb.
Qed.

(** The first example of the docstring of [Repo]. *)
Definition demo_kwargs : Kwargs :=
  {| kw_name := None; kw_dpath := None; kw_code_dpath := Some "/code";
     kw_remotes := None;
     kw_remote := Some "https://github.com/Erotemic/ubelt.git";
     kw_branch := NoParam; kw_verbose := NoParam; kw_unknown := [] |}.

Lemma init_names_the_repo_after_its_url_witness :
  init (fun p => p) nowhere demo_kwargs = Ok (ubelt, fresh)
  /\ name ubelt = "ubelt"
  /\ (exists c,
         kw_code_dpath demo_kwargs = Some c
         /\ dpath ubelt = path_join c "ubelt"
         /\ pkg_dpath ubelt = path_join (path_join c "ubelt") "ubelt")
  /\ branch ubelt = Some "master".
Proof.
  split; [reflexivity|].
  destruct (init_names_the_repo_after_its_url (fun p => p) nowhere demo_kwargs
              ubelt fresh "https://github.com/Erotemic" "ubelt" ""
              eq_refl eq_refl eq_refl eq_refl eq_refl eq_refl) as (H1 & H2 & H3).
  split; [exact H1|]. split; [exact (H2 eq_refl)|exact (H3 eq_refl)].
Defined.

(** X21. A repo cannot be made from a working copy alone: with neither
    [remote] nor [remotes], as in [Repo(dpath='.')] of the docstring, the
    constructor raises, whatever the working copy at [dpath] is. *)
Theorem init_needs_a_declared_remote :
  forall expandpath w kw,
    kw_remote kw = None -> kw_remotes kw = None ->
    exists e, init expandpath w kw = Raise e.
Proof.
  intros expandpath w kw Hr Hrs. unfold init, resolve_remote. rewrite Hr, Hrs.
  destruct (kw_dpath kw) as [p|]; [|eexists; reflexivity].
  destruct (negb (Git.path_exists (w p))); [eexists; reflexivity|].
  destruct (negb (Git.is_git_repo (w p))); [eexists; reflexivity|].
  destruct (Git.remotes (w p)) as [|x [|y l]]; eexists; reflexivity.
Qed.

(** [Repo(dpath='.')] *)
Definition here_kwargs : Kwargs :=
  {| kw_name := None; kw_dpath := Some "."; kw_code_dpath := None;
     kw_remotes := None; kw_remote := None;
     kw_branch := NoParam; kw_verbose := NoParam; kw_unknown := [] |}.

Lemma init_needs_a_declared_remote_witness :
  exists e, init (fun p => p) clean_world here_kwargs = Raise e.
Proof.
  exact (init_needs_a_declared_remote (fun p => p) clean_world here_kwargs
           eq_refl eq_refl).
Defined.

(** X22. What the constructor refuses: a [remote] that is not a key of the
    [remotes] given with it (KeyError of that key); [remotes] with no entry
    or with several, when no [remote] says which (ValueError); neither
    [dpath] nor [code_dpath] (TypeError, from the join); and any keyword it
    does not know. *)
Theorem init_refuses :
  forall expandpath w kw,
    (forall k d,
        kw_remote kw = Some k -> kw_remotes kw = Some d -> dict_get k d = None ->
        init expandpath w kw = Raise (KeyError k))
    /\ (forall d,
          kw_remote kw = None -> kw_remotes kw = Some d -> List.length d <> 1 ->
          exists msg, init expandpath w kw = Raise (ValueError msg))
    /\ (forall u,
          kw_remote kw = Some u -> kw_remotes kw = None ->
          kw_dpath kw = None -> kw_code_dpath kw = None ->
          init expandpath w kw = Raise TypeError)
    /\ (kw_unknown kw <> [] -> exists e, init expandpath w kw = Raise e).
Proof.
  intros expandpath w kw. split; [|split; [|split]].
  - intros k d Hr Hrs Hg. unfold init, resolve_remote. now rewrite Hr, Hrs, Hg.
  - intros d Hr Hrs Hlen. unfold init, resolve_remote. rewrite Hr, Hrs.
    destruct d as [|[k v] [|x l]]; [eexists; reflexivity| |eexists; reflexivity].
    now elim Hlen.
  - intros u Hr Hrs Hd Hc. unfold init, resolve_remote. rewrite Hr, Hrs.
    cbn [dict_get]. rewrite String.eqb_refl, Hd, Hc. reflexivity.
  - intros Hu. destruct (init expandpath w kw) as [[r m]|e] eqn:E;
      [|eexists; reflexivity].
    destruct (init_attributes _ _ _ _ _ E) as (_ & _ & _ & Hk & _).
    contradiction.
Qed.

(** A url given as [remote] beside [remotes]; [remotes] with two entries
    and no [remote]; no directory; a keyword that is not one of the
    constructor. *)
Definition keyless_kwargs : Kwargs :=
  {| kw_name := None; kw_dpath := None; kw_code_dpath := Some "/code";
     kw_remotes := kw_remotes two_remotes_kwargs;
     kw_remote := Some "https://github.com/Erotemic/ubelt.git";
     kw_branch := NoParam; kw_verbose := NoParam; kw_unknown := [] |}.

Definition ambiguous_kwargs : Kwargs :=
  {| kw_name := None; kw_dpath := None; kw_code_dpath := Some "/code";
     kw_remotes := kw_remotes two_remotes_kwargs;
     kw_remote := None;
     kw_branch := NoParam; kw_verbose := NoParam; kw_unknown := [] |}.

Definition pathless_kwargs : Kwargs :=
  {| kw_name := None; kw_dpath := None; kw_code_dpath := None;
     kw_remotes := None;
     kw_remote := Some "https://github.com/Erotemic/ubelt.git";
     kw_branch := NoParam; kw_verbose := NoParam; kw_unknown := [] |}.

Definition misspelt_kwargs : Kwargs :=
  {| kw_name := None; kw_dpath := None; kw_code_dpath := Some "/code";
     kw_remotes := None;
     kw_remote := Some "https://github.com/Erotemic/ubelt.git";
     kw_branch := NoParam; kw_verbose := NoParam;
     kw_unknown := ["codedpath"] |}.

Lemma init_refuses_witness :
  init (fun p => p) nowhere keyless_kwargs
  = Raise (KeyError "https://github.com/Erotemic/ubelt.git")
  /\ (exists msg, init (fun p => p) nowhere ambiguous_kwargs = Raise (ValueError msg))
  /\ init (fun p => p) nowhere pathless_kwargs = Raise TypeError
  /\ exists e, init (fun p => p) nowhere misspelt_kwargs = Raise e.
Proof.
  split; [|split; [|split]].
  - exact (proj1 (init_refuses (fun p => p) nowhere keyless_kwargs)
             _ _ eq_refl eq_refl eq_refl).
  - refine (proj1 (proj2 (init_refuses (fun p => p) nowhere ambiguous_kwargs))
              _ eq_refl eq_refl _).
    discriminate.
  - exact (proj1 (proj2 (proj2 (init_refuses (fun p => p) nowhere pathless_kwargs)))
             _ eq_refl eq_refl eq_refl eq_refl).
  - refine (proj2 (proj2 (proj2 (init_refuses (fun p => p) nowhere misspelt_kwargs))) _).
    discriminate.
Defined.

End Construction.

(* ================================================================== *)
(** * The remotes of the working copy *)

Module Remotes.
Import Py Repo RepoFacts Engine Shell.
Local Open Scope py_scope.

Section Registered.
Variable ub_cmd : string -> option string -> Git.World -> CmdInfo * Git.World.
Variable repo : Repo.

(** The loop of [_ensure_remotes] on remotes that are all registered. *)
Lemma ensure_remotes_registered dry l : forall s,
  pygit_cached (mem s) = true -> all_registered repo (world s) l = true ->
  for_each l (ensure_remotes_item ub_cmd repo dry) s = (Ok tt, s).
Proof.
  intros s Hc Hr.
  pose proof (ensure_remotes_skip ub_cmd repo dry l [] s Hc Hr) as H.
  rewrite app_nil_r in H. exact H.
Qed.

(** A remote that is not the active one and whose registration fails. *)
Lemma item_failure_ignored n u s :
  pygit_cached (mem s) = true -> registered repo (world s) n = false ->
  n <> remote repo ->
  ret (outcome ub_cmd (remote_add n u) (Some (dpath repo)) s) <> 0%Z ->
  exists s1,
    ensure_remotes_item ub_cmd repo false (n, u) s = (Ok tt, s1)
    /\ logged_cmds (mem s1)
       = (logged_cmds (mem s) ++ [(remote_add n u, Some (dpath repo))])%list
    /\ world s1 = world_after ub_cmd (remote_add n u) (Some (dpath repo)) s
    /\ pygit_cached (mem s1) = true.
Proof.
  intros Hc Hr Hn Hret.
  destruct (cmd_unit ub_cmd repo (remote_add n u) NoParam NoParam s)
    as (s1 & E & Hl & Hw & Hp & _).
  cbn [cwd_of] in *. unfold finished in E. apply Z.eqb_neq in Hret.
  rewrite Hret in E.
  exists s1. split; [|split; [exact Hl|split; [exact Hw|congruence]]].
  unfold registered in Hr.
  unfold ensure_remotes_item, try_.
  assert (E0 : (_ <- pygit_remote repo n ;; _ <- remote_urls repo n ;; pure tt) s
               = (Raise IndexError, s)).
  { unfold pygit_remote, bind. rewrite (pygit_cached_eq _ _ Hc).
    destruct (Git.find_remote n (Git.remotes (world s (dpath repo))));
      [discriminate|reflexivity]. }
  rewrite (try_caught _ _ _ _ _ _ _ E0 eq_refl). cbn [negb].
  change ("git remote add " ++ n ++ " " ++ u) with (remote_add n u).
  rewrite (try_caught _ _ _ _ _ _ _ E eq_refl).
  apply String.eqb_neq in Hn. now rewrite Hn.
Qed.

End Registered.

(** X23. [_registered_remote], dry or not, on a working copy that gitpython
    opens and where the active remote is registered: it returns the handle
    of that remote and runs no command. *)
Theorem registered_remote_is_found :
  forall ub_cmd repo dry s,
    opens repo s ->
    registered repo (world s) (remote repo) = true ->
    exists s',
      _registered_remote ub_cmd repo dry s = (Ok (Some (remote repo)), s')
      /\ no_command s s'.
Proof.
  intros ub_cmd repo dry s Ho Hr. unfold registered in Hr.
  destruct (Git.find_remote (remote repo) (Git.remotes (world s (dpath repo))))
    as [rm|] eqn:Ef; [|discriminate].
  destruct (Upgrade.registered_remote_found ub_cmd repo dry s rm Ho Ef)
    as (s1 & E & Hw & Hc & _).
  exists s1. split; [exact E|]. split; assumption.
Qed.

Lemma registered_remote_is_found_witness :
  let s := {| mem := fresh; world := clean_world |} in
  exists s',
    _registered_remote failing_cmd ubelt false s = (Ok (Some "origin"), s')
    /\ no_command s s'.
Proof.
  intros s.
  refine (registered_remote_is_found failing_cmd ubelt false s _ eq_refl).
  right. split; reflexivity.
Defined.

(** X24. [_ensure_remotes] leaves registered remotes alone: when every
    declared remote is registered it returns, dry or not, and changes
    nothing.  When it is not dry and the registration of a remote that is
    not the active one fails, the failure is passed over: the command is
    recorded and the loop goes on with the remotes that follow, in the
    world the command left. *)
Theorem ensure_remotes_passes_over_secondary_failures :
  forall ub_cmd repo s,
    pygit_cached (mem s) = true ->
    (forall dry,
        all_registered repo (world s) (remotes repo) = true ->
        _ensure_remotes ub_cmd repo dry s = (Ok tt, s))
    /\ (forall n u rest,
          registered repo (world s) n = false ->
          n <> remote repo ->
          ret (outcome ub_cmd (remote_add n u) (Some (dpath repo)) s) <> 0%Z ->
          exists s1,
            for_each ((n, u) :: rest) (ensure_remotes_item ub_cmd repo false) s
            = for_each rest (ensure_remotes_item ub_cmd repo false) s1
            /\ logged_cmds (mem s1)
               = (logged_cmds (mem s) ++ [(remote_add n u, Some (dpath repo))])%list
            /\ world s1 = world_after ub_cmd (remote_add n u) (Some (dpath repo)) s).
Proof.
  intros ub_cmd repo s Hc. split.
  - intros dry Hr. unfold _ensure_remotes. now apply ensure_remotes_registered.
  - intros n u rest Hr Hn Hret.
    destruct (item_failure_ignored ub_cmd repo n u s Hc Hr Hn Hret)
      as (s1 & E & Hl & Hw & _).
    exists s1. split; [|split; assumption].
    cbn [for_each]. unfold bind at 1. now rewrite E.
Qed.

(** [ubelt] with a mirror declared before its origin. *)
Definition ubelt_mirrored : Repo :=
  {| name := "ubelt";
     dpath := "/code/ubelt";
     code_dpath := Some "/code";
     remotes := [("mirror", "https://gitlab.com/Erotemic/ubelt.git");
                 ("origin", "https://github.com/Erotemic/ubelt.git")];
     remote := "origin";
     branch := Some "master";
     url := "https://github.com/Erotemic/ubelt.git";
     pkg_dpath := "/code/ubelt/ubelt" |}.

Definition opened : Mem :=
  {| logged_lines := []; logged_cmds := []; pygit_cached := true; verbose := 3 |}.

Lemma ensure_remotes_passes_over_secondary_failures_witness :
  let s := {| mem := opened; world := clean_world |} in
  _ensure_remotes failing_cmd ubelt true s = (Ok tt, s)
  /\ exists s1,
      _ensure_remotes failing_cmd ubelt_mirrored false s
      = for_each [("origin", "https://github.com/Erotemic/ubelt.git")]
          (ensure_remotes_item failing_cmd ubelt_mirrored false) s1
      /\ logged_cmds (mem s1)
         = [("git remote add mirror https://gitlab.com/Erotemic/ubelt.git",
             Some "/code/ubelt")]
      /\ world s1 = clean_world.
Proof.
  intros s. split.
  - exact (proj1 (ensure_remotes_passes_over_secondary_failures failing_cmd ubelt s
                    eq_refl) true eq_refl).
  - refine (proj2 (ensure_remotes_passes_over_secondary_failures failing_cmd
                     ubelt_mirrored s eq_refl)
              "mirror" "https://gitlab.com/Erotemic/ubelt.git"
              [("origin", "https://github.com/Erotemic/ubelt.git")]
              eq_refl _ _); discriminate.
Defined.

End Remotes.

(* ================================================================== *)
(** * upgrade: where it stops *)

Module UpgradeEdges.
Import Py Repo RepoFacts Engine Shell Upgrade.
Local Open Scope py_scope.

(** No ref gives a tuple: nothing is selected. *)
Lemma latest_dev_branch_none refs :
  (forall b, In b refs -> Str.startswith "dev/" b = true -> version_tuple b = None) ->
  latest_dev_branch refs = None.
Proof.
  intros H. destruct (latest_dev_branch refs) as [b|] eqn:E; [|reflexivity].
  destruct (latest_dev_branch_spec refs b E) as (Hin & Hd & tup & Ht & _).
  rewrite (H b Hin Hd) in Ht. discriminate.
Qed.

Section Stops.
Variable ub_cmd : string -> option string -> Git.World -> CmdInfo * Git.World.
Variable repo : Repo.

(** [upgrade] up to the refs of the remote, read after the fetch. *)
Lemma upgrade_to_refs s rm i1 w1 :
  opens repo s ->
  Git.find_remote (remote repo) (Git.remotes (world s (dpath repo))) = Some rm ->
  ub_cmd (fetch_cmd repo) (Some (dpath repo)) (world s) = (i1, w1) ->
  (ret i1 <> 0%Z ->
   exists s',
     upgrade ub_cmd repo s = (Raise (ShellException (fetch_cmd repo) i1), s')
     /\ settled w1 (logged_cmds (mem s) ++ [in_dpath repo (fetch_cmd repo)]) s')
  /\ (ret i1 = 0%Z ->
      exists s4,
        settled w1 (logged_cmds (mem s) ++ [in_dpath repo (fetch_cmd repo)]) s4
        /\ upgrade ub_cmd repo s
           = match latest_dev_branch
                     (match Git.find_remote (remote repo)
                              (Git.remotes (w1 (dpath repo))) with
                      | Some rm1 => Git.refs rm1
                      | None => []
                      end) with
             | None => raise (ValueError "max() arg is an empty sequence")
             | Some latest_branch =>
                 g <- pygit repo ;;
                 match Git.active_branch g with
                 | None => raise TypeError
                 | Some h =>
                     if String.eqb (Git.branch_name h) latest_branch
                     then info "Already on the latest dev branch"
                     else
                       try_
                         (_cmd ub_cmd repo ("git checkout " ++ latest_branch)
                            NoParam NoParam ;;
                          pure tt)
                         (on_ShellException
                            (debug "Checkout failed. Branch name might be ambiguous. Trying again" ;;
                             try_
                               (_cmd ub_cmd repo
                                  ("git checkout -b " ++ latest_branch ++ " "
                                   ++ remote repo ++ "/" ++ latest_branch)
                                  NoParam NoParam ;;
                                pure tt)
                               (on_ShellException
                                  (raise (Exception "does the branch exist on the remote?")))))
                 end
             end s4).
Proof.
  intros Ho Hrm Hf.
  destruct (registered_remote_found ub_cmd repo false s rm Ho Hrm) as (s1 & E1 & H1).
  destruct (cmd_run ub_cmd repo _ _ _ _ _ s1 Hf H1) as (s2 & E2 & H2).
  set (c1 := (logged_cmds (mem s) ++ [(fetch_cmd repo, Some (dpath repo))])%list) in *.
  unfold fetch_cmd in E2.
  split.
  - intros Hret. apply Z.eqb_neq in Hret. rewrite Hret in E2.
    exists s2. split; [|exact H2].
    unfold upgrade. rewrite (bind_ok _ _ _ _ _ E1).
    now rewrite (bind_raise _ _ _ _ _ E2).
  - intros Hret. rewrite Hret in E2. cbn [Z.eqb] in E2.
    pose proof (settled_world w1 c1) as HW.
    pose proof (settled_lines w1 c1) as HL.
    pose proof (settled_cache w1 c1) as HC.
    pose proof (settled_opens (dpath repo) w1 c1) as HO.
    assert (H3 : settled w1 c1 (snd (info "Fetch was successful" s2)))
      by (apply HL; exact H2).
    assert (Srefs : spec (settled w1 c1) (remote_refs repo (remote repo))
                      (fun x => x = match Git.find_remote (remote repo)
                                            (Git.remotes (w1 (dpath repo))) with
                                    | Some rm1 => Git.refs rm1
                                    | None => []
                                    end) none).
    { apply (spec_remote_read repo w1 _ HW HC HO). reflexivity. }
    destruct (spec_run _ _ _ _ Srefs H3) as (refs & s4 & E4 & H4 & ->).
    exists s4. split; [exact H4|].
    unfold upgrade. rewrite (bind_ok _ _ _ _ _ E1).
    rewrite (bind_ok _ _ _ _ _ E2).
    rewrite (bind_ok (info "Fetch was successful") _ s2 tt
               (snd (info "Fetch was successful" s2)) eq_refl).
    rewrite (bind_ok _ _ _ _ _ E4). reflexivity.
Qed.

End Stops.

(** The fetch is the only command that was run between [s] and [s']. *)
Definition only_fetched
           (ub_cmd : string -> option string -> Git.World -> CmdInfo * Git.World)
           (repo : Repo) (s s' : State) : Prop :=
  logged_cmds (mem s')
  = (logged_cmds (mem s)
     ++ [(("git fetch " ++ remote repo)%string, Some (dpath repo))])%list
  /\ world s' = world_after ub_cmd ("git fetch " ++ remote repo) (Some (dpath repo)) s.

(** X25. Where [upgrade] stops, on a working copy that gitpython opens and
    where the active remote is registered.  When the fetch fails it raises
    the ShellException of the fetch.  When the fetch succeeds and no ref of
    the remote is a [dev/] branch that gives a tuple of integers, it raises
    ValueError; when one is selected and the HEAD is detached, it raises
    TypeError.  In each case the fetch is the only command it has run. *)
Theorem upgrade_stops_after_the_fetch :
  forall ub_cmd repo s rm,
    opens repo s ->
    Git.find_remote (remote repo) (Git.remotes (world s (dpath repo))) = Some rm ->
    let fetch := "git fetch " ++ remote repo in
    let i1 := outcome ub_cmd fetch (Some (dpath repo)) s in
    let w1 := world_after ub_cmd fetch (Some (dpath repo)) s in
    let refs1 := match Git.find_remote (remote repo) (Git.remotes (w1 (dpath repo))) with
                 | Some rm1 => Git.refs rm1
                 | None => []
                 end in
    let run := upgrade ub_cmd repo s in
    (ret i1 <> 0%Z ->
     only_fetched ub_cmd repo s (snd run)
     /\ fst run = Raise (ShellException fetch i1))
    /\ (ret i1 = 0%Z ->
        (forall b, In b refs1 -> Str.startswith "dev/" b = true ->
                   version_tuple b = None) ->
        only_fetched ub_cmd repo s (snd run)
        /\ exists msg, fst run = Raise (ValueError msg))
    /\ (ret i1 = 0%Z ->
        latest_dev_branch refs1 <> None ->
        Git.active_branch (w1 (dpath repo)) = None ->
        only_fetched ub_cmd repo s (snd run)
        /\ fst run = Raise TypeError).
Proof.
  intros ub_cmd repo s rm Ho Hrm fetch i1 w1 refs1 run.
  destruct (upgrade_to_refs ub_cmd repo s rm i1 w1 Ho Hrm) as [Hfail Hok].
  { unfold i1, w1, outcome, world_after, fetch, fetch_cmd.
    now destruct (ub_cmd _ _ _). }
  unfold only_fetched. fold fetch. fold w1. split; [|split].
  - intros Hret. destruct (Hfail Hret) as (s' & E & Hw & Hc & _).
    subst run. rewrite E. cbn [fst snd]. auto.
  - intros Hret Hnone.
    destruct (Hok Hret) as (s4 & (Hw4 & Hc4 & Hp4) & E). fold refs1 in E.
    rewrite (latest_dev_branch_none _ Hnone) in E.
    subst run. rewrite E. cbn [raise fst snd].
    split; [split; assumption|]. eexists. reflexivity.
  - intros Hret Hsome Hdet.
    destruct (Hok Hret) as (s4 & (Hw4 & Hc4 & Hp4) & E). fold refs1 in E.
    destruct (latest_dev_branch refs1) as [latest|]; [|now elim Hsome].
    assert (E5 : pygit repo s4 = (Ok (w1 (dpath repo)), s4)).
    { rewrite (pygit_cached_eq _ _ Hp4). now rewrite Hw4. }
    subst run. rewrite E. rewrite (bind_ok _ _ _ _ _ E5). rewrite Hdet.
    cbn [raise fst snd]. auto.
Qed.

(** A clone of [ubelt] on a detached HEAD, and one whose remote has no dev
    branch with a version. *)
Definition detached_world : Git.World :=
  fun _ =>
    {| Git.path_exists := true; Git.is_git_repo := true; Git.is_dirty := false;
       Git.remotes := Git.remotes (ubelt_tree false);
       Git.active_branch := None;
       Git.tags := []; Git.head_hexsha := "0a1b2c" |}.

Definition undeveloped_world : Git.World :=
  fun _ =>
    {| Git.path_exists := true; Git.is_git_repo := true; Git.is_dirty := false;
       Git.remotes := [{| Git.name := "origin"; Git.exists_ := true;
                          Git.urls := ["https://github.com/Erotemic/ubelt.git"];
                          Git.refs := ["master"; "dev/next"; "dev/"; "release/1.0"] |}];
       Git.active_branch := Git.active_branch (ubelt_tree false);
       Git.tags := []; Git.head_hexsha := "0a1b2c" |}.

Lemma upgrade_stops_after_the_fetch_witness :
  fst (upgrade inert_cmd ubelt {| mem := fresh; world := detached_world |})
  = Raise TypeError
  /\ (exists msg,
         fst (upgrade inert_cmd ubelt {| mem := fresh; world := undeveloped_world |})
         = Raise (ValueError msg))
  /\ fst (upgrade failing_cmd ubelt {| mem := fresh; world := clean_world |})
     = Raise (ShellException "git fetch origin"
                {| out := ""; err := "fatal"; ret := 128 |}).
Proof.
  split; [|split].
  - refine (proj2 (proj2 (proj2 (upgrade_stops_after_the_fetch inert_cmd ubelt
                                   {| mem := fresh; world := detached_world |} _
                                   (or_intror (conj eq_refl eq_refl)) eq_refl))
                     eq_refl _ eq_refl)).
    discriminate.
  - refine (proj2 (proj1 (proj2 (upgrade_stops_after_the_fetch inert_cmd ubelt
                                   {| mem := fresh; world := undeveloped_world |} _
                                   (or_intror (conj eq_refl eq_refl)) eq_refl))
                     eq_refl _)).
    intros b [<-|[<-|[<-|[<-|[]]]]] Hd; try discriminate Hd; reflexivity.
  - refine (proj2 (proj1 (upgrade_stops_after_the_fetch failing_cmd ubelt
                            {| mem := fresh; world := clean_world |} _
                            (or_intror (conj eq_refl eq_refl)) eq_refl) _)).
    discriminate.
Defined.

End UpgradeEdges.

(* ================================================================== *)
(** * Where the commands run *)

Module Commands.
Import Py Repo RepoFacts Methods.
Local Open Scope py_scope.

(** A logged command of a repo is in place when its directory is that of
    the repo, or the code directory. *)
Definition in_place (repo : Repo) (c : string * option string) : Prop :=
  snd c = Some (dpath repo) \/ snd c = code_dpath repo.

(** The logged commands are those of [c0], then commands in place. *)
Definition added (repo : Repo) (c0 : list (string * option string))
           (s : State) : Prop :=
  exists rest,
    logged_cmds (mem s) = (c0 ++ rest)%list /\ Forall (in_place repo) rest.

(** The methods of a repo that run commands. *)
Inductive Operation : Type :=
| Ensure | Check | Pull | Status | Upgrade | Clone | EnsureClone
| Develop | Doctest | Versions.

Section InPlace.
Variable ub_cmd : string -> option string -> Git.World -> CmdInfo * Git.World.
Variable WIN32 : bool.
Variable parse_version : string -> Git.World -> Result string.
Variable repo : Repo.

Definition run (f : Operation) : M unit :=
  match f with
  | Ensure => ensure ub_cmd repo false
  | Check => check ub_cmd repo
  | Pull => pull ub_cmd repo
  | Status => status ub_cmd repo
  | Upgrade => upgrade ub_cmd repo
  | Clone => clone ub_cmd repo
  | EnsureClone => ensure_clone ub_cmd repo
  | Develop => develop ub_cmd WIN32 repo
  | Doctest => doctest ub_cmd WIN32 repo
  | Versions => versions ub_cmd parse_version repo
  end.

Variable c0 : list (string * option string).

Lemma added_lines l s : added repo c0 s -> added repo c0 (with_lines l s).
Proof. intros H. exact H. Qed.

Lemma added_cache s : added repo c0 s -> added repo c0 (with_cache s).
Proof. intros H. exact H. Qed.

Lemma added_cmd c s :
  in_place repo c -> added repo c0 s -> added repo c0 (with_cmd c s).
Proof.
  intros Hc (rest & E & Hr). exists (rest ++ [c])%list. simpl. split.
  - now rewrite E, app_assoc.
  - apply Forall_app. split; [exact Hr|now constructor].
Qed.

Lemma added_world w s : added repo c0 s -> added repo c0 (with_world w s).
Proof. intros H. exact H. Qed.

Lemma in_place_dpath command : in_place repo (command, Some (dpath repo)).
Proof. now left. Qed.

Lemma in_place_code_dpath command : in_place repo (command, code_dpath repo).
Proof. now right. Qed.

Lemma k_cmd command verbose_ :
  quiet (added repo c0) (_cmd ub_cmd repo command NoParam verbose_).
Proof.
  apply q_cmd with (allowed := in_place repo);
    auto using added_lines, added_cmd, added_world, in_place_dpath.
Qed.

Lemma k_cmd_here command verbose_ :
  quiet (added repo c0) (_cmd ub_cmd repo command (Given (Some (dpath repo))) verbose_).
Proof.
  apply q_cmd_in with (allowed := in_place repo);
    auto using added_lines, added_cmd, added_world, in_place_dpath.
Qed.

Lemma k_exists_path path : quiet (added repo c0) (exists_path path).
Proof.
  unfold exists_path. apply q_bind; [apply q_get_world|intros w; apply q_pure].
Qed.

Lemma k_info msg : quiet (added repo c0) (info msg).
Proof. apply q_info. exact added_lines. Qed.

Lemma k_debug msg : quiet (added repo c0) (debug msg).
Proof. apply q_debug. exact added_lines. Qed.

Lemma k_pygit : quiet (added repo c0) (pygit repo).
Proof. apply q_pygit. exact added_cache. Qed.

Lemma k_cmd_unit command cwd verbose_ :
  quiet (added repo c0) (_cmd ub_cmd repo command cwd verbose_) ->
  quiet (added repo c0) (_cmd ub_cmd repo command cwd verbose_ ;; pure tt).
Proof. intros H. apply q_bind; [exact H|intros _; apply q_pure]. Qed.

Lemma k_try_shell {A} (body h : M A) :
  quiet (added repo c0) body -> quiet (added repo c0) h ->
  quiet (added repo c0) (try_ body (on_ShellException h)).
Proof.
  intros Hb Hh. unfold try_. apply q_try_else; [exact Hb| |intros a; apply q_pure].
  intros e h' He. destruct e; try discriminate He. inversion He; subst. exact Hh.
Qed.

Lemma k_upgrade : quiet (added repo c0) (upgrade ub_cmd repo).
Proof.
  unfold upgrade. apply q_bind.
  - apply q_registered_remote with (allowed := in_place repo);
      auto using added_lines, added_cache, added_cmd, added_world, in_place_dpath.
  - intros [r|]; [|apply q_raise].
    apply q_bind; [apply k_cmd|intros _].
    apply q_bind; [apply k_info|intros _].
    apply q_bind; [apply q_remote_read; exact added_cache|intros refs].
    destruct (latest_dev_branch refs) as [latest|]; [|apply q_raise].
    apply q_bind; [apply k_pygit|intros g].
    destruct (Git.active_branch g) as [h|]; [|apply q_raise].
    destruct (String.eqb (Git.branch_name h) latest); [apply k_info|].
    apply k_try_shell; [apply k_cmd_unit, k_cmd|].
    apply q_bind; [apply k_debug|intros _].
    apply k_try_shell; [apply k_cmd_unit, k_cmd|apply q_raise].
Qed.

Lemma k_develop : quiet (added repo c0) (develop ub_cmd WIN32 repo).
Proof.
  unfold develop. apply q_bind; [apply k_exists_path|intros ex].
  apply q_bind; [apply q_when, k_cmd_unit, k_cmd_here|intros _].
  destruct WIN32; apply k_cmd_unit, k_cmd_here.
Qed.

Lemma k_doctest : quiet (added repo c0) (doctest ub_cmd WIN32 repo).
Proof.
  unfold doctest. destruct WIN32; [apply q_raise|].
  apply q_bind; [apply k_exists_path|intros ex].
  destruct (negb ex); [apply q_raise|apply k_cmd_unit, k_cmd_here].
Qed.

Lemma k_versions : quiet (added repo c0) (versions ub_cmd parse_version repo).
Proof.
  unfold versions. apply q_bind; [apply q_get_world|intros w].
  destruct (parse_version (pkg_dpath repo) w) as [version|e]; [|apply q_raise].
  apply q_bind; [apply k_cmd|intros i].
  apply q_bind.
  - apply k_try_shell; [|apply q_pure].
    apply q_bind; [apply k_cmd|intros i'; apply q_pure].
  - intros tag. apply q_bind; [apply k_pygit|intros g].
    destruct (Git.active_branch g); [apply k_info|apply q_raise].
Qed.

Lemma k_run f : quiet (added repo c0) (run f).
Proof.
  destruct f; simpl.
  - apply q_ensure with (allowed := in_place repo);
      auto using added_lines, added_cache, added_cmd, added_world,
        in_place_dpath, in_place_code_dpath.
  - apply q_ensure with (allowed := in_place repo);
      auto using added_lines, added_cache, added_cmd, added_world,
        in_place_dpath, in_place_code_dpath.
  - apply q_pull with (allowed := in_place repo);
      auto using added_lines, added_cache, added_cmd, added_world,
        in_place_dpath, in_place_code_dpath.
  - unfold status. apply k_cmd_unit, k_cmd.
  - apply k_upgrade.
  - apply q_clone with (allowed := in_place repo);
      auto using added_lines, added_cache, added_cmd, added_world,
        in_place_dpath, in_place_code_dpath.
  - apply q_ensure_clone with (allowed := in_place repo);
      auto using added_lines, added_cache, added_cmd, added_world,
        in_place_dpath, in_place_code_dpath.
  - apply k_develop.
  - apply k_doctest.
  - apply k_versions.
Qed.

End InPlace.

(** X27. Whatever it returns or raises, a method of a repo that runs
    commands ([ensure], [check], [pull], [status], [upgrade], [clone],
    [ensure_clone], [develop], [doctest], [versions]) keeps the commands
    logged so far and only adds to them, and each command it adds is logged
    with the directory of the repo or with its code directory. *)
Theorem commands_are_logged_in_place ub_cmd WIN32 parse_version repo f s :
  exists rest,
    logged_cmds (mem (snd (run ub_cmd WIN32 parse_version repo f s)))
    = (logged_cmds (mem s) ++ rest)%list
    /\ Forall (fun c => snd c = Some (dpath repo) \/ snd c = code_dpath repo) rest.
Proof.
  pose proof (k_run ub_cmd WIN32 parse_version repo (logged_cmds (mem s)) f s) as H.
  assert (H0 : added repo (logged_cmds (mem s)) s).
  { exists []. split; [now rewrite app_nil_r|constructor]. }
  specialize (H H0).
  destruct (run ub_cmd WIN32 parse_version repo f s) as [[a|e] s']; simpl;
    destruct H as [H _]; exact H.
Qed.

End Commands.

(* ================================================================== *)
(** * A check on a detached HEAD *)

Module Pinned.
Import Py Repo RepoFacts Engine.
Local Open Scope py_scope.

(** [[tag for tag in repo.pygit.tags if tag.name == repo.branch]] *)
Definition tags_named (repo : Repo) (g : Git.WorkTree) : list Git.Tag :=
  filter (fun tag =>
            match branch repo with
            | Some b => String.eqb (Git.tag_name tag) b
            | None => false
            end) (Git.tags g).

(** The TypeError of gitpython, and nothing else. *)
Definition type_error (e : Exc) : Prop := e = TypeError.

Section Detached.
Variable ub_cmd : string -> option string -> Git.World -> CmdInfo * Git.World.
Variable repo : Repo.
Variables (w0 : Git.World) (c0 : list (string * option string)).
Variable rm : Git.Remote.

Hypothesis H_exists : Git.path_exists (w0 (dpath repo)) = true.
Hypothesis H_clean : Git.is_dirty (w0 (dpath repo)) = false.
Hypothesis H_remote :
  Git.find_remote (remote repo) (Git.remotes (w0 (dpath repo))) = Some rm.
Hypothesis H_detached : Git.active_branch (w0 (dpath repo)) = None.

Local Abbreviation J := (frame (dpath repo) w0 c0 true).

Lemma det_remote_read {X} (f : Git.Remote -> X) dflt E :
  spec J (remote_read repo (remote repo) f dflt) (fun x => x = f rm) E.
Proof.
  apply (spec_remote_read repo w0 J (frame_world _ _ _ _) (frame_cache _ _ _ _)
           (frame_opens _ _ _)).
  now rewrite H_remote.
Qed.

Lemma det_pygit_remote :
  sure repo w0 c0 (pygit_remote repo (remote repo)) (fun r => r = remote repo).
Proof.
  apply (spec_pygit_remote repo w0 J (frame_world _ _ _ _) (frame_cache _ _ _ _)
           (frame_opens _ _ _)).
  - intros r Hr. rewrite H_remote in Hr. inversion Hr as [Er]. rewrite <- Er.
    exact (find_remote_name _ _ _ H_remote).
  - rewrite H_remote. discriminate.
Qed.

Lemma det_report_remote : sure repo w0 c0 (report_remote repo (Some (remote repo))) any.
Proof.
  unfold report_remote, sure.
  apply (spec_try_else _ _ _ _ any (fun e => e = IndexError)).
  - eapply spec_bind; [apply det_remote_read|]. intros ex _.
    destruct (negb ex); [now apply spec_raise|apply sure_debug].
  - intros e ->. simpl. apply sure_debug.
  - intros _ _. eapply spec_bind; [apply det_remote_read|]. intros ex _.
    apply spec_when; [exact Logic.I|intros _; apply sure_debug].
Qed.

Lemma det_registered_remote :
  sure repo w0 c0 (_registered_remote ub_cmd repo true) (fun r => r = Some (remote repo)).
Proof.
  unfold _registered_remote.
  apply (sure_bind _ _ _ _ _ (fun r => r = Some (remote repo))).
  - unfold try_. apply (sure_try_else _ _ _ _ _ _ (fun r => r = Some (remote repo))).
    + eapply sure_bind; [apply det_pygit_remote|].
      intros r ->. now apply sure_pure.
    + intros a ->. now apply sure_pure.
  - intros r ->.
    apply (sure_bind _ _ _ _ _ any); [apply det_report_remote|].
    intros _ _. now apply sure_pure.
Qed.

Lemma det_ensure_fetch : sure repo w0 c0 (ensure_fetch ub_cmd repo true (remote repo)) any.
Proof.
  unfold ensure_fetch, sure.
  apply (spec_try_else _ _ _ _ any (fun e => e = IndexError)).
  - eapply spec_bind; [apply det_remote_read|]. intros ex _.
    destruct (negb ex); [now apply spec_raise|apply sure_debug].
  - intros e ->. simpl. apply sure_debug.
  - intros _ _. eapply spec_bind; [apply det_remote_read|]. intros ex _.
    destruct ex; [|apply sure_debug].
    apply (spec_bind _ _ _ any); [apply sure_debug|intros _ _].
    eapply spec_bind; [apply det_remote_read|]. intros names _.
    apply spec_when; [exact Logic.I|intros _].
    apply (spec_bind _ _ _ any); [apply sure_info|intros _ _; apply sure_info].
Qed.

Lemma det_ensure_url : sure repo w0 c0 (ensure_url ub_cmd repo true (remote repo)) any.
Proof.
  unfold ensure_url, sure.
  eapply spec_bind; [apply det_remote_read|]. intros have _.
  apply spec_when; [exact Logic.I|intros _].
  apply (spec_bind _ _ _ any); [apply sure_debug|intros _ _; apply sure_info].
Qed.

Lemma det_ensure_checkout r : sure repo w0 c0 (ensure_checkout ub_cmd repo true r) any.
Proof.
  unfold ensure_checkout, sure.
  apply (spec_bind _ _ _ any); [apply sure_debug|intros _ _; apply sure_info].
Qed.

Lemma det_ensure_report : sure repo w0 c0 (ensure_report repo) any.
Proof.
  unfold ensure_report, sure.
  eapply spec_bind; [apply sure_pygit|]. intros g ->.
  apply (spec_bind _ _ _ any).
  - unfold try_. apply (spec_try_else _ _ _ _ any any).
    + eapply spec_bind; [apply (spec_pygit repo w0 J (frame_world _ _ _ _)
                                  (frame_cache _ _ _ _) (frame_opens _ _ _)
                                  (fun g => g = w0 (dpath repo))); reflexivity|].
      intros g ->. rewrite H_detached. now apply spec_raise.
    + intros e _. simpl. now apply spec_pure.
    + intros a _. now apply spec_pure.
  - intros _ _. apply spec_when; [exact Logic.I|intros _; apply sure_debug].
Qed.

Lemma det_ensure_head :
  sure repo w0 c0 (ensure_head ub_cmd repo true) (fun r => r = false).
Proof.
  unfold ensure_head.
  apply (sure_bind _ _ _ _ _ any); [now apply spec_get_mem|intros m _].
  apply (sure_bind _ _ _ _ _ any).
  { apply spec_when; [exact Logic.I|intros _; apply sure_debug]. }
  intros _ _.
  eapply sure_bind; [apply sure_exists_dpath; exact H_exists|].
  intros ex ->. simpl.
  apply (sure_bind _ _ _ _ _ any); [now apply sure_pure|intros _ _].
  apply (sure_bind _ _ _ _ _ any); [|intros _ _; now apply sure_pure].
  unfold ensure_clone.
  eapply sure_bind; [apply sure_exists_dpath; exact H_exists|].
  intros ex ->. apply sure_debug.
Qed.

(** The head is looked at, and then the tags. *)
Lemma det_current_ref_body (E : Exc -> Prop) :
  E TypeError ->
  spec J
    (g <- pygit repo ;;
     match Git.active_branch g with
     | Some h => pure h
     | None => raise TypeError
     end) none E.
Proof.
  intros HE.
  eapply spec_bind;
    [apply (spec_pygit repo w0 J (frame_world _ _ _ _) (frame_cache _ _ _ _)
              (frame_opens _ _ _) (fun g => g = w0 (dpath repo))); reflexivity|].
  intros g ->. rewrite H_detached. now apply spec_raise.
Qed.

Lemma det_current_ref_tag t :
  tags_named repo (w0 (dpath repo)) = [t] ->
  sure repo w0 c0 (current_ref repo) (fun x => snd (fst x) = true).
Proof.
  intros Ht. unfold current_ref, sure.
  apply (spec_try_else _ _ _ _ none type_error).
  - now apply det_current_ref_body.
  - intros e ->. simpl.
    eapply spec_bind; [apply sure_pygit|]. intros g ->.
    fold (tags_named repo (w0 (dpath repo))). rewrite Ht.
    now apply spec_pure.
  - intros a [].
Qed.

Lemma det_current_ref_other :
  (forall t, tags_named repo (w0 (dpath repo)) <> [t]) ->
  spec J (current_ref repo) none type_error.
Proof.
  intros Ht. unfold current_ref.
  apply (spec_try_else _ _ _ _ none type_error).
  - now apply det_current_ref_body.
  - intros e ->. simpl.
    eapply spec_bind; [apply (spec_pygit repo w0 J (frame_world _ _ _ _)
                                (frame_cache _ _ _ _) (frame_opens _ _ _)
                                (fun g => g = w0 (dpath repo))); reflexivity|].
    intros g ->.
    fold (tags_named repo (w0 (dpath repo))).
    destruct (tags_named repo (w0 (dpath repo))) as [|t [|t' l]];
      [now apply spec_raise|now elim (Ht t)|now apply spec_raise].
  - intros a [].
Qed.

Lemma det_check_tag t :
  tags_named repo (w0 (dpath repo)) = [t] ->
  sure repo w0 c0 (check ub_cmd repo) any.
Proof.
  intros Ht. unfold check, ensure.
  eapply sure_bind; [apply det_ensure_head|]. intros r ->.
  unfold ensure_body.
  apply (sure_bind _ _ _ _ _ any);
    [apply sure_assert_clean; exact H_clean|intros _ _].
  eapply sure_bind; [apply det_registered_remote|]. intros r ->.
  apply (sure_bind _ _ _ _ _ any); [|intros _ _; apply det_ensure_report].
  unfold ensure_remote.
  apply (sure_bind _ _ _ _ _ any); [apply det_ensure_fetch|intros _ _].
  apply (sure_bind _ _ _ _ _ any); [apply det_ensure_url|intros _ _].
  eapply sure_bind; [exact (det_current_ref_tag t Ht)|].
  intros [[c tg] tr] Hx. simpl in Hx. subst tg.
  apply (sure_bind _ _ _ _ _ any).
  - apply spec_when; [exact Logic.I|intros _; apply det_ensure_checkout].
  - intros _ _. now apply sure_pure.
Qed.

Lemma sure_spec {A} (m : M A) (Q : A -> Prop) (E : Exc -> Prop) :
  sure repo w0 c0 m Q -> spec J m Q E.
Proof.
  intros H. apply (spec_conseq _ _ Q Q none E); [exact H|auto|intros e []].
Qed.

Lemma det_check_other :
  (forall t, tags_named repo (w0 (dpath repo)) <> [t]) ->
  spec J (check ub_cmd repo) none type_error.
Proof.
  intros Ht. unfold check, ensure.
  eapply spec_bind; [apply sure_spec, det_ensure_head|]. intros r ->.
  unfold ensure_body.
  apply (spec_bind _ _ _ any);
    [apply sure_spec, sure_assert_clean; exact H_clean|intros _ _].
  eapply spec_bind; [apply sure_spec, det_registered_remote|].
  intros r ->.
  apply (spec_bind _ _ _ none); [|intros a []].
  unfold ensure_remote.
  apply (spec_bind _ _ _ any); [apply sure_spec, det_ensure_fetch|intros _ _].
  apply (spec_bind _ _ _ any); [apply sure_spec, det_ensure_url|intros _ _].
  apply (spec_bind _ _ _ none); [|intros a []].
  now apply det_current_ref_other.
Qed.

End Detached.

(** X28. [check] on a clean working copy whose active remote is registered
    and whose HEAD is detached: it returns when exactly one tag of the
    repository has the name given as [branch], and raises the TypeError of
    gitpython otherwise (no such tag, several, or no [branch]). *)
Theorem check_on_a_detached_head ub_cmd repo s rm :
  Git.path_exists (world s (dpath repo)) = true ->
  Git.is_git_repo (world s (dpath repo)) = true ->
  Git.is_dirty (world s (dpath repo)) = false ->
  Git.find_remote (remote repo) (Git.remotes (world s (dpath repo))) = Some rm ->
  Git.active_branch (world s (dpath repo)) = None ->
  fst (check ub_cmd repo s)
  = match tags_named repo (world s (dpath repo)) with
    | [_] => Ok tt
    | _ => Raise TypeError
    end.
Proof.
  intros He Hg Hc Hr Hd.
  assert (HJ : frame (dpath repo) (world s) (logged_cmds (mem s)) true s).
  { split; [reflexivity|]. split; [reflexivity|]. intros _. right. now split. }
  assert (Hone : forall t, tags_named repo (world s (dpath repo)) = [t] ->
                           fst (check ub_cmd repo s) = Ok tt).
  { intros t Ht.
    pose proof (det_check_tag ub_cmd repo _ _ rm He Hc Hr Hd t Ht s HJ) as H.
    destruct (check ub_cmd repo s) as [[[]|e] s']; [reflexivity|].
    destruct H as [_ []]. }
  assert (Hother : (forall t, tags_named repo (world s (dpath repo)) <> [t]) ->
                   fst (check ub_cmd repo s) = Raise TypeError).
  { intros Ht.
    pose proof (det_check_other ub_cmd repo _ _ rm He Hc Hr Hd Ht s HJ) as H.
    destruct (check ub_cmd repo s) as [[a|e] s']; destruct H as [_ H];
      [destruct H|simpl; now rewrite H]. }
  destruct (tags_named repo (world s (dpath repo))) as [|t [|t' l]] eqn:Et.
  - apply Hother. discriminate.
  - now apply (Hone t).
  - apply Hother. discriminate.
Qed.

(** [ubelt] pinned to its tag [1.2.0], and a clone of it on that tag. *)
Definition pinned : Repo :=
  {| name := name ubelt; dpath := dpath ubelt; code_dpath := code_dpath ubelt;
     remotes := remotes ubelt; remote := remote ubelt;
     branch := Some "1.2.0";
     url := url ubelt; pkg_dpath := pkg_dpath ubelt |}.

Definition tagged_world : Git.World :=
  fun _ =>
    {| Git.path_exists := true; Git.is_git_repo := true; Git.is_dirty := false;
       Git.remotes := Git.remotes (ubelt_tree false);
       Git.active_branch := None;
       Git.tags := [{| Git.tag_name := "1.1.0"; Git.tag_hexsha := "0a1b2c" |};
                    {| Git.tag_name := "1.2.0"; Git.tag_hexsha := "7f8e9d" |}];
       Git.head_hexsha := "7f8e9d" |}.

Lemma check_on_a_detached_head_witness :
  fst (check inert_cmd pinned {| mem := fresh; world := tagged_world |}) = Ok tt
  /\ fst (check inert_cmd ubelt {| mem := fresh; world := tagged_world |})
     = Raise TypeError.
Proof.
  split.
  - exact (check_on_a_detached_head inert_cmd pinned
             {| mem := fresh; world := tagged_world |}
             _ eq_refl eq_refl eq_refl eq_refl eq_refl).
  - exact (check_on_a_detached_head inert_cmd ubelt
             {| mem := fresh; world := tagged_world |}
             _ eq_refl eq_refl eq_refl eq_refl eq_refl).
Defined.

End Pinned.
